(** * CV2Web: the dot-field animator of [template/components/image-canvas.tsx]

    A shallow embedding of the canvas component: particle generation from the
    contrast-adjusted pixel buffer, the pointer handlers, the per-frame update
    and the resize callback.

    Numbers.  A JavaScript [number] is modelled as an exact rational ([Q]);
    rounding of IEEE doubles is not modelled.  [Date.now()] yields integer
    milliseconds ([Z]).  The pixel buffer of [getImageData] is a
    [Uint8ClampedArray]: a list of bytes held as [Z] in [0,255].  A value that
    JavaScript would compute as [NaN] or [Infinity] (a read of [undefined]
    past the end of the buffer, a division by zero) has no rational
    counterpart: such reads and divisions are [option]-valued.

    Exceptions.  Two calls of the 2d context throw an [IndexSizeError]:
    [getImageData] on a canvas without a pixel in one direction, and [arc]
    with a negative radius.  Nothing catches them, so the handler that makes
    the call ends there; what it has assigned before stays assigned.  The
    exception is recorded as the last entry of what the handler did on the
    context.

    Host functions.  [Math.sqrt], [Math.sin], [Math.PI], [Math.random],
    [Date.now] and [smoothNoise] (imported from [@/lib/noise]) are
    parameters of the development; what a theorem needs of them is a
    hypothesis of that theorem. *)

From Stdlib Require Import QArith Qminmax Qabs Qround ZArith List Bool Lia Lqa String.
From Stdlib Require Import Sorted.
Import ListNotations.

Local Open Scope Q_scope.

(** ** JavaScript comparisons and [Math] helpers on rationals *)

Definition Qltb (a b : Q) : bool := negb (Qle_bool b a).
Definition Qgtb (a b : Q) : bool := Qltb b a.

Definition Math_max (a b : Q) : Q := Qmax a b.
Definition Math_min (a b : Q) : Q := Qmin a b.
Definition Math_floor (a : Q) : Z := Qfloor a.
Definition Math_ceil (a : Q) : Z := Qceiling a.
Definition Math_abs (a : Q) : Q := Qabs a.

(** [a / b] where the source does not guard the divisor by a constant:
    [None] stands for the [Infinity] or [NaN] of JavaScript. *)
Definition checked_div (a b : Q) : option Q :=
  if Qeq_bool b 0 then None else Some (a / b).

(** ** Data model (interfaces [DotData] and [TrailPoint], the props) *)

Module DotData.
Record t := mk {
  x : Q; y : Q;
  baseX : Q; baseY : Q;
  baseSize : Q;
  brightness : Q;
  isAccent : bool;
  sizeMultiplier : Q;
  twinklePhase : Q;
  twinkleSpeed : Q;
  vx : Q; vy : Q
}.
End DotData.

Module TrailPoint.
Record t := mk {
  x : Q; y : Q;
  timestamp : Z;
  strength : Q
}.
End TrailPoint.

(** [mouseRef.current] *)
Module Mouse.
Record t := mk { x : Q; y : Q; prevX : Q; prevY : Q }.
End Mouse.

Record ImageCanvasProps := mkProps {
  image_width : Q; image_height : Q;
  halftoneSize : Q;
  contrast : Q;
  accentColor : string;
  mouseRadius : Q;
  repulsionStrength : Q;
  returnSpeed : Q;
  accentProbability : Q;
  sizeVariation : Q
}.

(** What a handler does on the 2d context, in order: what it draws and,
    where a call of the context throws, the [IndexSizeError] that ends the
    handler there (nothing in the component catches it). *)
Inductive CanvasOp :=
| FillRect (fillStyle : string) (w h : Q)
| FillArc (fillStyle : string) (globalAlpha : Q) (cx cy radius : Q)
| IndexSizeError.

(** [ctx.getImageData(0, 0, canvas.width, canvas.height)] throws an
    [IndexSizeError] when the width or the height of the rectangle is 0. *)
Definition getImageData_throws (canvas_width canvas_height : Z) : bool :=
  (canvas_width =? 0)%Z || (canvas_height =? 0)%Z.

(** [ctx.arc(x, y, radius, 0, Math.PI * 2)] throws an [IndexSizeError] when
    the radius is negative; a radius of 0 is accepted. *)
Definition arc_throws (radius : Q) : bool :=
  negb (Qle_bool 0 radius).

(** ** Contrast transform (lines 176-181) *)

(** The right-hand side of the three assignments of the contrast loop. *)
Definition contrastValue (c p : Q) : Q :=
  Math_max 0 (Math_min 255 (((p / 255 - (1#2)) * c + (1#2)) * 255)).

(** Store into a [Uint8ClampedArray]: clamp to [0,255], round to the nearest
    integer, ties to even. *)
Definition toUint8Clamp (v : Q) : Z :=
  if Qle_bool v 0 then 0%Z
  else if Qle_bool 255 v then 255%Z
  else
    let f := Qfloor v in
    if Qltb (inject_Z f + (1#2)) v then (f + 1)%Z
    else if Qltb v (inject_Z f + (1#2)) then f
    else if Z.even f then f else (f + 1)%Z.

Definition contrastByte (c : Q) (p : Z) : Z :=
  toUint8Clamp (contrastValue c (inject_Z p)).

(** [for (let i = 0; i < data.length; i += 4)]: the three colour channels of
    every pixel are rewritten, alpha is kept.  A store past the end of a
    typed array is ignored, so a trailing partial group keeps its length. *)
Fixpoint applyContrast (c : Q) (data : list Z) : list Z :=
  match data with
  | r :: g :: b :: a :: rest =>
      contrastByte c r :: contrastByte c g :: contrastByte c b :: a
        :: applyContrast c rest
  | partial => map (contrastByte c) partial
  end.

(** The clamp of the specification, by cases. *)
Definition clamp (lo hi v : Q) : Q :=
  if Qltb v lo then lo else if Qltb hi v then hi else v.

(** ** Reading the pixel buffer *)

(** [data[i]]: [undefined] outside the buffer. *)
Definition data_at (data : list Z) (i : Z) : option Q :=
  if (i <? 0)%Z then None
  else option_map inject_Z (nth_error data (Z.to_nat i)).

(** [(data[i] + data[i + 1] + data[i + 2]) / 3] *)
Definition brightnessAt (data : list Z) (i : Z) : option Q :=
  match data_at data i, data_at data (i + 1), data_at data (i + 2) with
  | Some r, Some g, Some b => Some ((r + g + b) / 3)
  | _, _, _ => None
  end.

(** [sampleX = Math.floor(x * dpr)], [sampleY = Math.floor(y * dpr)],
    [i = (sampleY * canvas.width + sampleX) * 4] (lines 190-192, 381-383). *)
Definition sampleIndex (dpr : Q) (canvas_width : Z) (x y : Q) : Z :=
  let sampleX := Math_floor (x * dpr) in
  let sampleY := Math_floor (y * dpr) in
  ((sampleY * canvas_width + sampleX) * 4)%Z.

(** The index the specification describes: the pixel under the cell centre. *)
Definition centerSampleIndex (dpr : Q) (canvas_width : Z) (cell x y : Q) : Z :=
  sampleIndex dpr canvas_width (x + cell / 2) (y + cell / 2).

(** [dotSize = (brightness / 255) * adjustedHalftoneSize * 0.9] *)
Definition dotSize (cell brightness : Q) : Q :=
  (brightness / 255) * cell * (9#10).

(** ** The [for] loops over the grid *)

(** [for (let v = start; v < limit; v += step)]: the values of [v] at which
    the body runs, for at most [fuel] iterations.  The sum [v += step] is
    the exact one: where the doubles of the source round it, the values of
    [v] differ from these by the rounding, and where [limit] is within that
    rounding of a multiple of [step] the source may run the body once more
    or once less than this list is long.  What is proved of the loops below
    is proved of each value the body runs at, not of how many there are. *)
Fixpoint for_range (fuel : nat) (start limit step : Q) : list Q :=
  match fuel with
  | O => []
  | S fuel' =>
      if Qltb start limit
      then start :: for_range fuel' (start + step) limit step
      else []
  end.

(** Iterations a loop from 0 needs before its condition fails. *)
Definition range_fuel (limit step : Q) : nat :=
  Z.to_nat (Math_ceil (limit / step)).

(** The loop from 0, in exact arithmetic, run to the end. *)
Definition grid_range (limit step : Q) : list Q :=
  for_range (range_fuel limit step) 0 limit step.

(** [Math.max(scaleX, scaleY)] with [scaleX = width / image.width]. *)
Definition fillScale (p : ImageCanvasProps) (width height : Q) : Q :=
  Math_max (width / image_width p) (height / image_height p).

(** [Math.max(2, halftoneSize * scale)] *)
Definition adjustedHalftoneSize (p : ImageCanvasProps) (width height : Q) : Q :=
  Math_max 2 (halftoneSize p * fillScale p width height).

(** [canvas.width = displayWidth * dpr]: the attribute is an unsigned long,
    the product is truncated (sizes are not negative). *)
Definition canvas_dimension (dpr size : Q) : Z := Qfloor (size * dpr).

(** ** Component state *)

(** The refs and the [isHovering] state of the component. *)
Record Refs := mkRefs {
  mouseRef : Mouse.t;
  isHovering : bool;
  isFirstMoveRef : bool;
  lastMoveTimeRef : Z;
  mouseTrailRef : list TrailPoint.t;
  fadeFactorRef : Q
}.

(** Refs of a freshly mounted component (lines 56-64). *)
Definition initialRefs : Refs :=
  mkRefs (Mouse.mk (-1000) (-1000) (-1000) (-1000)) false true 0%Z [] 1.

(** How many times [Date.now()] and [Math.random()] were called so far. *)
Record World := mkWorld { nowCalls : nat; randomCalls : nat }.

Definition initialWorld : World := mkWorld 0 0.

Record MouseEvent := mkMouseEvent { clientX : Q; clientY : Q }.

(** [getBoundingClientRect()] of the canvas *)
Module DOMRect.
Record t := mk { left : Q; top : Q }.
End DOMRect.

(** [entries[0].contentRect] of a resize entry *)
Module ContentRect.
Record t := mk { width : Q; height : Q }.
End ContentRect.

(** [dotsRef.current] is the array [dots] of the effect closure until a
    resize stores a new array in it; [animate] keeps iterating [dots]. *)
Inductive DotsRef :=
| SameAsDots
| Regenerated (newDots : list DotData.t).

Record Scene := mkScene {
  dots : list DotData.t;
  dotsRef : DotsRef;
  displayWidth : Q; displayHeight : Q;
  lastWidth : Q; lastHeight : Q;
  canvas_width : Z; canvas_height : Z
}.

(** The three accumulators of the [dots.forEach] callback. *)
Record Accum := mkAccum {
  maxDistanceFactor : Q;
  totalForceX : Q;
  totalForceY : Q
}.

(** What one iteration of [dots.forEach] leaves behind. *)
Record DotFrame := mkDotFrame {
  frame_dot : DotData.t;
  isTwinkling : bool;
  frame_maxDistanceFactor : Q;
  opacity : Q
}.

Inductive Event :=
| MouseMove (canvasRect : option DOMRect.t) (e : MouseEvent)
| MouseEnter
| MouseLeave
| FrameTick
| Resize (canvasMounted : bool) (entries : list ContentRect.t).

Definition is_MouseEnter (ev : Event) : bool :=
  match ev with MouseEnter => true | _ => false end.

(** [distanceFactor * distanceFactor * (3 - 2 * distanceFactor)] *)
Definition smoothstep (distanceFactor : Q) : Q :=
  distanceFactor * distanceFactor * (3 - 2 * distanceFactor).

(** The constant [fadeOutFactor] of [animate]. *)
Definition fadeOutFactor : Q := 1.

(** ** Concrete host functions, used to run the model on examples *)

Module HostModel.

(** A rational square root: exact on squares of rationals, a lower
    approximation elsewhere, never negative. *)
Definition sqrt (q : Q) : Q :=
  let r := Qred q in
  match Qnum r with
  | Zpos n => Z.sqrt (Zpos n * Zpos (Qden r)) # Qden r
  | _ => 0
  end.

(** The cubic Taylor polynomial of the sine, cut to [-1,1]. *)
Definition sin (a : Q) : Q :=
  Qmax (-1) (Qmin 1 (a - a * a * a / 6)).

Definition PI : Q := 355 # 113.

(** A noise field that is constant at one half. *)
Definition smoothNoise (x y frequency time : Q) : Q := 1 # 2.

(** [Math.random()] cycling through 0, 0.1, ..., 0.9. *)
Definition random (k : nat) : Q := Z.of_nat (k mod 10) # 10.

(** A clock given by a table of readings; the last one repeats. *)
Fixpoint clock_of (readings : list Z) (k : nat) : Z :=
  match readings, k with
  | [], _ => 0%Z
  | [t], _ => t
  | t :: _, O => t
  | _ :: rest, S k' => clock_of rest k'
  end.

Fixpoint nondecreasing (readings : list Z) : bool :=
  match readings with
  | a :: (b :: _) as rest => (a <=? b)%Z && nondecreasing rest
  | _ => true
  end.

(** A clock that advances 1ms per reading, from 1000. *)
Definition clock1 (k : nat) : Z := (1000 + Z.of_nat k)%Z.

End HostModel.

(** ** Example inputs *)

Module Examples.

(** A 4x2 image shown in a 4x2 container: fill scale 1, cells of size 2. *)
Definition props : ImageCanvasProps :=
  mkProps 4 2 2 1 "#ff0000" 10 1 1 (1#2) (1#2).

Definition white : list Z := [255; 255; 255; 255]%Z.
Definition black : list Z := [0; 0; 0; 255]%Z.

(** The 4x2 pixel buffer with one white pixel, at column 0 of row 0. *)
Definition buffer : list Z :=
  white ++ black ++ black ++ black ++ black ++ black ++ black ++ black.

Definition getImageData (width height : Q) : list Z := buffer.

(** A 6x6 image in a 6x6 container with cells of size 17/6, and two
    buffers whose first pixel is a grey of level 50 and of level 51. *)
Definition props17 : ImageCanvasProps :=
  mkProps 6 6 (17#6) 1 "#ff0000" 10 1 1 (1#2) (1#2).
Definition grey50 : list Z := [50; 50; 50; 255]%Z.
Definition grey51 : list Z := [51; 51; 51; 255]%Z.

(** A canvas whose box starts at the origin of the viewport. *)
Definition rect0 : DOMRect.t := DOMRect.mk 0 0.

(** A white particle resting at (10, 10), with twinkle phase [phase]. *)
Definition dotAt10 (phase : Q) : DotData.t :=
  DotData.mk 10 10 10 10 (18#10) 255 false 1 phase (2#100) 0 0.

(** A white particle resting at (3, 10). *)
Definition dotAt3 : DotData.t :=
  DotData.mk 3 10 3 10 (18#10) 255 false 1 0 (2#100) 0 0.

(** Refs after some moves: the pointer at [(x, y)] and the given trail. *)
Definition refsAt (x y : Q) (trail : list TrailPoint.t) : Refs :=
  mkRefs (Mouse.mk x y x y) true false 0%Z trail 1.

(** Four moves along the row y = 10, 10px apart, and a frame. *)
Definition fourMoves : list Event :=
  [MouseMove (Some rect0) (mkMouseEvent 10 10);
   MouseMove (Some rect0) (mkMouseEvent 20 10);
   FrameTick;
   MouseMove (Some rect0) (mkMouseEvent 30 10);
   MouseMove (Some rect0) (mkMouseEvent 40 10)].

(** The clock readings of [fourMoves] when the moves come at 1000,
    1010, 1100 and 1159, a frame runs at 1016 and the next at 1176. *)
Definition readings : list Z :=
  [1000; 1010; 1010; 1010; 1016; 1016; 1100; 1100; 1100;
   1159; 1159; 1159; 1176]%Z.

(** A uniformly grey surface of any size. *)
Definition greyImageData (width height : Q) : list Z :=
  repeat 200%Z (Z.to_nat (Qfloor width * Qfloor height * 4)).

(** The props of the 4x2 example with accent probability 0 and 1. *)
Definition propsNoAccent : ImageCanvasProps :=
  mkProps 4 2 2 1 "#ff0000" 10 1 1 0 (1#2).
Definition propsAllAccent : ImageCanvasProps :=
  mkProps 4 2 2 1 "#ff0000" 10 1 1 1 (1#2).

(** A 5x5 image in a 5x5 container with cells of size 2.4. *)
Definition props24 : ImageCanvasProps :=
  mkProps 5 5 (24#10) 1 "#ff0000" 10 1 1 (1#2) (1#2).

(** Events that are not a pointer move on a mounted canvas. *)
Definition quietEvents : list Event :=
  [FrameTick; MouseEnter; MouseMove None (mkMouseEvent 5 5);
   Resize true [ContentRect.mk 100 50]; MouseLeave; FrameTick].

(** Two particles, the second an accent one in motion, on a 40x20 surface. *)
Definition scene : Scene :=
  mkScene [dotAt10 0;
           DotData.mk 31 12 30 10 (3#2) 200 true (5#4) 1 (3#100) (1#2) (-1)]
    SameAsDots 40 20 40 20 40 20.

(** The props of the 4x2 example with a size variation of 3. *)
Definition props3 : ImageCanvasProps :=
  mkProps 4 2 2 1 "#ff0000" 10 1 1 (1#2) 3.

(** A white particle resting at (20, 10) whose size multiplier is -1/2. *)
Definition shrunkDot : DotData.t :=
  DotData.mk 20 10 20 10 (18#10) 255 false (-1#2) 0 (2#100) 0 0.

(** Three particles on a 40x20 surface, the second with a negative size. *)
Definition sceneShrunk : Scene :=
  mkScene [dotAt10 0; shrunkDot; dotAt3] SameAsDots 40 20 40 20 40 20.

End Examples.

(** ** The component, over the host functions *)

Section Animator.

(** [Math.sqrt], [Math.sin], [Math.PI] *)
Variable Math_sqrt : Q -> Q.
Variable Math_sin : Q -> Q.
Variable Math_PI : Q.
(** [smoothNoise(x, y, frequency, time)] of [@/lib/noise] *)
Variable smoothNoise : Q -> Q -> Q -> Q -> Q.
(** The value of the k-th call of [Math.random()] and of [Date.now()]. *)
Variable Math_random_value : nat -> Q.
Variable Date_now_value : nat -> Z.
(** [window.devicePixelRatio] *)
Variable devicePixelRatio : Q.
(** The bytes [ctx.getImageData(0, 0, canvas.width, canvas.height).data]
    holds once the image is drawn on a surface of the given display width
    and height. *)
Variable getImageData : Q -> Q -> list Z.

Definition Date_now (w : World) : Z * World :=
  (Date_now_value (nowCalls w), mkWorld (S (nowCalls w)) (randomCalls w)).

Definition Math_random (w : World) : Q * World :=
  (Math_random_value (randomCalls w), mkWorld (nowCalls w) (S (randomCalls w))).

(** [window.devicePixelRatio || 1] *)
Definition dpr : Q :=
  if Qeq_bool devicePixelRatio 0 then 1 else devicePixelRatio.

(** *** Particle generation (lines 183-220 and 376-406) *)

(** The effect body draws [sizeMultiplier] before [isAccent]; the resize
    callback builds the object literal with [isAccent] first. *)
Inductive Site := AtMount | AtResize.

(** The body of the inner loop, after [brightness] is read: the dot pushed
    for the cell at [(x, y)], if any. *)
Definition makeDot (site : Site) (p : ImageCanvasProps) (cell : Q)
    (brightness x y : Q) (w : World) : option DotData.t * World :=
  let size := dotSize cell brightness in
  if Qgtb size (1#2) then
    let centerX := x + cell / 2 in
    let centerY := y + cell / 2 in
    let '(r1, w) := Math_random w in
    let '(r2, w) := Math_random w in
    let '(r3, w) := Math_random w in
    let '(r4, w) := Math_random w in
    let '(rSize, rAccent) :=
      match site with AtMount => (r1, r2) | AtResize => (r2, r1) end in
    let sizeMultiplier := 1 + (rSize - (1#2)) * sizeVariation p in
    let isAccent := Qltb rAccent (accentProbability p) && Qgtb brightness 150 in
    (Some (DotData.mk centerX centerY centerX centerY size brightness
             isAccent sizeMultiplier
             (r3 * Math_PI * 2) ((2#100) + r4 * (3#100)) 0 0), w)
  else (None, w).

(** One cell: sample, then [makeDot].  An [undefined] sample makes
    [dotSize] a [NaN], which is not [> 0.5]: no dot. *)
Definition cellDot (site : Site) (p : ImageCanvasProps) (data : list Z)
    (cw : Z) (cell x y : Q) (w : World) : option DotData.t * World :=
  match brightnessAt data (sampleIndex dpr cw x y) with
  | Some brightness => makeDot site p cell brightness x y w
  | None => (None, w)
  end.

Definition push {A} (l : list A) (o : option A) : list A :=
  match o with Some a => l ++ [a] | None => l end.

(** The inner loop over [x] and the outer loop over [y]. *)
Fixpoint rowDots (site : Site) (p : ImageCanvasProps) (data : list Z)
    (cw : Z) (cell y : Q) (xs : list Q) (acc : list DotData.t) (w : World)
    : list DotData.t * World :=
  match xs with
  | [] => (acc, w)
  | x :: xs' =>
      let '(d, w) := cellDot site p data cw cell x y w in
      rowDots site p data cw cell y xs' (push acc d) w
  end.

Fixpoint gridDots (site : Site) (p : ImageCanvasProps) (data : list Z)
    (cw : Z) (cell : Q) (xs ys : list Q) (acc : list DotData.t) (w : World)
    : list DotData.t * World :=
  match ys with
  | [] => (acc, w)
  | y :: ys' =>
      let '(acc, w) := rowDots site p data cw cell y xs acc w in
      gridDots site p data cw cell xs ys' acc w
  end.

Definition generateDots (site : Site) (p : ImageCanvasProps) (data : list Z)
    (width height : Q) (w : World) : list DotData.t * World :=
  let cell := adjustedHalftoneSize p width height in
  gridDots site p data (canvas_dimension dpr width) cell
    (grid_range width cell) (grid_range height cell) [] w.

(** The cells of the grid, row by row, as the loops visit them. *)
Definition gridCells (width height cell : Q) : list (Q * Q) :=
  flat_map (fun y => map (fun x => (x, y)) (grid_range width cell))
           (grid_range height cell).

(** The diameter computed for the cell at [(x, y)]; [None] where the
    sample is [undefined]. *)
Definition cellDiameter (data : list Z) (cw : Z) (cell x y : Q) : option Q :=
  option_map (dotSize cell) (brightnessAt data (sampleIndex dpr cw x y)).

Definition hasDot (data : list Z) (cw : Z) (cell : Q) (c : Q * Q) : bool :=
  match cellDiameter data cw cell (fst c) (snd c) with
  | Some size => Qgtb size (1#2)
  | None => false
  end.

Definition cellCenter (cell : Q) (c : Q * Q) : Q * Q :=
  (fst c + cell / 2, snd c + cell / 2).

Definition restPosition (d : DotData.t) : Q * Q :=
  (DotData.baseX d, DotData.baseY d).

(** The dot [d] is the one the loop body builds for the cell [c]: it
    rests at the centre of the cell, starts there at rest, and carries the
    brightness read at [sampleIndex] of the cell's own coordinates. *)
Definition dotOfCell (data : list Z) (cw : Z) (cell : Q) (c : Q * Q)
    (d : DotData.t) : Prop :=
  restPosition d = cellCenter cell c
  /\ DotData.x d = DotData.baseX d /\ DotData.y d = DotData.baseY d
  /\ DotData.vx d = 0 /\ DotData.vy d = 0
  /\ brightnessAt data (sampleIndex dpr cw (fst c) (snd c))
     = Some (DotData.brightness d)
  /\ DotData.baseSize d = dotSize cell (DotData.brightness d).

(** The effect body up to [dotsRef.current = dots] (lines 136-222), for a
    container of the given size; the canvas, its context and the image are
    present.  Where the canvas has no pixel in one direction
    [getImageData] (line 169) throws and the effect ends there: nothing is
    painted, no dot is generated, [dotsRef.current] keeps its initial [[]],
    and neither the frame loop nor a listener is started. *)
Definition mountEffect (p : ImageCanvasProps) (MAX_WIDTH MAX_HEIGHT : Q)
    (w : World) : Scene * World * list CanvasOp :=
  let canvas_width := canvas_dimension dpr MAX_WIDTH in
  let canvas_height := canvas_dimension dpr MAX_HEIGHT in
  if getImageData_throws canvas_width canvas_height
  then
    (mkScene [] SameAsDots MAX_WIDTH MAX_HEIGHT MAX_WIDTH MAX_HEIGHT
       canvas_width canvas_height,
     w, [IndexSizeError])
  else
    let data := applyContrast (contrast p) (getImageData MAX_WIDTH MAX_HEIGHT) in
    let '(dots, w) := generateDots AtMount p data MAX_WIDTH MAX_HEIGHT w in
    (mkScene dots SameAsDots MAX_WIDTH MAX_HEIGHT MAX_WIDTH MAX_HEIGHT
       canvas_width canvas_height,
     w, [FillRect "#020202" MAX_WIDTH MAX_HEIGHT]).

(** The [ResizeObserver] callback (lines 335-410).  [canvasMounted] is
    [canvasRef.current] being set; [image] is set for as long as the effect
    lives.  The new buffer is used as read: the contrast loop is not run
    here.  [displayWidth] and [displayHeight] are constants of the effect
    closure and keep their values.  [lastWidth], [lastHeight] and the size
    of the canvas are assigned (lines 345-352) before [getImageData]
    (line 369) is called: where that call throws, they keep their new
    values, and nothing after it is run. *)
Definition resizeCallback (p : ImageCanvasProps) (canvasMounted : bool)
    (entries : list ContentRect.t) (sc : Scene) (w : World)
    : Scene * World * list CanvasOp :=
  match canvasMounted, entries with
  | true, entry :: _ =>
      let newWidth := ContentRect.width entry in
      let newHeight := ContentRect.height entry in
      let widthDiff := Math_abs (newWidth - lastWidth sc) in
      let heightDiff := Math_abs (newHeight - lastHeight sc) in
      if Qgtb newWidth 0 && Qgtb newHeight 0
         && (Qgtb widthDiff 5 || Qgtb heightDiff 5)
      then
        let canvas_width := canvas_dimension dpr newWidth in
        let canvas_height := canvas_dimension dpr newHeight in
        if getImageData_throws canvas_width canvas_height
        then
          (mkScene (dots sc) (dotsRef sc)
             (displayWidth sc) (displayHeight sc) newWidth newHeight
             canvas_width canvas_height,
           w, [IndexSizeError])
        else
          let data := getImageData newWidth newHeight in
          let '(newDots, w) := generateDots AtResize p data newWidth newHeight w in
          (mkScene (dots sc) (Regenerated newDots)
             (displayWidth sc) (displayHeight sc) newWidth newHeight
             canvas_width canvas_height,
           w, [FillRect "#020202" newWidth newHeight])
      else (sc, w, [])
  | _, _ => (sc, w, [])
  end.

(** *** Pointer handlers (lines 68-123) *)

(** The [for (let i = 0; i < steps; i++)] loop, with [remaining] iterations
    to go from index [i]. *)
Fixpoint pushInterpolated (remaining : nat) (i : Z) (steps : Z)
    (m : Mouse.t) (velX velY speed : Q)
    (trail : list TrailPoint.t) (w : World) : list TrailPoint.t * World :=
  match remaining with
  | O => (trail, w)
  | S remaining' =>
      let t := inject_Z i / inject_Z steps in
      let interpX := Mouse.prevX m + velX * t in
      let interpY := Mouse.prevY m + velY * t in
      let '(now, w) := Date_now w in
      pushInterpolated remaining' (i + 1)%Z steps m velX velY speed
        (trail ++ [TrailPoint.mk interpX interpY now
                     (Math_min (speed / 10) 1)]) w
  end.

(** [Math.max(1, Math.ceil(distance / 10))] *)
Definition trailSteps (speed : Q) : Z := Z.max 1 (Math_ceil (speed / 10)).

(** [now - point.timestamp < 150] *)
Definition isRecent (now : Z) (point : TrailPoint.t) : bool :=
  (now - TrailPoint.timestamp point <? 150)%Z.

Definition handleMouseMove (canvasRect : option DOMRect.t) (e : MouseEvent)
    (r : Refs) (w : World) : Refs * World :=
  match canvasRect with
  | None => (r, w)
  | Some rect =>
      let newX := clientX e - DOMRect.left rect in
      let newY := clientY e - DOMRect.top rect in
      let '(moved, w) := Date_now w in
      if isFirstMoveRef r then
        (mkRefs (Mouse.mk newX newY newX newY) (isHovering r) false moved
           (mouseTrailRef r) (fadeFactorRef r), w)
      else
        let m := Mouse.mk newX newY (Mouse.x (mouseRef r)) (Mouse.y (mouseRef r)) in
        let velX := newX - Mouse.prevX m in
        let velY := newY - Mouse.prevY m in
        let speed := Math_sqrt (velX * velX + velY * velY) in
        let distance := speed in
        let steps := trailSteps distance in
        let '(trail, w) :=
          pushInterpolated (Z.to_nat steps) 0 steps m velX velY speed
            (mouseTrailRef r) w in
        let '(now, w) := Date_now w in
        (mkRefs m (isHovering r) false moved (filter (isRecent now) trail)
           (fadeFactorRef r), w)
  end.

Definition handleMouseEnter (r : Refs) (w : World) : Refs * World :=
  let '(now, w) := Date_now w in
  (mkRefs (mouseRef r) true (isFirstMoveRef r) now (mouseTrailRef r)
     (fadeFactorRef r), w).

Definition handleMouseLeave (r : Refs) : Refs :=
  mkRefs (mouseRef r) false (isFirstMoveRef r) (lastMoveTimeRef r)
    (mouseTrailRef r) (fadeFactorRef r).

(** *** The frame callback [animate] (lines 224-323) *)

(** Lines 228-238: the idle check on the trail and the animation time.
    Returns the refs, the first reading of the clock and [time]. *)
Definition animateTrail (r : Refs) (w : World) : Refs * Z * Q * World :=
  let '(now, w) := Date_now w in
  let timeSinceLastMove := (now - lastMoveTimeRef r)%Z in
  let isMouseMoving := (timeSinceLastMove <? 100)%Z in
  let trail := if negb isMouseMoving then [] else mouseTrailRef r in
  let '(now2, w) := Date_now w in
  let time := inject_Z now2 * (1#1000) in
  (mkRefs (mouseRef r) (isHovering r) (isFirstMoveRef r) (lastMoveTimeRef r)
     trail 1, now, time, w).

(** [mouseRadius * (0.7 + noiseValue * 0.6)] *)
Definition irregularRadius (p : ImageCanvasProps) (time : Q) (dot : DotData.t) : Q :=
  let noiseValue := smoothNoise (DotData.baseX dot) (DotData.baseY dot) (2#100) time in
  mouseRadius p * ((7#10) + noiseValue * (6#10)).

(** [Math.sqrt(dx * dx + dy * dy)] from the dot to the point [(px, py)] *)
Definition distanceTo (dot : DotData.t) (px py : Q) : Q :=
  let dx := px - DotData.x dot in
  let dy := py - DotData.y dot in
  Math_sqrt (dx * dx + dy * dy).

(** The callback of [mouseTrailRef.current.forEach] (lines 248-269). *)
Definition trailPointStep (p : ImageCanvasProps) (time : Q) (dot : DotData.t)
    (acc : Accum) (trailPoint : TrailPoint.t) : option Accum :=
  let dx := TrailPoint.x trailPoint - DotData.x dot in
  let dy := TrailPoint.y trailPoint - DotData.y dot in
  let distance := Math_sqrt (dx * dx + dy * dy) in
  if Qgtb distance (mouseRadius p * (15#10)) then Some acc
  else
    let radius := irregularRadius p time dot in
    if Qltb distance radius then
      match checked_div distance radius with
      | None => None
      | Some ratio =>
          let distanceFactor := 1 - ratio in
          let smoothFactor := smoothstep distanceFactor in
          let maxDF := Math_max (maxDistanceFactor acc) smoothFactor in
          if Qgtb distance (1#10) then
            let force := repulsionStrength p * smoothFactor
                         * TrailPoint.strength trailPoint * (5#10) * fadeOutFactor in
            match checked_div dx distance, checked_div dy distance with
            | Some ux, Some uy =>
                Some (mkAccum maxDF (totalForceX acc - ux * force)
                                    (totalForceY acc - uy * force))
            | _, _ => None
            end
          else Some (mkAccum maxDF (totalForceX acc) (totalForceY acc))
      end
    else Some acc.

Fixpoint forEachTrailPoint (p : ImageCanvasProps) (time : Q) (dot : DotData.t)
    (trail : list TrailPoint.t) (acc : Accum) : option Accum :=
  match trail with
  | [] => Some acc
  | trailPoint :: rest =>
      match trailPointStep p time dot acc trailPoint with
      | Some acc' => forEachTrailPoint p time dot rest acc'
      | None => None
      end
  end.

(** Lines 243-270: the accumulators after the trail. *)
Definition accumulateForces (p : ImageCanvasProps) (time : Q) (r : Refs)
    (dot : DotData.t) : option Accum :=
  let acc := mkAccum 0 0 0 in
  if (0 <? List.length (mouseTrailRef r))%nat && Qgtb fadeOutFactor (1#100)
  then forEachTrailPoint p time dot (mouseTrailRef r) acc
  else Some acc.

(** Lines 272-287: the live pointer.  Returns the new maximum and
    [isTwinkling]. *)
Definition pointerProximity (p : ImageCanvasProps) (time : Q) (r : Refs)
    (dot : DotData.t) (maxDF : Q) : option (Q * bool) :=
  if Qgtb (Mouse.x (mouseRef r)) 0 then
    let distance := distanceTo dot (Mouse.x (mouseRef r)) (Mouse.y (mouseRef r)) in
    let radius := irregularRadius p time dot in
    if Qltb distance radius then
      match checked_div distance radius with
      | None => None
      | Some ratio =>
          let distanceFactor := 1 - ratio in
          let smoothFactor := smoothstep distanceFactor in
          Some (Math_max maxDF smoothFactor, true)
      end
    else Some (maxDF, false)
  else Some (maxDF, false).

(** Lines 305-311: the new twinkle phase and the opacity. *)
Definition twinkleOpacity (dot : DotData.t) (maxDF : Q) : Q * Q :=
  if Qgtb maxDF 0 then
    let phase := DotData.twinklePhase dot + DotData.twinkleSpeed dot in
    let twinkle := Math_sin phase * (5#10) + (5#10) in
    let twinkleAmount := ((3#10) + twinkle * (7#10)) * maxDF * fadeOutFactor in
    (phase, 1 - (1 - twinkleAmount) * maxDF * fadeOutFactor)
  else (DotData.twinklePhase dot, 1).

(** The callback of [dots.forEach] (lines 242-320). *)
Definition animateDot (p : ImageCanvasProps) (time : Q) (r : Refs)
    (dot : DotData.t) : option DotFrame :=
  match accumulateForces p time r dot with
  | None => None
  | Some acc =>
      match pointerProximity p time r dot (maxDistanceFactor acc) with
      | None => None
      | Some (maxDF, twinkling) =>
          let vx := DotData.vx dot + totalForceX acc in
          let vy := DotData.vy dot + totalForceY acc in
          let returnForceX := (DotData.baseX dot - DotData.x dot) * returnSpeed p * (1#10) in
          let returnForceY := (DotData.baseY dot - DotData.y dot) * returnSpeed p * (1#10) in
          let vx := (vx + returnForceX) * (85#100) in
          let vy := (vy + returnForceY) * (85#100) in
          let '(phase, alpha) := twinkleOpacity dot maxDF in
          Some (mkDotFrame
                  (DotData.mk (DotData.x dot + vx) (DotData.y dot + vy)
                     (DotData.baseX dot) (DotData.baseY dot)
                     (DotData.baseSize dot) (DotData.brightness dot)
                     (DotData.isAccent dot) (DotData.sizeMultiplier dot)
                     phase (DotData.twinkleSpeed dot) vx vy)
                  twinkling maxDF alpha)
      end
  end.

(** The circle the callback asks the context for (lines 303, 313-318):
    the fill style, the alpha and the arguments of [ctx.arc]. *)
Definition drawDot (p : ImageCanvasProps) (f : DotFrame) : CanvasOp :=
  let dot := frame_dot f in
  let currentSize := DotData.baseSize dot * DotData.sizeMultiplier dot in
  FillArc (if DotData.isAccent dot then accentColor p else "#ffffff")
    (opacity f) (DotData.x dot) (DotData.y dot) (currentSize / 2).

(** Whether the context refuses the circle: [ctx.arc] throws on it. *)
Definition drawDot_throws (op : CanvasOp) : bool :=
  match op with
  | FillArc _ _ _ _ radius => arc_throws radius
  | _ => false
  end.

(** [dots.forEach(...)]: the dots as the loop leaves them and what it does
    on the context.  The callback updates the dot (lines 289-307) before it
    calls [ctx.arc] (line 317): where that call throws, the dot at hand is
    already moved, the dots after it are not touched, and the loop ends
    with the exception. *)
Fixpoint forEachDot (p : ImageCanvasProps) (time : Q) (r : Refs)
    (ds : list DotData.t) : option (list DotData.t * list CanvasOp) :=
  match ds with
  | [] => Some ([], [])
  | dot :: rest =>
      match animateDot p time r dot with
      | None => None
      | Some f =>
          if drawDot_throws (drawDot p f)
          then Some (frame_dot f :: rest, [IndexSizeError])
          else
            match forEachDot p time r rest with
            | None => None
            | Some (moved, ops) => Some (frame_dot f :: moved, drawDot p f :: ops)
            end
      end
  end.

(** One call of [animate]: the refs, the scene with the dots moved, and
    what was done on the context.  A call that ends in [IndexSizeError]
    does not reach [requestAnimationFrame(animate)] (line 322): no frame
    follows it. *)
Definition animate (p : ImageCanvasProps) (r : Refs) (sc : Scene) (w : World)
    : option (Refs * Scene * World * list CanvasOp) :=
  let '(r, _, time, w) := animateTrail r w in
  match forEachDot p time r (dots sc) with
  | None => None
  | Some (moved, ops) =>
      Some (r,
            mkScene moved (dotsRef sc)
              (displayWidth sc) (displayHeight sc) (lastWidth sc) (lastHeight sc)
              (canvas_width sc) (canvas_height sc),
            w,
            FillRect "#332D23" (displayWidth sc) (displayHeight sc) :: ops)
  end.

(** The frame ran to its end: every circle was drawn and the next frame
    was requested. *)
Definition frameCompleted (ops : list CanvasOp) : Prop :=
  ~ In IndexSizeError ops.

(** The radius [animate] passes to [ctx.arc] for the dot; it is the same
    in every frame, as no frame changes [baseSize] or [sizeMultiplier]. *)
Definition dotRadius (dot : DotData.t) : Q :=
  DotData.baseSize dot * DotData.sizeMultiplier dot / 2.

(** *** Interleavings of events and frames, on the refs *)

(** The trail the force accumulation of a frame reads, were a frame to
    run in this state, and that frame's reading of the clock. *)
Definition frameTrail (r : Refs) (w : World) : list TrailPoint.t :=
  let '(r', _, _, _) := animateTrail r w in mouseTrailRef r'.

Definition frameNow (w : World) : Z := Date_now_value (nowCalls w).

(** What an event does to the refs and the clock.  [animate] touches the
    refs only through [animateTrail]; a resize does not touch them. *)
Definition stepRefs (ev : Event) (s : Refs * World) : Refs * World :=
  let '(r, w) := s in
  match ev with
  | MouseMove canvasRect e => handleMouseMove canvasRect e r w
  | MouseEnter => handleMouseEnter r w
  | MouseLeave => (handleMouseLeave r, w)
  | FrameTick => let '(r', _, _, w') := animateTrail r w in (r', w')
  | Resize _ _ => (r, w)
  end.

Definition runRefs (evs : list Event) (s : Refs * World) : Refs * World :=
  fold_left (fun s ev => stepRefs ev s) evs s.

(** The points the loop of [handleMouseMove] pushes when its first clock
    reading is the [firstRead]-th of the run. *)
Definition interpolatedPoints (steps : Z) (prevX prevY velX velY speed : Q)
    (firstRead : nat) : list TrailPoint.t :=
  map (fun k =>
         let t := inject_Z (Z.of_nat k) / inject_Z steps in
         TrailPoint.mk (prevX + velX * t) (prevY + velY * t)
           (Date_now_value (firstRead + k)) (Math_min (speed / 10) 1))
      (seq 0 (Z.to_nat steps)).

(** What the handlers keep true of the trail: it is empty before the
    first move, and each of its points was less than 150ms old when the
    clock was last stored in [lastMoveTimeRef]. *)
Definition trailInvariant (r : Refs) : Prop :=
  (isFirstMoveRef r = true -> mouseTrailRef r = [])
  /\ Forall (fun point =>
               (lastMoveTimeRef r - TrailPoint.timestamp point < 150)%Z)
            (mouseTrailRef r).

(** Interleavings without [mouseenter] events. *)
Definition noMouseEnter (evs : list Event) : bool :=
  forallb (fun ev => negb (is_MouseEnter ev)) evs.

(** A pointer move that reaches the handler body: the canvas is set. *)
Definition effectiveMove (ev : Event) : bool :=
  match ev with MouseMove (Some _) _ => true | _ => false end.

Definition noEffectiveMove (evs : list Event) : bool :=
  forallb (fun ev => negb (effectiveMove ev)) evs.

(** The trail runs from its oldest point to its newest. *)
Definition oldestFirst (trail : list TrailPoint.t) : Prop :=
  StronglySorted
    (fun a b => (TrailPoint.timestamp a <= TrailPoint.timestamp b)%Z) trail.

(** The trail point is out of the dot's reach: beyond 1.5 times the mouse
    radius, or at or beyond the noise-perturbed radius. *)
Definition pointOutOfReach (p : ImageCanvasProps) (time : Q) (dot : DotData.t)
    (trailPoint : TrailPoint.t) : Prop :=
  let distance :=
    distanceTo dot (TrailPoint.x trailPoint) (TrailPoint.y trailPoint) in
  mouseRadius p * (15#10) < distance \/ irregularRadius p time dot <= distance.

(** The live pointer is out of the dot's reach: its x coordinate is not
    positive, or it is at or beyond the noise-perturbed radius. *)
Definition pointerOutOfReach (p : ImageCanvasProps) (time : Q) (r : Refs)
    (dot : DotData.t) : Prop :=
  Mouse.x (mouseRef r) <= 0
  \/ irregularRadius p time dot
     <= distanceTo dot (Mouse.x (mouseRef r)) (Mouse.y (mouseRef r)).

(** The fields of a dot that are set at generation. *)
Definition sameParticle (a b : DotData.t) : Prop :=
  DotData.baseX b = DotData.baseX a /\ DotData.baseY b = DotData.baseY a
  /\ DotData.baseSize b = DotData.baseSize a
  /\ DotData.brightness b = DotData.brightness a
  /\ DotData.isAccent b = DotData.isAccent a
  /\ DotData.sizeMultiplier b = DotData.sizeMultiplier a
  /\ DotData.twinkleSpeed b = DotData.twinkleSpeed a.

(** What a call of [animate] leaves for the eye and for the next frame:
    the refs, the animated dots and what was drawn. *)
Definition frameOutput (result : Refs * Scene * World * list CanvasOp)
    : Refs * list DotData.t * list CanvasOp :=
  let '(r, sc, _, ops) := result in (r, dots sc, ops).

(** ** Properties *)

(** *** Comparisons *)

Lemma Qltb_lt (a b : Q) : Qltb a b = true <-> a < b.
Proof.
  unfold Qltb. rewrite negb_true_iff, <- not_true_iff_false, Qle_bool_iff.
  split; [apply Qnot_le_lt | apply Qlt_not_le].
Qed.

Lemma Qltb_ge (a b : Q) : Qltb a b = false <-> b <= a.
Proof.
  unfold Qltb. rewrite negb_false_iff. apply Qle_bool_iff.
Qed.

Lemma Qgtb_gt (a b : Q) : Qgtb a b = true <-> b < a.
Proof. apply Qltb_lt. Qed.

Lemma Qgtb_le (a b : Q) : Qgtb a b = false <-> a <= b.
Proof. apply Qltb_ge. Qed.

Lemma Math_max_cases (a b : Q) :
  (b <= a /\ Math_max a b == a) \/ (a <= b /\ Math_max a b == b).
Proof.
  unfold Math_max.
  destruct (Q.max_spec a b) as [[H E] | [H E]].
  - right. split; [apply Qlt_le_weak, H | exact E].
  - left. split; [exact H | exact E].
Qed.

Lemma Math_min_cases (a b : Q) :
  (a <= b /\ Math_min a b == a) \/ (b <= a /\ Math_min a b == b).
Proof.
  unfold Math_min.
  destruct (Q.min_spec a b) as [[H E] | [H E]].
  - left. split; [apply Qlt_le_weak, H | exact E].
  - right. split; [exact H | exact E].
Qed.

(** *** The contrast transform *)

Lemma contrastValue_range (c p : Q) : 0 <= contrastValue c p <= 255.
Proof.
  unfold contrastValue.
  set (v := ((p / 255 - (1#2)) * c + (1#2)) * 255).
  destruct (Math_min_cases 255 v) as [[H1 E1] | [H1 E1]];
    destruct (Math_max_cases 0 (Math_min 255 v)) as [[H2 E2] | [H2 E2]];
    rewrite E2; try rewrite E1; try rewrite E1 in H2; split; lra.
Qed.

Lemma contrastValue_clamp (c p : Q) :
  contrastValue c p == clamp 0 255 (((p / 255 - (1#2)) * c + (1#2)) * 255).
Proof.
  unfold contrastValue, clamp.
  set (v := ((p / 255 - (1#2)) * c + (1#2)) * 255).
  destruct (Qltb v 0) eqn:Hlo.
  - apply Qltb_lt in Hlo.
    destruct (Math_min_cases 255 v) as [[H1 E1] | [H1 E1]];
      destruct (Math_max_cases 0 (Math_min 255 v)) as [[H2 E2] | [H2 E2]];
      rewrite E2; try rewrite E1; try rewrite E1 in H2; lra.
  - apply Qltb_ge in Hlo.
    destruct (Qltb 255 v) eqn:Hhi;
      [apply Qltb_lt in Hhi | apply Qltb_ge in Hhi];
      destruct (Math_min_cases 255 v) as [[H1 E1] | [H1 E1]];
      destruct (Math_max_cases 0 (Math_min 255 v)) as [[H2 E2] | [H2 E2]];
      rewrite E2; try rewrite E1; try rewrite E1 in H2; lra.
Qed.

Lemma toUint8Clamp_range (v : Q) : (0 <= toUint8Clamp v <= 255)%Z.
Proof.
  unfold toUint8Clamp.
  destruct (Qle_bool v 0) eqn:H0; [lia |].
  destruct (Qle_bool 255 v) eqn:H255; [lia |].
  assert (Hpos : 0 < v).
  { apply Qnot_le_lt. intro H. apply Qle_bool_iff in H. congruence. }
  assert (Hlt : v < 255).
  { apply Qnot_le_lt. intro H. apply Qle_bool_iff in H. congruence. }
  assert (Hf0 : (0 <= Qfloor v)%Z).
  { change 0%Z with (Qfloor 0). apply Qfloor_resp_le, Qlt_le_weak, Hpos. }
  assert (Hf1 : (Qfloor v < 255)%Z).
  { rewrite Zlt_Qlt. eapply Qle_lt_trans; [apply Qfloor_le | exact Hlt]. }
  repeat match goal with |- context [if ?b then _ else _] => destruct b end; lia.
Qed.

(** The byte stored is a nearest integer to the value assigned. *)
Lemma toUint8Clamp_nearest (v : Q) :
  0 <= v <= 255 -> Qabs (inject_Z (toUint8Clamp v) - v) <= (1#2).
Proof.
  intros [H0 H255]. apply Qabs_Qle_condition. unfold toUint8Clamp.
  destruct (Qle_bool v 0) eqn:E0.
  { apply Qle_bool_iff in E0. change (inject_Z 0) with 0. split; lra. }
  destruct (Qle_bool 255 v) eqn:E255.
  { apply Qle_bool_iff in E255. change (inject_Z 255) with 255. split; lra. }
  pose proof (Qfloor_le v) as Hf.
  pose proof (Qlt_floor v) as Hc.
  rewrite inject_Z_plus in Hc. change (inject_Z 1) with 1 in Hc.
  destruct (Qltb (inject_Z (Qfloor v) + (1#2)) v) eqn:Eup.
  { apply Qltb_lt in Eup. rewrite inject_Z_plus. change (inject_Z 1) with 1.
    split; lra. }
  apply Qltb_ge in Eup.
  destruct (Qltb v (inject_Z (Qfloor v) + (1#2))) eqn:Edown.
  { apply Qltb_lt in Edown. split; lra. }
  apply Qltb_ge in Edown.
  destruct (Z.even (Qfloor v)).
  - split; lra.
  - rewrite inject_Z_plus. change (inject_Z 1) with 1. split; lra.
Qed.

Lemma list_ind4 {A} (P : list A -> Prop) :
  P [] -> (forall a, P [a]) -> (forall a b, P [a; b]) ->
  (forall a b c, P [a; b; c]) ->
  (forall a b c d rest, P rest -> P (a :: b :: c :: d :: rest)) ->
  forall l, P l.
Proof.
  intros H0 H1 H2 H3 H4. fix IH 1.
  intros [| a [| b [| c [| d rest]]]];
    [exact H0 | apply H1 | apply H2 | apply H3 | apply H4, IH].
Qed.

(** The contrast loop keeps the length of the buffer and leaves bytes. *)
Lemma applyContrast_length (c : Q) (data : list Z) :
  List.length (applyContrast c data) = List.length data.
Proof.
  induction data as [| | | | r g b a rest IH] using list_ind4;
    try reflexivity.
  cbn [applyContrast List.length]. rewrite IH. reflexivity.
Qed.

Lemma applyContrast_bytes (c : Q) (data : list Z) :
  Forall (fun b => (0 <= b <= 255)%Z) data ->
  Forall (fun b => (0 <= b <= 255)%Z) (applyContrast c data).
Proof.
  induction data as [| | | | r g b a rest IH] using list_ind4; intros H.
  - constructor.
  - repeat constructor; apply toUint8Clamp_range.
  - repeat constructor; apply toUint8Clamp_range.
  - repeat constructor; apply toUint8Clamp_range.
  - cbn [applyContrast].
    inversion H as [| ? ? _ H1]; subst.
    inversion H1 as [| ? ? _ H2]; subst.
    inversion H2 as [| ? ? _ H3]; subst.
    inversion H3 as [| ? ? Ha H4]; subst.
    repeat (constructor; [apply toUint8Clamp_range |]).
    constructor; [exact Ha | apply IH, H4].
Qed.

(** C4.  For every contrast [c > 0] and channel value [p] in [0,255] the
    value the contrast loop computes is
    [clamp(0, 255, ((p/255 - 0.5) * c + 0.5) * 255)]: it lies in [0,255],
    it is 0 when the formula is negative and 255 when the formula exceeds
    255 (clamped, not wrapped); the byte the buffer then holds is a nearest
    integer to it, in [0,255] as well. *)
Theorem contrast_is_clamped (c p : Q) :
  0 < c -> 0 <= p <= 255 ->
  let v := ((p / 255 - (1#2)) * c + (1#2)) * 255 in
  contrastValue c p == clamp 0 255 v
  /\ 0 <= contrastValue c p <= 255
  /\ (v < 0 -> contrastValue c p == 0)
  /\ (255 < v -> contrastValue c p == 255)
  /\ (0 <= v <= 255 -> contrastValue c p == v)
  /\ (0 <= toUint8Clamp (contrastValue c p) <= 255)%Z
  /\ Qabs (inject_Z (toUint8Clamp (contrastValue c p)) - contrastValue c p)
     <= (1#2).
Proof.
  intros _ _ v.
  pose proof (contrastValue_clamp c p) as E. fold v in E.
  split; [exact E |].
  split; [apply contrastValue_range |].
  repeat split; try apply toUint8Clamp_range;
    try (apply toUint8Clamp_nearest, contrastValue_range).
  - intros H. rewrite E. unfold clamp.
    apply Qltb_lt in H. rewrite H. reflexivity.
  - intros H. rewrite E. unfold clamp.
    destruct (Qltb v 0) eqn:Hlo; [apply Qltb_lt in Hlo; lra |].
    apply Qltb_lt in H. rewrite H. reflexivity.
  - intros [Hl Hh]. rewrite E. unfold clamp.
    apply Qltb_ge in Hl. rewrite Hl.
    apply Qltb_ge in Hh. rewrite Hh. reflexivity.
Qed.

(** *** The loops over the grid run to completion *)

Lemma for_range_fuel_enough (limit step : Q) :
  0 < step ->
  forall (fuel extra : nat) (start : Q),
    limit - start <= inject_Z (Z.of_nat fuel) * step ->
    for_range (fuel + extra) start limit step = for_range fuel start limit step.
Proof.
  intros Hstep fuel. induction fuel as [| fuel IH]; intros extra start Hfuel.
  - assert (Hge : limit <= start).
    { change (inject_Z (Z.of_nat 0)) with 0 in Hfuel. lra. }
    apply Qltb_ge in Hge.
    destruct extra; simpl; [reflexivity | rewrite Hge; reflexivity].
  - simpl. destruct (Qltb start limit); [| reflexivity].
    f_equal. apply IH.
    rewrite Nat2Z.inj_succ in Hfuel. unfold Z.succ in Hfuel.
    rewrite inject_Z_plus in Hfuel.
    change (inject_Z 1) with 1 in Hfuel. lra.
Qed.

Lemma range_fuel_covers (limit step : Q) :
  0 < step -> limit - 0 <= inject_Z (Z.of_nat (range_fuel limit step)) * step.
Proof.
  intros Hstep. unfold range_fuel, Math_ceil.
  assert (Hc : limit / step <= inject_Z (Qceiling (limit / step)))
    by apply Qle_ceiling.
  assert (Hn : inject_Z (Qceiling (limit / step))
               <= inject_Z (Z.of_nat (Z.to_nat (Qceiling (limit / step))))).
  { rewrite <- Zle_Qle. lia. }
  assert (Hq : limit / step
               <= inject_Z (Z.of_nat (Z.to_nat (Qceiling (limit / step)))))
    by (eapply Qle_trans; eassumption).
  apply (Qmult_le_r _ _ step Hstep) in Hq.
  assert (E : limit / step * step == limit) by (field; lra).
  rewrite E in Hq. lra.
Qed.

(** More fuel changes nothing: the loop has left when [grid_range] stops. *)
Lemma grid_range_total (limit step : Q) (extra : nat) :
  0 < step ->
  for_range (range_fuel limit step + extra) 0 limit step = grid_range limit step.
Proof.
  intros Hstep. apply for_range_fuel_enough; [exact Hstep |].
  apply range_fuel_covers, Hstep.
Qed.

Lemma adjustedHalftoneSize_ge_2 (p : ImageCanvasProps) (width height : Q) :
  2 <= adjustedHalftoneSize p width height.
Proof.
  unfold adjustedHalftoneSize.
  destruct (Math_max_cases 2 (halftoneSize p * fillScale p width height))
    as [[H E] | [H E]]; rewrite E; lra.
Qed.

(** The body of a loop only runs below the limit. *)
Lemma for_range_below (limit step : Q) :
  forall fuel start, Forall (fun v => v < limit) (for_range fuel start limit step).
Proof.
  induction fuel as [| fuel IH]; intros start; cbn [for_range]; [constructor |].
  destruct (Qltb start limit) eqn:E; [| constructor].
  constructor; [apply Qltb_lt, E | apply IH].
Qed.

(** Both loops of a generation pass leave by their condition: the cell size
    is at least 2, so the fuel of [grid_range] is never what stops them. *)
Lemma generation_loops_complete (p : ImageCanvasProps) (width height : Q)
    (extra : nat) :
  let cell := adjustedHalftoneSize p width height in
  for_range (range_fuel width cell + extra) 0 width cell = grid_range width cell
  /\ for_range (range_fuel height cell + extra) 0 height cell
     = grid_range height cell.
Proof.
  intros cell.
  assert (Hcell : 0 < cell).
  { pose proof (adjustedHalftoneSize_ge_2 p width height). unfold cell. lra. }
  split; apply grid_range_total, Hcell.
Qed.

(** *** Which cells get a dot *)

Lemma makeDot_some site p cell b x y w :
  Qgtb (dotSize cell b) (1#2) = true ->
  exists d w',
    makeDot site p cell b x y w = (Some d, w')
    /\ DotData.baseX d = x + cell / 2 /\ DotData.baseY d = y + cell / 2
    /\ DotData.x d = DotData.baseX d /\ DotData.y d = DotData.baseY d
    /\ DotData.vx d = 0 /\ DotData.vy d = 0
    /\ DotData.brightness d = b /\ DotData.baseSize d = dotSize cell b.
Proof.
  intros H. unfold makeDot. rewrite H. unfold Math_random. simpl.
  destruct site; simpl; eexists; eexists; (split; [reflexivity |]);
    simpl; repeat split; reflexivity.
Qed.

Lemma makeDot_none site p cell b x y w :
  Qgtb (dotSize cell b) (1#2) = false ->
  makeDot site p cell b x y w = (None, w).
Proof. intros H. unfold makeDot. rewrite H. reflexivity. Qed.

(** What [cellDot] pushes, in terms of [hasDot]. *)
Lemma cellDot_cases site p data cw cell x y w :
  (hasDot data cw cell (x, y) = false
   /\ cellDot site p data cw cell x y w = (None, w))
  \/ (hasDot data cw cell (x, y) = true
      /\ exists d w' b,
           cellDot site p data cw cell x y w = (Some d, w')
           /\ brightnessAt data (sampleIndex dpr cw x y) = Some b
           /\ DotData.baseX d = x + cell / 2 /\ DotData.baseY d = y + cell / 2
           /\ DotData.x d = DotData.baseX d /\ DotData.y d = DotData.baseY d
           /\ DotData.vx d = 0 /\ DotData.vy d = 0
           /\ DotData.brightness d = b /\ DotData.baseSize d = dotSize cell b).
Proof.
  unfold hasDot, cellDiameter, cellDot. simpl.
  destruct (brightnessAt data (sampleIndex dpr cw x y)) as [b |]; simpl.
  - destruct (Qgtb (dotSize cell b) (1#2)) eqn:H.
    + right. split; [reflexivity |].
      destruct (makeDot_some site p cell b x y w H) as (d & w' & E & R).
      exists d, w', b. split; [exact E |]. split; [reflexivity | exact R].
    + left. split; [reflexivity | apply makeDot_none, H].
  - left. split; reflexivity.
Qed.

Lemma rowDots_cells site p data cw cell y :
  forall xs acc w,
  exists news w',
    rowDots site p data cw cell y xs acc w = (acc ++ news, w')
    /\ Forall2 (dotOfCell data cw cell)
         (filter (hasDot data cw cell) (map (fun x => (x, y)) xs)) news.
Proof.
  induction xs as [| x xs IH]; intros acc w.
  - exists [], w. simpl. rewrite app_nil_r. split; [reflexivity | constructor].
  - cbn [rowDots map filter].
    destruct (cellDot_cases site p data cw cell x y w)
      as [[Hno E] | [Hyes (d & w1 & b & E & Hb & HX & HY & Hx & Hy & Hvx & Hvy & Hbr & Hsz)]];
      rewrite E.
    + rewrite Hno. cbn [push]. apply IH.
    + rewrite Hyes. cbn [push].
      destruct (IH (acc ++ [d]) w1) as (news & w' & E' & F).
      exists (d :: news), w'. split.
      * rewrite E', <- app_assoc. reflexivity.
      * constructor; [| exact F].
        unfold dotOfCell, restPosition, cellCenter. cbn [fst snd].
        rewrite HX, HY, Hbr.
        repeat split; try assumption; congruence.
Qed.

Lemma gridDots_cells site p data cw cell xs :
  forall ys acc w,
  exists news w',
    gridDots site p data cw cell xs ys acc w = (acc ++ news, w')
    /\ Forall2 (dotOfCell data cw cell)
         (filter (hasDot data cw cell)
            (flat_map (fun y => map (fun x => (x, y)) xs) ys)) news.
Proof.
  induction ys as [| y ys IH]; intros acc w.
  - exists [], w. simpl. rewrite app_nil_r. split; [reflexivity | constructor].
  - cbn [gridDots flat_map].
    destruct (rowDots_cells site p data cw cell y xs acc w)
      as (row & w1 & E & F). rewrite E.
    destruct (IH (acc ++ row) w1) as (news & w' & E' & F').
    exists (row ++ news), w'. split.
    + rewrite E', <- app_assoc. reflexivity.
    + rewrite filter_app. apply Forall2_app; assumption.
Qed.

(** The dots of a generation pass are, in order, the dots of the grid
    cells that pass the size test. *)
Lemma generateDots_cells site p data width height w :
  let cell := adjustedHalftoneSize p width height in
  let cw := canvas_dimension dpr width in
  Forall2 (dotOfCell data cw cell)
    (filter (hasDot data cw cell) (gridCells width height cell))
    (fst (generateDots site p data width height w)).
Proof.
  intros cell cw. unfold generateDots. fold cell. fold cw.
  destruct (gridDots_cells site p data cw cell (grid_range width cell)
              (grid_range height cell) [] w) as (news & w' & E & F).
  rewrite E. exact F.
Qed.

Lemma Forall2_Forall_r {A B} (R : A -> B -> Prop) (P : B -> Prop) l l' :
  Forall2 R l l' ->
  (forall a b, In a l -> R a b -> P b) ->
  Forall P l'.
Proof.
  induction 1 as [| a b l l' HR _ IH]; intros HP; constructor.
  - apply (HP a b); [now left | exact HR].
  - apply IH. intros a' b' Hin. apply HP. now right.
Qed.

Lemma Forall2_map_eq {A B C} (R : A -> B -> Prop) (f : A -> C) (g : B -> C) l l' :
  Forall2 R l l' ->
  (forall a b, R a b -> g b = f a) ->
  map g l' = map f l.
Proof.
  induction 1 as [| a b l l' HR _ IH]; intros Hfg; simpl.
  - reflexivity.
  - rewrite (Hfg a b HR), IH by exact Hfg. reflexivity.
Qed.

(** C7.  A grid cell gets a particle exactly when its diameter
    [(brightness/255) * cellSize * 0.9] is strictly above 0.5: a diameter
    of exactly 0.5 gives none; and the particles of a generation pass
    are, in order, those of the cells of the grid that pass this test. *)
Theorem particle_iff_diameter_above_half
    (site : Site) (p : ImageCanvasProps) (data : list Z)
    (width height : Q) (w : World) :
  let cell := adjustedHalftoneSize p width height in
  let cw := canvas_dimension dpr width in
  (forall x y w',
      (exists d, fst (cellDot site p data cw cell x y w') = Some d)
      <-> (exists b, brightnessAt data (sampleIndex dpr cw x y) = Some b
                     /\ (1#2) < (b / 255) * cell * (9#10)))
  /\ (forall x y w' b,
        brightnessAt data (sampleIndex dpr cw x y) = Some b ->
        (b / 255) * cell * (9#10) == (1#2) ->
        fst (cellDot site p data cw cell x y w') = None)
  /\ (forall c, hasDot data cw cell c = true
                <-> exists b, brightnessAt data (sampleIndex dpr cw (fst c) (snd c)) = Some b
                              /\ (1#2) < (b / 255) * cell * (9#10))
  /\ map restPosition (fst (generateDots site p data width height w))
     = map (cellCenter cell)
         (filter (hasDot data cw cell) (gridCells width height cell)).
Proof.
  intros cell cw.
  assert (Hhas : forall c, hasDot data cw cell c = true
                <-> exists b, brightnessAt data (sampleIndex dpr cw (fst c) (snd c)) = Some b
                              /\ (1#2) < (b / 255) * cell * (9#10)).
  { intros c. unfold hasDot, cellDiameter.
    destruct (brightnessAt data (sampleIndex dpr cw (fst c) (snd c))) as [b |]; simpl.
    - rewrite Qgtb_gt. unfold dotSize. split.
      + intros H. exists b. split; [reflexivity | exact H].
      + intros (b' & E & H). injection E as <-. exact H.
    - split; [discriminate | intros (b & E & _); discriminate]. }
  split; [| split; [| split]].
  - intros x y w'.
    rewrite <- (Hhas (x, y)).
    destruct (cellDot_cases site p data cw cell x y w')
      as [[Hno E] | [Hyes (d & w1 & b & E & _)]]; rewrite E; simpl.
    + rewrite Hno. split; [intros (d & H); discriminate | discriminate].
    + rewrite Hyes. split; [reflexivity | intros _; exists d; reflexivity].
  - intros x y w' b Hb Hhalf.
    destruct (cellDot_cases site p data cw cell x y w')
      as [[Hno E] | [Hyes _]]; [rewrite E; reflexivity |].
    apply Hhas in Hyes. destruct Hyes as (b' & Hb' & Hlt).
    cbn [fst snd] in Hb'. rewrite Hb in Hb'. injection Hb' as <-.
    rewrite Hhalf in Hlt. discriminate.
  - exact Hhas.
  - apply (Forall2_map_eq (dotOfCell data cw cell)).
    + apply generateDots_cells.
    + intros c d (H & _). exact H.
Qed.

(** C2, as the code has it.  Every particle of a generation pass belongs
    to a cell [(x, y)] of the grid: it rests at the cell centre
    [(x + cell/2, y + cell/2)], but its brightness is the mean of R, G, B
    read from the device-resolution buffer at the pixel
    [(floor(x * dpr), floor(y * dpr))] of the cell origin, and its
    diameter is computed from that brightness. *)
Theorem brightness_sampled_at_cell_origin
    (site : Site) (p : ImageCanvasProps) (data : list Z)
    (width height : Q) (w : World) :
  let cell := adjustedHalftoneSize p width height in
  let cw := canvas_dimension dpr width in
  Forall (fun d =>
            exists x y,
              In (x, y) (gridCells width height cell)
              /\ DotData.baseX d = x + cell / 2
              /\ DotData.baseY d = y + cell / 2
              /\ brightnessAt data
                   ((Math_floor (y * dpr) * cw + Math_floor (x * dpr)) * 4)%Z
                 = Some (DotData.brightness d)
              /\ DotData.baseSize d = (DotData.brightness d / 255) * cell * (9#10))
         (fst (generateDots site p data width height w)).
Proof.
  intros cell cw.
  apply (Forall2_Forall_r (dotOfCell data cw cell) _ _ _
           (generateDots_cells site p data width height w)).
  intros [x y] d Hin (Hrest & _ & _ & _ & _ & Hb & Hsz).
  apply filter_In in Hin. destruct Hin as [Hin _].
  unfold restPosition, cellCenter in Hrest. cbn [fst snd] in *.
  injection Hrest as HX HY.
  exists x, y. repeat split; assumption.
Qed.




(** The array [animate] iterates is the one of the effect closure: a
    resize never replaces it. *)
Lemma resize_keeps_animated_dots p canvasMounted entries sc w :
  dots (fst (fst (resizeCallback p canvasMounted entries sc w))) = dots sc.
Proof.
  unfold resizeCallback.
  destruct canvasMounted; [| reflexivity].
  destruct entries as [| entry rest]; [reflexivity |].
  match goal with |- context [if ?b then _ else _] => destruct b end;
    [| reflexivity].
  destruct (getImageData_throws _ _); [reflexivity |].
  destruct (generateDots AtResize p _ _ _ w). reflexivity.
Qed.

(** A resize that passes the test of line 344 to a size that leaves the
    canvas without a pixel in one direction: the new size is recorded,
    then [getImageData] throws.  Nothing is regenerated, [dotsRef.current]
    keeps its array, no random number is drawn and nothing is painted. *)
Lemma resize_below_one_pixel_throws p (entry : ContentRect.t) rest sc w :
  let newWidth := ContentRect.width entry in
  let newHeight := ContentRect.height entry in
  0 < newWidth -> 0 < newHeight ->
  5 < Qabs (newWidth - lastWidth sc) \/ 5 < Qabs (newHeight - lastHeight sc) ->
  canvas_dimension dpr newWidth = 0%Z \/ canvas_dimension dpr newHeight = 0%Z ->
  resizeCallback p true (entry :: rest) sc w
  = (mkScene (dots sc) (dotsRef sc) (displayWidth sc) (displayHeight sc)
       newWidth newHeight
       (canvas_dimension dpr newWidth) (canvas_dimension dpr newHeight),
     w, [IndexSizeError]).
Proof.
  intros newWidth newHeight Hw Hh Hdiff Hzero.
  unfold resizeCallback. fold newWidth newHeight. unfold Math_abs.
  assert (Ew : Qgtb newWidth 0 = true) by (apply Qgtb_gt; exact Hw).
  assert (Eh : Qgtb newHeight 0 = true) by (apply Qgtb_gt; exact Hh).
  assert (Ed : Qgtb (Qabs (newWidth - lastWidth sc)) 5
               || Qgtb (Qabs (newHeight - lastHeight sc)) 5 = true).
  { apply orb_true_iff.
    destruct Hdiff as [H | H]; [left | right]; apply Qgtb_gt; exact H. }
  rewrite Ew, Eh, Ed. cbn [andb].
  assert (Et : getImageData_throws (canvas_dimension dpr newWidth)
                 (canvas_dimension dpr newHeight) = true).
  { unfold getImageData_throws. apply orb_true_iff.
    destruct Hzero as [H | H]; [left | right]; rewrite H; reflexivity. }
  rewrite Et. reflexivity.
Qed.

(** *** The frame: falloff, forces, opacity *)

Lemma checked_div_some (a b : Q) : ~ b == 0 -> checked_div a b = Some (a / b).
Proof.
  intros H. unfold checked_div.
  destruct (Qeq_bool b 0) eqn:E; [| reflexivity].
  apply Qeq_bool_iff in E. contradiction.
Qed.

Lemma checked_div_zero (a b : Q) : b == 0 -> checked_div a b = None.
Proof.
  intros H. unfold checked_div.
  apply Qeq_bool_iff in H. rewrite H. reflexivity.
Qed.

Lemma ratio_in_unit (d radius : Q) :
  0 <= d -> d < radius -> 0 <= d / radius < 1.
Proof.
  intros H0 Hlt.
  assert (Hr : 0 < radius) by lra.
  split.
  - apply Qle_shift_div_l; [exact Hr | lra].
  - apply Qlt_shift_div_r; [exact Hr | lra].
Qed.

Lemma smoothstep_range (d : Q) : 0 <= d <= 1 -> 0 <= smoothstep d <= 1.
Proof.
  intros [H0 H1]. unfold smoothstep. split.
  - apply Qmult_le_0_compat; [apply Qmult_le_0_compat; assumption | lra].
  - assert (E : 1 - d * d * (3 - 2 * d) == (1 - d) * (1 - d) * (1 + 2 * d)) by ring.
    assert (H : 0 <= (1 - d) * (1 - d) * (1 + 2 * d)).
    { apply Qmult_le_0_compat; [apply Qmult_le_0_compat |]; lra. }
    lra.
Qed.

Lemma smoothstep_positive (d : Q) : 0 < d -> d <= 1 -> 0 < smoothstep d.
Proof.
  intros H0 H1. unfold smoothstep.
  apply Qmult_lt_0_compat; [apply Qmult_lt_0_compat; assumption | lra].
Qed.

Lemma smoothstep_one (d : Q) : d == 1 -> smoothstep d == 1.
Proof. intros E. unfold smoothstep. rewrite E. reflexivity. Qed.

Lemma Math_max_range (a b lo hi : Q) :
  lo <= a <= hi -> lo <= b <= hi -> lo <= Math_max a b <= hi.
Proof.
  intros Ha Hb.
  destruct (Math_max_cases a b) as [[_ E] | [_ E]]; rewrite E; assumption.
Qed.

Lemma Math_max_ge_l (a b : Q) : a <= Math_max a b.
Proof.
  destruct (Math_max_cases a b) as [[H E] | [H E]]; rewrite E; lra.
Qed.

Lemma Math_max_ge_r (a b : Q) : b <= Math_max a b.
Proof.
  destruct (Math_max_cases a b) as [[H E] | [H E]]; rewrite E; lra.
Qed.

(** The falloff of a point at distance [d] inside the radius. *)
Lemma falloff_range (d radius : Q) :
  0 <= d -> d < radius ->
  0 < smoothstep (1 - d / radius) <= 1.
Proof.
  intros H0 Hlt.
  destruct (ratio_in_unit d radius H0 Hlt) as [Hq0 Hq1].
  split.
  - apply smoothstep_positive; lra.
  - apply smoothstep_range. lra.
Qed.

Section NonNegativeRoot.

Hypothesis Math_sqrt_nonneg : forall q, 0 <= Math_sqrt q.

(** A trail point never takes the accumulators out of the rationals,
    and keeps the maximum falloff in [0,1]. *)
Lemma trailPointStep_total p time dot acc trailPoint :
  0 <= maxDistanceFactor acc <= 1 ->
  exists acc',
    trailPointStep p time dot acc trailPoint = Some acc'
    /\ 0 <= maxDistanceFactor acc' <= 1.
Proof.
  intros Hacc. unfold trailPointStep.
  set (dx := TrailPoint.x trailPoint - DotData.x dot).
  set (dy := TrailPoint.y trailPoint - DotData.y dot).
  set (distance := Math_sqrt (dx * dx + dy * dy)).
  assert (H0 : 0 <= distance) by apply Math_sqrt_nonneg.
  destruct (Qgtb distance (mouseRadius p * (15#10)));
    [exists acc; split; [reflexivity | exact Hacc] |].
  destruct (Qltb distance (irregularRadius p time dot)) eqn:Hin;
    [| exists acc; split; [reflexivity | exact Hacc]].
  apply Qltb_lt in Hin.
  rewrite checked_div_some by lra.
  pose proof (falloff_range distance _ H0 Hin) as [Hf0 Hf1].
  assert (Hmax : 0 <= Math_max (maxDistanceFactor acc)
                        (smoothstep (1 - distance / irregularRadius p time dot)) <= 1).
  { apply Math_max_range; [exact Hacc | split; lra]. }
  destruct (Qgtb distance (1#10)) eqn:Hfar.
  - apply Qgtb_gt in Hfar.
    rewrite !checked_div_some by lra.
    eexists. split; [reflexivity | exact Hmax].
  - eexists. split; [reflexivity | exact Hmax].
Qed.

Lemma forEachTrailPoint_total p time dot trail :
  forall acc,
    0 <= maxDistanceFactor acc <= 1 ->
    exists acc',
      forEachTrailPoint p time dot trail acc = Some acc'
      /\ 0 <= maxDistanceFactor acc' <= 1.
Proof.
  induction trail as [| trailPoint rest IH]; intros acc Hacc.
  - exists acc. split; [reflexivity | exact Hacc].
  - cbn [forEachTrailPoint].
    destruct (trailPointStep_total p time dot acc trailPoint Hacc)
      as (acc1 & E & H1).
    rewrite E. apply IH, H1.
Qed.

Lemma accumulateForces_total p time r dot :
  exists acc,
    accumulateForces p time r dot = Some acc
    /\ 0 <= maxDistanceFactor acc <= 1.
Proof.
  unfold accumulateForces.
  assert (H0 : 0 <= maxDistanceFactor (mkAccum 0 0 0) <= 1)
    by (cbn; split; discriminate).
  destruct ((0 <? List.length (mouseTrailRef r))%nat && Qgtb fadeOutFactor (1#100)).
  - apply forEachTrailPoint_total, H0.
  - eexists. split; [reflexivity | exact H0].
Qed.

Lemma pointerProximity_total p time r dot (m : Q) :
  0 <= m <= 1 ->
  exists m' twinkling,
    pointerProximity p time r dot m = Some (m', twinkling)
    /\ 0 <= m' <= 1.
Proof.
  intros Hm. unfold pointerProximity.
  destruct (Qgtb (Mouse.x (mouseRef r)) 0);
    [| exists m, false; split; [reflexivity | exact Hm]].
  set (distance := distanceTo dot _ _).
  assert (H0 : 0 <= distance) by apply Math_sqrt_nonneg.
  destruct (Qltb distance (irregularRadius p time dot)) eqn:Hin;
    [| exists m, false; split; [reflexivity | exact Hm]].
  apply Qltb_lt in Hin.
  rewrite checked_div_some by lra.
  pose proof (falloff_range distance _ H0 Hin) as [Hf0 Hf1].
  eexists. eexists. split; [reflexivity |].
  apply Math_max_range; [exact Hm | split; lra].
Qed.

(** The callback of [dots.forEach] always yields rational values. *)
Lemma animateDot_total p time r dot :
  exists f,
    animateDot p time r dot = Some f
    /\ 0 <= frame_maxDistanceFactor f <= 1
    /\ opacity f = snd (twinkleOpacity dot (frame_maxDistanceFactor f)).
Proof.
  unfold animateDot.
  destruct (accumulateForces_total p time r dot) as (acc & Eacc & Hacc).
  rewrite Eacc.
  destruct (pointerProximity_total p time r dot _ Hacc)
    as (m & twinkling & Eptr & Hm).
  rewrite Eptr.
  destruct (twinkleOpacity dot m) as [phase alpha] eqn:Etw.
  eexists. split; [reflexivity |]. cbn. rewrite Etw. split; [exact Hm | reflexivity].
Qed.

Lemma forEachDot_total p time r ds :
  exists moved ops, forEachDot p time r ds = Some (moved, ops)
                    /\ List.length moved = List.length ds.
Proof.
  induction ds as [| dot rest (moved & ops & E & L)].
  - exists [], []. split; reflexivity.
  - cbn [forEachDot].
    destruct (animateDot_total p time r dot) as (f & Ef & _).
    rewrite Ef.
    destruct (drawDot_throws (drawDot p f)).
    + exists (frame_dot f :: rest), [IndexSizeError]. split; reflexivity.
    + rewrite E. exists (frame_dot f :: moved), (drawDot p f :: ops).
      split; [reflexivity |]. cbn. rewrite L. reflexivity.
Qed.

(** A call of [animate] always ends, with its last circle or with the
    exception of [ctx.arc]: every division of the callback is guarded. *)
Lemma animate_total p r sc w :
  exists result, animate p r sc w = Some result.
Proof.
  unfold animate.
  destruct (animateTrail r w) as [[[r' now] time] w'].
  destruct (forEachDot_total p time r' (dots sc)) as (moved & ops & E & _).
  rewrite E. eexists. reflexivity.
Qed.

(** C9, as the code has it.  In every frame and for every particle, if
    the live pointer has a positive x coordinate and lies within the
    particle's noise-perturbed radius, the particle is marked as
    twinkling and the pointer's falloff is folded into the maximum
    falloff left by the trail, whatever the trail holds (empty or
    not). *)
Theorem pointer_within_radius_twinkles
    (p : ImageCanvasProps) (time : Q) (r : Refs) (dot : DotData.t) :
  let distance :=
    distanceTo dot (Mouse.x (mouseRef r)) (Mouse.y (mouseRef r)) in
  let radius := irregularRadius p time dot in
  0 < Mouse.x (mouseRef r) ->
  distance < radius ->
  (forall m, pointerProximity p time r dot m
             = Some (Math_max m (smoothstep (1 - distance / radius)), true))
  /\ exists acc f,
       accumulateForces p time r dot = Some acc
       /\ animateDot p time r dot = Some f
       /\ isTwinkling f = true
       /\ frame_maxDistanceFactor f
          = Math_max (maxDistanceFactor acc) (smoothstep (1 - distance / radius))
       /\ 0 < frame_maxDistanceFactor f.
Proof.
  intros distance radius Hx Hin.
  assert (H0 : 0 <= distance) by apply Math_sqrt_nonneg.
  assert (Hptr : forall m, pointerProximity p time r dot m
             = Some (Math_max m (smoothstep (1 - distance / radius)), true)).
  { intros m. unfold pointerProximity.
    apply Qgtb_gt in Hx. rewrite Hx.
    fold distance radius.
    pose proof Hin as Hb. apply Qltb_lt in Hb. rewrite Hb.
    rewrite checked_div_some by lra. reflexivity. }
  split; [exact Hptr |].
  destruct (accumulateForces_total p time r dot) as (acc & Eacc & Hacc).
  unfold animateDot. rewrite Eacc, Hptr.
  destruct (twinkleOpacity dot _) as [phase alpha].
  eexists. eexists. split; [reflexivity |]. split; [reflexivity |].
  cbn. split; [reflexivity |]. split; [reflexivity |].
  pose proof (falloff_range distance radius H0 Hin) as [Hpos _].
  eapply Qlt_le_trans; [exact Hpos | apply Math_max_ge_r].
Qed.

Section BoundedSine.

Hypothesis Math_sin_bound : forall a, -1 <= Math_sin a <= 1.

Lemma twinkleOpacity_range dot (m : Q) :
  0 <= m <= 1 -> (3#10) <= snd (twinkleOpacity dot m) <= 1.
Proof.
  intros [Hm0 Hm1]. unfold twinkleOpacity, fadeOutFactor.
  destruct (Qgtb m 0); cbn [snd]; [| split; discriminate].
  set (s := Math_sin (DotData.twinklePhase dot + DotData.twinkleSpeed dot)).
  pose proof (Math_sin_bound (DotData.twinklePhase dot + DotData.twinkleSpeed dot))
    as [Hs0 Hs1]. fold s in Hs0, Hs1.
  set (a := (3#10) + (s * (5#10) + (5#10)) * (7#10)).
  assert (Ha : (3#10) <= a <= 1) by (unfold a; split; lra).
  assert (E : 1 - (1 - a * m * 1) * m * 1 == 1 - m + a * (m * m)) by ring.
  rewrite E.
  assert (Hmm : 0 <= m * m) by (apply Qmult_le_0_compat; assumption).
  assert (Hmm1 : m * m <= m).
  { assert (H : 0 <= m * (1 - m)) by (apply Qmult_le_0_compat; lra).
    assert (E' : m * (1 - m) == m - m * m) by ring. lra. }
  assert (Hlow : 0 <= (a - (3#10)) * (m * m))
    by (apply Qmult_le_0_compat; lra).
  assert (Hup : 0 <= (1 - a) * (m * m))
    by (apply Qmult_le_0_compat; lra).
  assert (Hq : 0 <= (1 - m) * ((7#10) - (3#10) * m))
    by (apply Qmult_le_0_compat; lra).
  assert (E1 : (a - (3#10)) * (m * m) == a * (m * m) - (3#10) * (m * m)) by ring.
  assert (E2 : (1 - a) * (m * m) == m * m - a * (m * m)) by ring.
  assert (E3 : (1 - m) * ((7#10) - (3#10) * m)
               == (7#10) - m + (3#10) * (m * m)) by ring.
  split; lra.
Qed.

(** C10.  For every particle in every frame the rendered opacity lies
    in [0.3, 1]: the frame callback always yields an opacity, and
    [1 - (1 - (0.3 + 0.7 * twinkle) * maxFalloff) * maxFalloff] does
    not drop below 0.3 for a twinkle in [0,1] and a maximum falloff in
    [0,1]. *)
Theorem opacity_between_03_and_1
    (p : ImageCanvasProps) (time : Q) (r : Refs) (dot : DotData.t) :
  exists f,
    animateDot p time r dot = Some f
    /\ (3#10) <= opacity f <= 1
    /\ drawDot p f
       = FillArc (if DotData.isAccent dot then accentColor p else "#ffffff")
           (opacity f) (DotData.x (frame_dot f)) (DotData.y (frame_dot f))
           (DotData.baseSize dot * DotData.sizeMultiplier dot / 2).
Proof.
  destruct (animateDot_total p time r dot) as (f & E & Hm & Hop).
  exists f. split; [exact E |]. split.
  - rewrite Hop. apply twinkleOpacity_range, Hm.
  - unfold animateDot in E.
    destruct (accumulateForces p time r dot) as [acc |]; [| discriminate].
    destruct (pointerProximity p time r dot (maxDistanceFactor acc))
      as [[m tw] |]; [| discriminate].
    destruct (twinkleOpacity dot m) as [phase alpha].
    injection E as <-. reflexivity.
Qed.

End BoundedSine.

End NonNegativeRoot.

(** C3, as the code has it.  In a frame whose trail is empty, a particle
    is drawn with opacity 1 when the live pointer is not in reach of it:
    the pointer's x coordinate is not positive, or the pointer is at or
    beyond the particle's noise-perturbed radius. *)
Theorem empty_trail_full_opacity
    (p : ImageCanvasProps) (time : Q) (r : Refs) (dot : DotData.t) :
  mouseTrailRef r = [] ->
  Mouse.x (mouseRef r) <= 0
  \/ irregularRadius p time dot
     <= distanceTo dot (Mouse.x (mouseRef r)) (Mouse.y (mouseRef r)) ->
  exists f,
    animateDot p time r dot = Some f
    /\ opacity f = 1
    /\ frame_maxDistanceFactor f = 0
    /\ isTwinkling f = false
    /\ DotData.twinklePhase (frame_dot f) = DotData.twinklePhase dot.
Proof.
  intros Htrail Hfar.
  unfold animateDot, accumulateForces. rewrite Htrail. cbn [List.length Nat.ltb Nat.leb andb].
  cbn [maxDistanceFactor].
  assert (Hptr : pointerProximity p time r dot 0 = Some (0, false)).
  { unfold pointerProximity.
    destruct (Qgtb (Mouse.x (mouseRef r)) 0) eqn:Hx; [| reflexivity].
    apply Qgtb_gt in Hx.
    destruct Hfar as [Hneg | Hfar]; [lra |].
    apply Qltb_ge in Hfar. rewrite Hfar. reflexivity. }
  rewrite Hptr.
  eexists. split; [reflexivity |]. cbn. repeat split; reflexivity.
Qed.

(** With an empty trail, a pointer strictly between the particle and its
    radius dims the particle, whatever the sine is. *)
Lemma pointer_alone_dims
    (p : ImageCanvasProps) (time : Q) (r : Refs) (dot : DotData.t) :
  (forall a, -1 <= Math_sin a <= 1) ->
  let distance :=
    distanceTo dot (Mouse.x (mouseRef r)) (Mouse.y (mouseRef r)) in
  mouseTrailRef r = [] ->
  0 < Mouse.x (mouseRef r) ->
  0 < distance -> distance < irregularRadius p time dot ->
  exists f, animateDot p time r dot = Some f /\ opacity f < 1.
Proof.
  intros Hsin distance Htrail Hx Hd Hin.
  unfold animateDot, accumulateForces. rewrite Htrail.
  cbn [List.length Nat.ltb Nat.leb andb maxDistanceFactor].
  unfold pointerProximity.
  pose proof Hx as Hxb. apply Qgtb_gt in Hxb. rewrite Hxb.
  fold distance.
  pose proof Hin as Hb. apply Qltb_lt in Hb. rewrite Hb.
  rewrite checked_div_some by lra.
  set (radius := irregularRadius p time dot) in *.
  assert (Hr : 0 < distance / radius < 1).
  { split.
    - apply Qlt_shift_div_l; lra.
    - apply Qlt_shift_div_r; lra. }
  set (m := Math_max 0 (smoothstep (1 - distance / radius))).
  assert (Hs : 0 < smoothstep (1 - distance / radius) < 1).
  { split; [apply smoothstep_positive; lra |].
    unfold smoothstep. set (d := 1 - distance / radius).
    assert (Hd01 : 0 < d < 1) by (unfold d; lra).
    assert (E : 1 - d * d * (3 - 2 * d) == (1 - d) * (1 - d) * (1 + 2 * d)) by ring.
    assert (H : 0 < (1 - d) * (1 - d) * (1 + 2 * d)).
    { apply Qmult_lt_0_compat; [apply Qmult_lt_0_compat |]; lra. }
    lra. }
  assert (Hm : 0 < m < 1).
  { unfold m.
    destruct (Math_max_cases 0 (smoothstep (1 - distance / radius)))
      as [[H E] | [H E]]; rewrite E; lra. }
  unfold twinkleOpacity.
  pose proof (proj1 Hm) as Hmb. apply Qgtb_gt in Hmb. fold m. rewrite Hmb.
  eexists. split; [reflexivity |]. cbn [opacity]. unfold fadeOutFactor.
  set (s := Math_sin _). pose proof (Hsin (DotData.twinklePhase dot + DotData.twinkleSpeed dot)) as [Hs0 Hs1].
  fold s in Hs0, Hs1.
  set (a := (3#10) + (s * (5#10) + (5#10)) * (7#10)).
  assert (Ha : a <= 1) by (unfold a; lra).
  assert (Ham : a * m < 1).
  { assert (H : 0 <= (1 - a) * m) by (apply Qmult_le_0_compat; lra).
    assert (E : (1 - a) * m == m - a * m) by ring. lra. }
  assert (Hprod : 0 < (1 - a * m) * m) by (apply Qmult_lt_0_compat; lra).
  assert (E : 1 - (1 - a * m * 1) * m * 1 == 1 - (1 - a * m) * m) by ring.
  rewrite E. lra.
Qed.


(** C8.  For a trail point at distance 0 from a particle, and at any
    distance up to the 0.1 threshold, the callback does not normalise the
    direction: it completes with both force accumulators untouched, though
    at distance 0 the two divisions by the distance would be divisions by
    zero.  At distance 0 from a point within the radius the falloff is 1,
    the largest value the smoothstep takes on [0,1], whatever the noise
    makes of the radius. *)
Theorem no_normalisation_at_small_distance
    (p : ImageCanvasProps) (time : Q) (dot : DotData.t) (acc : Accum)
    (trailPoint : TrailPoint.t) :
  let dx := TrailPoint.x trailPoint - DotData.x dot in
  let dy := TrailPoint.y trailPoint - DotData.y dot in
  let distance := Math_sqrt (dx * dx + dy * dy) in
  let radius := irregularRadius p time dot in
  0 <= distance -> distance <= (1#10) ->
  (exists acc',
      trailPointStep p time dot acc trailPoint = Some acc'
      /\ totalForceX acc' = totalForceX acc
      /\ totalForceY acc' = totalForceY acc)
  /\ (distance == 0 ->
      checked_div dx distance = None /\ checked_div dy distance = None)
  /\ (distance == 0 -> 0 <= mouseRadius p -> 0 < radius ->
      smoothstep (1 - distance / radius) == 1
      /\ exists acc',
           trailPointStep p time dot acc trailPoint = Some acc'
           /\ maxDistanceFactor acc' == Math_max (maxDistanceFactor acc) 1)
  /\ (forall d, 0 <= d <= 1 -> smoothstep d <= 1).
Proof.
  intros dx dy distance radius H0 Hnear.
  assert (Hfar : Qgtb distance (1#10) = false) by (apply Qgtb_le; exact Hnear).
  split; [| split; [| split]].
  - unfold trailPointStep. fold dx dy distance radius.
    destruct (Qgtb distance (mouseRadius p * (15#10)));
      [exists acc; repeat split |].
    destruct (Qltb distance radius) eqn:Hin; [| exists acc; repeat split].
    apply Qltb_lt in Hin.
    rewrite checked_div_some by lra. rewrite Hfar.
    eexists. split; [reflexivity |]. split; reflexivity.
  - intros Hz. split; apply checked_div_zero; exact Hz.
  - intros Hz Hradius Hpos.
    assert (Hs : smoothstep (1 - distance / radius) == 1).
    { apply smoothstep_one. rewrite Hz. field. lra. }
    split; [exact Hs |].
    unfold trailPointStep. fold dx dy distance radius.
    assert (Hout : Qgtb distance (mouseRadius p * (15#10)) = false)
      by (apply Qgtb_le; lra).
    assert (Hin : Qltb distance radius = true) by (apply Qltb_lt; lra).
    rewrite Hout, Hin, checked_div_some by lra. rewrite Hfar.
    eexists. split; [reflexivity |]. cbn [maxDistanceFactor].
    unfold Math_max. rewrite Hs. reflexivity.
  - intros d Hd. apply smoothstep_range, Hd.
Qed.

(** *** The pointer handlers and the trail *)

Lemma pushInterpolated_spec steps m velX velY speed :
  forall remaining i trail w,
    pushInterpolated remaining i steps m velX velY speed trail w
    = (trail ++
         map (fun k =>
                let t := inject_Z (i + Z.of_nat k) / inject_Z steps in
                TrailPoint.mk (Mouse.prevX m + velX * t) (Mouse.prevY m + velY * t)
                  (Date_now_value (nowCalls w + k)) (Math_min (speed / 10) 1))
             (seq 0 remaining),
       mkWorld (nowCalls w + remaining) (randomCalls w)).
Proof.
  induction remaining as [| remaining IH]; intros i trail w.
  - cbn. rewrite app_nil_r, Nat.add_0_r. destruct w; reflexivity.
  - cbn [pushInterpolated Date_now]. rewrite IH. cbn [nowCalls randomCalls].
    rewrite <- app_assoc. cbn [seq map app].
    rewrite <- seq_shift, map_map.
    f_equal; [| f_equal; lia].
    f_equal. f_equal.
    + rewrite Z.add_0_r, Nat.add_0_r. reflexivity.
    + apply map_ext. intros k.
      replace (i + 1 + Z.of_nat k)%Z with (i + Z.of_nat (S k))%Z by lia.
      replace (S (nowCalls w) + k)%nat with (nowCalls w + S k)%nat by lia.
      reflexivity.
Qed.

(** A move after the first, with the canvas in place. *)
Lemma handleMouseMove_later rect e r w :
  isFirstMoveRef r = false ->
  let newX := clientX e - DOMRect.left rect in
  let newY := clientY e - DOMRect.top rect in
  let velX := newX - Mouse.x (mouseRef r) in
  let velY := newY - Mouse.y (mouseRef r) in
  let speed := Math_sqrt (velX * velX + velY * velY) in
  let steps := trailSteps speed in
  let lastRead := (nowCalls w + 1 + Z.to_nat steps)%nat in
  handleMouseMove (Some rect) e r w
  = (mkRefs (Mouse.mk newX newY (Mouse.x (mouseRef r)) (Mouse.y (mouseRef r)))
       (isHovering r) false (Date_now_value (nowCalls w))
       (filter (isRecent (Date_now_value lastRead))
          (mouseTrailRef r ++
             interpolatedPoints steps (Mouse.x (mouseRef r)) (Mouse.y (mouseRef r))
               velX velY speed (nowCalls w + 1)))
       (fadeFactorRef r),
     mkWorld (S lastRead) (randomCalls w)).
Proof.
  intros Hfirst newX newY velX velY speed steps lastRead.
  unfold handleMouseMove. rewrite Hfirst.
  cbn [Date_now Mouse.prevX Mouse.prevY].
  fold newX newY. fold velX velY. fold speed. fold steps.
  rewrite pushInterpolated_spec. cbn [nowCalls randomCalls Mouse.prevX Mouse.prevY].
  unfold interpolatedPoints, lastRead.
  replace (S (nowCalls w)) with (nowCalls w + 1)%nat by lia.
  reflexivity.
Qed.

(** C5.  A pointer move after the first, with
    [speed = sqrt(velX^2 + velY^2)], appends exactly
    [max(1, ceil(speed/10))] points to the trail, the k-th at
    [prev + vel * k/steps], each with strength [min(speed/10, 1)]; the
    handler then drops from the trail what is 150ms old or older, which
    spares the new points when the handler itself ran for less than
    150ms. *)
Theorem move_appends_interpolated_points
    (rect : DOMRect.t) (e : MouseEvent) (r : Refs) (w : World) :
  isFirstMoveRef r = false ->
  let prevX := Mouse.x (mouseRef r) in
  let prevY := Mouse.y (mouseRef r) in
  let velX := clientX e - DOMRect.left rect - prevX in
  let velY := clientY e - DOMRect.top rect - prevY in
  let speed := Math_sqrt (velX * velX + velY * velY) in
  let steps := Z.max 1 (Math_ceil (speed / 10)) in
  let now := Date_now_value (nowCalls w + 1 + Z.to_nat steps) in
  let trail' := mouseTrailRef (fst (handleMouseMove (Some rect) e r w)) in
  exists appended,
    List.length appended = Z.to_nat steps
    /\ Forall (fun point => TrailPoint.strength point = Math_min (speed / 10) 1)
              appended
    /\ (forall k, (k < Z.to_nat steps)%nat ->
           nth_error appended k
           = Some (TrailPoint.mk
                     (prevX + velX * (inject_Z (Z.of_nat k) / inject_Z steps))
                     (prevY + velY * (inject_Z (Z.of_nat k) / inject_Z steps))
                     (Date_now_value (nowCalls w + 1 + k))
                     (Math_min (speed / 10) 1)))
    /\ trail' = filter (isRecent now) (mouseTrailRef r ++ appended)
    /\ ((forall k, (k < Z.to_nat steps)%nat ->
            (now - Date_now_value (nowCalls w + 1 + k) < 150)%Z) ->
        trail' = filter (isRecent now) (mouseTrailRef r) ++ appended).
Proof.
  intros Hfirst prevX prevY velX velY speed steps now trail'.
  pose proof (handleMouseMove_later rect e r w Hfirst) as E.
  cbv zeta in E. fold prevX prevY in E. fold velX velY in E. fold speed in E.
  change (trailSteps speed) with steps in E. fold now in E.
  unfold trail'. rewrite E. cbn [fst mouseTrailRef].
  set (appended := interpolatedPoints steps prevX prevY velX velY speed (nowCalls w + 1)).
  assert (Hnth : forall k, (k < Z.to_nat steps)%nat ->
           nth_error appended k
           = Some (TrailPoint.mk
                     (prevX + velX * (inject_Z (Z.of_nat k) / inject_Z steps))
                     (prevY + velY * (inject_Z (Z.of_nat k) / inject_Z steps))
                     (Date_now_value (nowCalls w + 1 + k))
                     (Math_min (speed / 10) 1))).
  { intros k Hk. unfold appended, interpolatedPoints.
    rewrite nth_error_map, nth_error_seq.
    destruct (Nat.ltb_spec k (Z.to_nat steps)); [| lia]. reflexivity. }
  exists appended. split; [| split; [| split; [| split]]].
  - unfold appended, interpolatedPoints. rewrite length_map, length_seq. reflexivity.
  - unfold appended, interpolatedPoints. apply Forall_map, Forall_forall.
    intros k _. reflexivity.
  - exact Hnth.
  - reflexivity.
  - intros Hquick. rewrite filter_app. f_equal.
    apply forallb_filter_id, forallb_forall.
    intros point Hin.
    apply In_nth_error in Hin. destruct Hin as [k Hk].
    assert (Hlt : (k < Z.to_nat steps)%nat).
    { assert (Hl : List.length appended = Z.to_nat steps)
        by (unfold appended, interpolatedPoints; rewrite length_map, length_seq; reflexivity).
      rewrite <- Hl. apply nth_error_Some. congruence. }
    rewrite (Hnth k Hlt) in Hk. injection Hk as <-.
    unfold isRecent. cbn [TrailPoint.timestamp].
    apply Z.ltb_lt, Hquick, Hlt.
Qed.

Lemma frameTrail_cases r w :
  ((frameNow w - lastMoveTimeRef r < 100)%Z /\ frameTrail r w = mouseTrailRef r)
  \/ ((100 <= frameNow w - lastMoveTimeRef r)%Z /\ frameTrail r w = []).
Proof.
  unfold frameTrail, animateTrail, frameNow. cbn [Date_now mouseTrailRef].
  destruct (Z.ltb_spec (Date_now_value (nowCalls w) - lastMoveTimeRef r) 100);
    [left | right]; split; try assumption; reflexivity.
Qed.

Lemma stepRefs_FrameTick r w :
  stepRefs FrameTick (r, w)
  = (mkRefs (mouseRef r) (isHovering r) (isFirstMoveRef r) (lastMoveTimeRef r)
       (frameTrail r w) 1,
     mkWorld (S (S (nowCalls w))) (randomCalls w)).
Proof. reflexivity. Qed.

(** [animate] leaves the refs as [stepRefs FrameTick] does. *)
Lemma animate_refs p r sc w r' sc' w' ops :
  animate p r sc w = Some (r', sc', w', ops) ->
  stepRefs FrameTick (r, w) = (r', w').
Proof.
  unfold animate, stepRefs.
  destruct (animateTrail r w) as [[[r1 now] time] w1].
  destruct (forEachDot p time r1 (dots sc)) as [[moved drawn] |];
    [| discriminate].
  intros E. injection E as <- _ <- _. reflexivity.
Qed.

Section MonotoneClock.

Hypothesis Date_now_monotone :
  forall i j, (i <= j)%nat -> (Date_now_value i <= Date_now_value j)%Z.

Lemma handleMouseMove_invariant canvasRect e r w :
  trailInvariant r -> trailInvariant (fst (handleMouseMove canvasRect e r w)).
Proof.
  intros [Hfirst Hage].
  destruct canvasRect as [rect |]; [| split; assumption].
  destruct (isFirstMoveRef r) eqn:First.
  - unfold handleMouseMove. rewrite First. cbn.
    split; [discriminate |]. rewrite (Hfirst eq_refl). constructor.
  - rewrite (handleMouseMove_later rect e r w First). cbn [fst].
    split; cbn [isFirstMoveRef mouseTrailRef lastMoveTimeRef]; [discriminate |].
    apply Forall_forall. intros point Hin.
    apply filter_In in Hin. destruct Hin as [_ Hrecent].
    unfold isRecent in Hrecent. apply Z.ltb_lt in Hrecent.
    match type of Hrecent with
    | (Date_now_value ?last - _ < _)%Z =>
        pose proof (Date_now_monotone (nowCalls w) last ltac:(lia))
    end.
    lia.
Qed.

Lemma stepRefs_invariant ev r w :
  is_MouseEnter ev = false ->
  trailInvariant r -> trailInvariant (fst (stepRefs ev (r, w))).
Proof.
  intros Hev Hinv. destruct ev; try discriminate; cbn [stepRefs].
  - apply handleMouseMove_invariant, Hinv.
  - destruct Hinv as [Hfirst Hage]. split; assumption.
  - change (let '(r', _, _, w') := animateTrail r w in (r', w'))
      with (stepRefs FrameTick (r, w)).
    rewrite stepRefs_FrameTick. cbn [fst].
    destruct Hinv as [Hfirst Hage].
    destruct (frameTrail_cases r w) as [[_ E] | [_ E]]; rewrite E;
      split; cbn [isFirstMoveRef mouseTrailRef lastMoveTimeRef];
      try assumption; try reflexivity; constructor.
  - exact Hinv.
Qed.

Lemma runRefs_invariant evs :
  forall r w,
    noMouseEnter evs = true ->
    trailInvariant r -> trailInvariant (fst (runRefs evs (r, w))).
Proof.
  induction evs as [| ev evs IH]; intros r w Hevs Hinv; [exact Hinv |].
  cbn [noMouseEnter forallb] in Hevs. apply andb_true_iff in Hevs.
  destruct Hevs as [Hev Hevs]. apply negb_true_iff in Hev.
  cbn [runRefs fold_left].
  pose proof (stepRefs_invariant ev r w Hev Hinv) as Hstep.
  destruct (stepRefs ev (r, w)) as [r1 w1].
  apply IH; assumption.
Qed.

(** C1, as the code has it.  Over any interleaving of pointer moves and
    frame ticks (and of leaves and resizes), with a clock that does not
    run backwards: every trail point the force accumulation of a frame
    reads was less than 150ms old when the last move stored its time,
    that move is less than 100ms before the frame, and so the point is
    less than 250ms old at the frame's reading of the clock. *)
Theorem trail_read_by_frame_is_recent (evs : list Event) (w0 : World) :
  noMouseEnter evs = true ->
  let r := fst (runRefs evs (initialRefs, w0)) in
  let w := snd (runRefs evs (initialRefs, w0)) in
  Forall (fun point =>
            (lastMoveTimeRef r - TrailPoint.timestamp point < 150)%Z
            /\ (frameNow w - lastMoveTimeRef r < 100)%Z
            /\ (frameNow w - TrailPoint.timestamp point < 250)%Z)
         (frameTrail r w).
Proof.
  intros Hevs r w.
  assert (Hinv : trailInvariant r).
  { apply runRefs_invariant; [exact Hevs |].
    split; [reflexivity | constructor]. }
  destruct Hinv as [_ Hage].
  destruct (frameTrail_cases r w) as [[Hmoving E] | [_ E]]; rewrite E;
    [| constructor].
  eapply Forall_impl; [| exact Hage].
  intros point Hpoint. cbv beta in Hpoint. repeat split; lia.
Qed.

End MonotoneClock.

(** ** Further properties of the component *)

(** *** The contrast loop on the buffer *)

Lemma toUint8Clamp_comp (u v : Q) : u == v -> toUint8Clamp u = toUint8Clamp v.
Proof.
  intros E. unfold toUint8Clamp, Qltb. cbv zeta.
  rewrite (Qfloor_comp u v E).
  rewrite (Qleb_comp u v E 0 0 (Qeq_refl 0)).
  rewrite (Qleb_comp 255 255 (Qeq_refl 255) u v E).
  rewrite (Qleb_comp u v E _ _ (Qeq_refl (inject_Z (Qfloor v) + (1#2)))).
  rewrite (Qleb_comp _ _ (Qeq_refl (inject_Z (Qfloor v) + (1#2))) u v E).
  reflexivity.
Qed.

Lemma toUint8Clamp_integer (v : Q) (n : Z) :
  v == inject_Z n -> (0 <= n <= 255)%Z -> toUint8Clamp v = n.
Proof.
  intros E Hn. rewrite (toUint8Clamp_comp v (inject_Z n) E).
  unfold toUint8Clamp. cbv zeta. rewrite Qfloor_Z.
  destruct (Qle_bool (inject_Z n) 0) eqn:E0.
  { apply Qle_bool_iff in E0. change 0 with (inject_Z 0) in E0.
    rewrite <- Zle_Qle in E0. lia. }
  destruct (Qle_bool 255 (inject_Z n)) eqn:E255.
  { apply Qle_bool_iff in E255. change 255 with (inject_Z 255) in E255.
    rewrite <- Zle_Qle in E255. lia. }
  destruct (Qltb (inject_Z n + (1#2)) (inject_Z n)) eqn:Eup.
  { apply Qltb_lt in Eup. lra. }
  destruct (Qltb (inject_Z n) (inject_Z n + (1#2))) eqn:Edown; [reflexivity |].
  apply Qltb_ge in Edown. lra.
Qed.

Lemma toUint8Clamp_monotone (u v : Q) :
  u <= v -> (toUint8Clamp u <= toUint8Clamp v)%Z.
Proof.
  intros Huv.
  pose proof (toUint8Clamp_range u) as Ru.
  pose proof (toUint8Clamp_range v) as Rv.
  destruct (Qlt_le_dec 0 u) as [Hu0 |];
    [| unfold toUint8Clamp at 1;
       assert (E : Qle_bool u 0 = true) by (apply Qle_bool_iff; assumption);
       rewrite E; lia].
  destruct (Qlt_le_dec v 255) as [Hv255 | Hv255].
  2:{ assert (Ev : toUint8Clamp v = 255%Z).
      { unfold toUint8Clamp.
        destruct (Qle_bool v 0) eqn:E0; [apply Qle_bool_iff in E0; lra |].
        assert (E : Qle_bool 255 v = true) by (apply Qle_bool_iff; assumption).
        rewrite E. reflexivity. }
      lia. }
  assert (Nu : Qabs (inject_Z (toUint8Clamp u) - u) <= (1#2))
    by (apply toUint8Clamp_nearest; split; lra).
  assert (Nv : Qabs (inject_Z (toUint8Clamp v) - v) <= (1#2))
    by (apply toUint8Clamp_nearest; split; lra).
  apply Qabs_Qle_condition in Nu. apply Qabs_Qle_condition in Nv.
  destruct (Z_le_gt_dec (toUint8Clamp u) (toUint8Clamp v)) as [| Hgt];
    [assumption | exfalso].
  assert (Hstep : inject_Z (toUint8Clamp v) + 1 <= inject_Z (toUint8Clamp u)).
  { change 1 with (inject_Z 1). rewrite <- inject_Z_plus, <- Zle_Qle. lia. }
  assert (E : u == v) by (apply Qle_antisym; lra).
  rewrite (toUint8Clamp_comp u v E) in Hgt. lia.
Qed.

(** X1.  The contrast loop rewrites the three colour bytes of every pixel
    and keeps every alpha byte: entry [k] of the result is entry [k] of the
    buffer when [k mod 4 = 3], and its contrast transform otherwise; the
    length is kept, also for a buffer that ends in a partial pixel. *)
Theorem applyContrast_layout (c : Q) (data : list Z) (k : nat) :
  nth_error (applyContrast c data) k
  = (if (k mod 4 =? 3)%nat then nth_error data k
     else option_map (contrastByte c) (nth_error data k))
  /\ List.length (applyContrast c data) = List.length data.
Proof.
  split; [| apply applyContrast_length].
  revert k.
  assert (Hnone : forall (b : bool) (l : list Z) (j : nat),
             @None Z = (if b then nth_error (@nil Z) j
                        else option_map (contrastByte c) (nth_error (@nil Z) j))).
  { intros b l j. destruct b, j; reflexivity. }
  induction data as [| r | r g | r g b | r g b a rest IH] using list_ind4;
    intros k.
  - cbn [applyContrast map]. rewrite <- (Hnone _ [] k). destruct k; reflexivity.
  - destruct k as [| k]; [reflexivity |].
    cbn [applyContrast map nth_error]. rewrite <- (Hnone _ [] k).
    destruct k; reflexivity.
  - destruct k as [| [| k]]; try reflexivity.
    cbn [applyContrast map nth_error]. rewrite <- (Hnone _ [] k).
    destruct k; reflexivity.
  - destruct k as [| [| [| k]]]; try reflexivity.
    cbn [applyContrast map nth_error]. rewrite <- (Hnone _ [] k).
    destruct k; reflexivity.
  - destruct k as [| [| [| [| k]]]]; try reflexivity.
    cbn [applyContrast nth_error]. rewrite IH.
    replace (S (S (S (S k))) mod 4)%nat with (k mod 4)%nat; [reflexivity |].
    change (S (S (S (S k)))) with (4 + k)%nat.
    rewrite <- (Nat.Div0.add_mod_idemp_l 4 k 4). reflexivity.
Qed.

(** X2.  With contrast 1 the loop is the identity on a buffer of bytes. *)
Theorem applyContrast_one_identity (data : list Z) :
  Forall (fun b => (0 <= b <= 255)%Z) data ->
  applyContrast 1 data = data.
Proof.
  assert (Hbyte : forall b, (0 <= b <= 255)%Z -> contrastByte 1 b = b).
  { intros b Hb. unfold contrastByte. apply toUint8Clamp_integer; [| exact Hb].
    assert (Hq : 0 <= inject_Z b <= 255).
    { change 0 with (inject_Z 0). change 255 with (inject_Z 255).
      rewrite <- !Zle_Qle. exact Hb. }
    rewrite contrastValue_clamp. unfold clamp.
    assert (E : ((inject_Z b / 255 - (1#2)) * 1 + (1#2)) * 255 == inject_Z b)
      by field.
    destruct (Qltb _ 0) eqn:Hlo; [apply Qltb_lt in Hlo; lra |].
    destruct (Qltb 255 _) eqn:Hhi; [apply Qltb_lt in Hhi; lra |].
    exact E. }
  induction data as [| r | r g | r g b | r g b a rest IH] using list_ind4;
    intros H.
  - reflexivity.
  - inversion H; subst. cbn. rewrite Hbyte by assumption. reflexivity.
  - inversion H as [| ? ? Hr H1]; subst. inversion H1; subst.
    cbn. rewrite !Hbyte by assumption. reflexivity.
  - inversion H as [| ? ? Hr H1]; subst. inversion H1 as [| ? ? Hg H2]; subst.
    inversion H2; subst. cbn. rewrite !Hbyte by assumption. reflexivity.
  - inversion H as [| ? ? Hr H1]; subst. inversion H1 as [| ? ? Hg H2]; subst.
    inversion H2 as [| ? ? Hb H3]; subst. inversion H3 as [| ? ? Ha H4]; subst.
    cbn [applyContrast]. rewrite !Hbyte, IH by assumption. reflexivity.
Qed.

(** X3.  With contrast 0 every colour byte becomes 128, whatever it was:
    the transform yields 127.5, which the byte store rounds to the even
    neighbour. *)
Theorem contrast_zero_is_mid_grey (p : Z) :
  contrastValue 0 (inject_Z p) == 255 # 2
  /\ contrastByte 0 p = 128%Z.
Proof.
  assert (E : contrastValue 0 (inject_Z p) == 255 # 2).
  { rewrite contrastValue_clamp. unfold clamp.
    assert (Ev : ((inject_Z p / 255 - (1#2)) * 0 + (1#2)) * 255 == 255 # 2)
      by field.
    destruct (Qltb _ 0) eqn:Hlo; [apply Qltb_lt in Hlo; lra |].
    destruct (Qltb 255 _) eqn:Hhi; [apply Qltb_lt in Hhi; lra |].
    exact Ev. }
  split; [exact E |].
  unfold contrastByte. rewrite (toUint8Clamp_comp _ _ E). reflexivity.
Qed.

(** X4.  A contrast that is not negative keeps the order of channel values:
    a brighter input never gives a darker output, as a value and as the
    byte stored. *)
Theorem contrast_keeps_order (c : Q) (p q : Z) :
  0 <= c -> (p <= q)%Z ->
  contrastValue c (inject_Z p) <= contrastValue c (inject_Z q)
  /\ (contrastByte c p <= contrastByte c q)%Z.
Proof.
  intros Hc Hpq.
  assert (Hv : contrastValue c (inject_Z p) <= contrastValue c (inject_Z q)).
  { unfold contrastValue.
    set (v1 := ((inject_Z p / 255 - (1#2)) * c + (1#2)) * 255).
    set (v2 := ((inject_Z q / 255 - (1#2)) * c + (1#2)) * 255).
    assert (Hq : inject_Z p <= inject_Z q) by (rewrite <- Zle_Qle; exact Hpq).
    assert (Hd : 0 <= c * (inject_Z q - inject_Z p))
      by (apply Qmult_le_0_compat; lra).
    assert (E : v2 - v1 == c * (inject_Z q - inject_Z p))
      by (unfold v1, v2; field).
    assert (H12 : v1 <= v2) by lra.
    destruct (Math_min_cases 255 v1) as [[A1 E1] | [A1 E1]];
      destruct (Math_min_cases 255 v2) as [[A2 E2] | [A2 E2]];
      destruct (Math_max_cases 0 (Math_min 255 v1)) as [[B1 F1] | [B1 F1]];
      destruct (Math_max_cases 0 (Math_min 255 v2)) as [[B2 F2] | [B2 F2]];
      rewrite F1, F2; lra. }
  split; [exact Hv | apply toUint8Clamp_monotone, Hv].
Qed.

(** *** The grid and the generation pass *)

Lemma for_range_nth (limit step : Q) :
  forall fuel start k v,
    nth_error (for_range fuel start limit step) k = Some v ->
    v == start + inject_Z (Z.of_nat k) * step.
Proof.
  induction fuel as [| fuel IH]; intros start k v H.
  - destruct k; discriminate.
  - cbn [for_range] in H. destruct (Qltb start limit); [| destruct k; discriminate].
    destruct k as [| k].
    + injection H as <-. change (inject_Z (Z.of_nat 0)) with 0. ring.
    + cbn [nth_error] in H. apply IH in H. rewrite H.
      rewrite Nat2Z.inj_succ. unfold Z.succ. rewrite inject_Z_plus.
      change (inject_Z 1) with 1. ring.
Qed.

Lemma grid_range_In (limit step v : Q) :
  0 < step -> In v (grid_range limit step) -> 0 <= v < limit.
Proof.
  intros Hstep Hin. split.
  - apply In_nth_error in Hin. destruct Hin as [k Hk].
    apply for_range_nth in Hk. rewrite Hk.
    assert (H : 0 <= inject_Z (Z.of_nat k) * step).
    { apply Qmult_le_0_compat; [| lra].
      change 0 with (inject_Z 0). rewrite <- Zle_Qle. lia. }
    lra.
  - pose proof (for_range_below limit step (range_fuel limit step) 0) as F.
    rewrite Forall_forall in F. apply F, Hin.
Qed.

(** A container that leaves the canvas without a pixel in one direction
    ends the effect at [getImageData]. *)
Lemma mount_below_one_pixel_throws p width height w :
  canvas_dimension dpr width = 0%Z \/ canvas_dimension dpr height = 0%Z ->
  mountEffect p width height w
  = (mkScene [] SameAsDots width height width height
       (canvas_dimension dpr width) (canvas_dimension dpr height),
     w, [IndexSizeError]).
Proof.
  intros Hzero. unfold mountEffect.
  assert (Et : getImageData_throws (canvas_dimension dpr width)
                 (canvas_dimension dpr height) = true).
  { unfold getImageData_throws. apply orb_true_iff.
    destruct Hzero as [H | H]; [left | right]; rewrite H; reflexivity. }
  rewrite Et. reflexivity.
Qed.

Lemma canvas_dimension_zero (size : Q) : size == 0 -> canvas_dimension dpr size = 0%Z.
Proof.
  intros H. unfold canvas_dimension.
  assert (E : size * dpr == 0) by (rewrite H; ring).
  rewrite E. reflexivity.
Qed.

(** X6.  A container of width 0 or of height 0 never reaches the
    generation loops.  At mount the canvas has no pixel and [getImageData]
    throws: the effect ends there, with nothing painted, no random number
    drawn and no particle.  At a resize the callback returns at its size
    test and leaves the scene as it was. *)
Theorem empty_surface_has_no_particles
    (p : ImageCanvasProps) (width height : Q) (w : World) :
  width == 0 \/ height == 0 ->
  snd (mountEffect p width height w) = [IndexSizeError]
  /\ snd (fst (mountEffect p width height w)) = w
  /\ dots (fst (fst (mountEffect p width height w))) = []
  /\ forall canvasMounted rest sc,
       resizeCallback p canvasMounted (ContentRect.mk width height :: rest) sc w
       = (sc, w, []).
Proof.
  intros Hempty.
  rewrite mount_below_one_pixel_throws
    by (destruct Hempty as [H | H]; [left | right];
        apply canvas_dimension_zero, H).
  split; [reflexivity |]. split; [reflexivity |]. split; [reflexivity |].
  intros canvasMounted rest sc. unfold resizeCallback.
  destruct canvasMounted; [| reflexivity].
  cbn [ContentRect.width ContentRect.height].
  destruct Hempty as [H | H].
  - assert (E : Qgtb width 0 = false) by (apply Qgtb_le; rewrite H; apply Qle_refl).
    rewrite E. reflexivity.
  - assert (E : Qgtb height 0 = false) by (apply Qgtb_le; rewrite H; apply Qle_refl).
    rewrite E, andb_false_r. reflexivity.
Qed.

Lemma cellDot_world site p data cw cell x y w :
  snd (cellDot site p data cw cell x y w)
  = mkWorld (nowCalls w)
      (randomCalls w + 4 * List.length (push [] (fst (cellDot site p data cw cell x y w)))).
Proof.
  unfold cellDot.
  destruct (brightnessAt data (sampleIndex dpr cw x y)) as [b |];
    [| cbn; rewrite Nat.add_0_r; destruct w; reflexivity].
  unfold makeDot. destruct (Qgtb (dotSize cell b) (1#2));
    [| cbn; rewrite Nat.add_0_r; destruct w; reflexivity].
  unfold Math_random. destruct site; cbn; f_equal; lia.
Qed.

Lemma push_length {A} (l : list A) (o : option A) :
  List.length (push l o) = (List.length l + List.length (push [] o))%nat.
Proof.
  destruct o; cbn; [rewrite length_app; reflexivity | lia].
Qed.

Lemma rowDots_world site p data cw cell y :
  forall xs acc w,
    let result := rowDots site p data cw cell y xs acc w in
    nowCalls (snd result) = nowCalls w
    /\ (randomCalls (snd result) + 4 * List.length acc
        = randomCalls w + 4 * List.length (fst result))%nat.
Proof.
  induction xs as [| x xs IH]; intros acc w; [cbn; split; reflexivity |].
  cbn [rowDots].
  pose proof (cellDot_world site p data cw cell x y w) as Hw.
  destruct (cellDot site p data cw cell x y w) as [d w1]. cbn [fst snd] in Hw.
  specialize (IH (push acc d) w1). cbv zeta in *.
  destruct IH as [Hnow Hrand]. subst w1. cbn [nowCalls randomCalls] in *.
  rewrite (push_length acc d) in Hrand. split; lia.
Qed.

Lemma gridDots_world site p data cw cell xs :
  forall ys acc w,
    let result := gridDots site p data cw cell xs ys acc w in
    nowCalls (snd result) = nowCalls w
    /\ (randomCalls (snd result) + 4 * List.length acc
        = randomCalls w + 4 * List.length (fst result))%nat.
Proof.
  induction ys as [| y ys IH]; intros acc w; [cbn; split; reflexivity |].
  cbn [gridDots].
  pose proof (rowDots_world site p data cw cell y xs acc w) as Hrow.
  destruct (rowDots site p data cw cell y xs acc w) as [acc1 w1].
  cbv zeta in *. cbn [fst snd] in Hrow.
  destruct (IH acc1 w1) as [Hnow Hrand]. destruct Hrow as [Hnow1 Hrand1].
  split; lia.
Qed.

(** X7.  A generation pass calls [Math.random] exactly four times for each
    particle it creates and not at all for a suppressed cell; it never reads
    the clock, and it creates at most one particle per cell. *)
Theorem four_random_draws_per_particle
    (site : Site) (p : ImageCanvasProps) (data : list Z)
    (width height : Q) (w : World) :
  let result := generateDots site p data width height w in
  let cell := adjustedHalftoneSize p width height in
  randomCalls (snd result) = (randomCalls w + 4 * List.length (fst result))%nat
  /\ nowCalls (snd result) = nowCalls w
  /\ (List.length (fst result) <= List.length (gridCells width height cell))%nat.
Proof.
  intros result cell.
  pose proof (gridDots_world site p data (canvas_dimension dpr width) cell
                (grid_range width cell) (grid_range height cell) [] w) as H.
  cbv zeta in H.
  change (gridDots site p data (canvas_dimension dpr width) cell
            (grid_range width cell) (grid_range height cell) [] w)
    with result in H.
  destruct H as [Hnow Hrand]. cbn [List.length] in Hrand.
  split; [lia |]. split; [exact Hnow |].
  pose proof (generateDots_cells site p data width height w) as F.
  cbv zeta in F.
  change (generateDots site p data width height w) with result in F.
  apply Forall2_length in F. rewrite <- F. apply filter_length_le.
Qed.

(** What a cell that gets a dot has read and drawn. *)
Lemma cellDot_inv site p data cw cell x y w d w' :
  cellDot site p data cw cell x y w = (Some d, w') ->
  exists b rSize rAccent rPhase rSpeed,
    brightnessAt data (sampleIndex dpr cw x y) = Some b
    /\ (1#2) < dotSize cell b
    /\ (exists k, rSize = Math_random_value k)
    /\ (exists k, rAccent = Math_random_value k)
    /\ (exists k, rPhase = Math_random_value k)
    /\ (exists k, rSpeed = Math_random_value k)
    /\ d = DotData.mk (x + cell / 2) (y + cell / 2) (x + cell / 2) (y + cell / 2)
             (dotSize cell b) b
             (Qltb rAccent (accentProbability p) && Qgtb b 150)
             (1 + (rSize - (1#2)) * sizeVariation p)
             (rPhase * Math_PI * 2) ((2#100) + rSpeed * (3#100)) 0 0.
Proof.
  unfold cellDot.
  destruct (brightnessAt data (sampleIndex dpr cw x y)) as [b |]; [| discriminate].
  unfold makeDot. destruct (Qgtb (dotSize cell b) (1#2)) eqn:Hsize; [| discriminate].
  apply Qgtb_gt in Hsize. unfold Math_random. cbn [nowCalls randomCalls].
  destruct site; intros E; injection E as <- _;
    eexists; eexists; eexists; eexists; eexists;
    (split; [reflexivity |]); (split; [exact Hsize |]);
    repeat (split; [eexists; reflexivity |]); reflexivity.
Qed.

Lemma rowDots_Forall (P : DotData.t -> Prop) site p data cw cell y :
  (forall x w d w', cellDot site p data cw cell x y w = (Some d, w') -> P d) ->
  forall xs acc w,
    Forall P acc -> Forall P (fst (rowDots site p data cw cell y xs acc w)).
Proof.
  intros Hcell. induction xs as [| x xs IH]; intros acc w Hacc; [exact Hacc |].
  cbn [rowDots].
  destruct (cellDot site p data cw cell x y w) as [[d |] w1] eqn:E.
  - apply IH. cbn [push]. apply Forall_app. split; [exact Hacc |].
    constructor; [eapply Hcell, E | constructor].
  - apply IH. exact Hacc.
Qed.

Lemma generateDots_Forall (P : DotData.t -> Prop) site p data width height w :
  (forall x y w1 d w2,
      cellDot site p data (canvas_dimension dpr width)
        (adjustedHalftoneSize p width height) x y w1 = (Some d, w2) -> P d) ->
  Forall P (fst (generateDots site p data width height w)).
Proof.
  intros Hcell. unfold generateDots.
  generalize (@nil DotData.t) (Forall_nil P) w.
  induction (grid_range height (adjustedHalftoneSize p width height))
    as [| y ys IH]; intros acc Hacc w0; [exact Hacc |].
  cbn [gridDots].
  pose proof (rowDots_Forall P site p data (canvas_dimension dpr width)
                (adjustedHalftoneSize p width height) y
                (fun x w1 d w2 => Hcell x y w1 d w2)
                (grid_range width (adjustedHalftoneSize p width height))
                acc w0 Hacc) as Hrow.
  destruct (rowDots site p data _ _ y _ acc w0) as [acc1 w1].
  apply IH, Hrow.
Qed.

Lemma data_at_byte (data : list Z) (i : Z) (v : Q) :
  Forall (fun b => (0 <= b <= 255)%Z) data ->
  data_at data i = Some v -> 0 <= v <= 255.
Proof.
  intros Hbytes. unfold data_at.
  destruct (i <? 0)%Z; [discriminate |].
  destruct (nth_error data (Z.to_nat i)) as [b |] eqn:E; [| discriminate].
  intros H. injection H as <-.
  apply nth_error_In in E. rewrite Forall_forall in Hbytes.
  specialize (Hbytes b E).
  change 0 with (inject_Z 0). change 255 with (inject_Z 255).
  rewrite <- !Zle_Qle. exact Hbytes.
Qed.

Lemma brightnessAt_byte (data : list Z) (i : Z) (b : Q) :
  Forall (fun b => (0 <= b <= 255)%Z) data ->
  brightnessAt data i = Some b -> 0 <= b <= 255.
Proof.
  intros Hbytes. unfold brightnessAt.
  destruct (data_at data i) as [r |] eqn:Er; [| discriminate].
  destruct (data_at data (i + 1)) as [g |] eqn:Eg; [| discriminate].
  destruct (data_at data (i + 2)) as [b' |] eqn:Eb; [| discriminate].
  intros H. injection H as <-.
  pose proof (data_at_byte data _ _ Hbytes Er).
  pose proof (data_at_byte data _ _ Hbytes Eg).
  pose proof (data_at_byte data _ _ Hbytes Eb).
  assert (E : (r + g + b') / 3 == (1#3) * (r + g + b')) by field.
  rewrite E. split; lra.
Qed.

(** X8.  On a buffer of bytes every particle of a generation pass carries a
    brightness in [0,255] and a base diameter above 0.5 and at most 90% of
    the cell size. *)
Theorem particle_size_within_cell
    (site : Site) (p : ImageCanvasProps) (data : list Z)
    (width height : Q) (w : World) :
  Forall (fun b => (0 <= b <= 255)%Z) data ->
  let cell := adjustedHalftoneSize p width height in
  Forall (fun d =>
            0 <= DotData.brightness d <= 255
            /\ (1#2) < DotData.baseSize d <= (9#10) * cell)
         (fst (generateDots site p data width height w)).
Proof.
  intros Hbytes cell. apply generateDots_Forall.
  intros x y w1 d w2 E.
  apply cellDot_inv in E.
  destruct E as (b & rS & rA & rP & rV & Hb & Hsize & _ & _ & _ & _ & ->).
  cbn [DotData.brightness DotData.baseSize]. fold cell in Hsize |- *.
  pose proof (brightnessAt_byte data _ b Hbytes Hb) as [Hb0 Hb255].
  split; [split; assumption |]. split; [exact Hsize |].
  unfold dotSize.
  assert (Hcell : 2 <= cell) by apply adjustedHalftoneSize_ge_2.
  assert (Hprod : 0 <= (255 - b) * cell) by (apply Qmult_le_0_compat; lra).
  assert (E : (9#10) * cell - b / 255 * cell * (9#10)
              == (9#2550) * ((255 - b) * cell)) by field.
  lra.
Qed.

(** X9.  When [Math.random] returns values in [0,1) and the size variation
    is not negative, every particle of a generation pass has a size
    multiplier within half the variation of 1, a twinkle speed in
    [0.02, 0.05) and a twinkle phase in [0, 2*PI). *)
Theorem particle_jitter_in_range
    (site : Site) (p : ImageCanvasProps) (data : list Z)
    (width height : Q) (w : World) :
  (forall k, 0 <= Math_random_value k < 1) ->
  0 <= sizeVariation p -> 0 < Math_PI ->
  Forall (fun d =>
            1 - sizeVariation p / 2 <= DotData.sizeMultiplier d
              <= 1 + sizeVariation p / 2
            /\ (2#100) <= DotData.twinkleSpeed d < (5#100)
            /\ 0 <= DotData.twinklePhase d < 2 * Math_PI)
         (fst (generateDots site p data width height w)).
Proof.
  intros Hrandom Hvar Hpi. apply generateDots_Forall.
  intros x y w1 d w2 E.
  apply cellDot_inv in E.
  destruct E as (b & rS & rA & rP & rV & _ & _ & [kS ->] & _ & [kP ->] & [kV ->] & ->).
  cbn [DotData.sizeMultiplier DotData.twinkleSpeed DotData.twinklePhase].
  pose proof (Hrandom kS) as [HS0 HS1].
  pose proof (Hrandom kP) as [HP0 HP1].
  pose proof (Hrandom kV) as [HV0 HV1].
  set (sv := sizeVariation p) in *.
  set (rS := Math_random_value kS) in *.
  set (rP := Math_random_value kP) in *.
  assert (H1 : 0 <= rS * sv) by (apply Qmult_le_0_compat; lra).
  assert (H2 : 0 <= (1 - rS) * sv) by (apply Qmult_le_0_compat; lra).
  assert (E1 : 1 + (rS - (1#2)) * sv == 1 - sv / 2 + rS * sv) by field.
  assert (E2 : 1 + sv / 2 - (1 + (rS - (1#2)) * sv) == (1 - rS) * sv) by field.
  assert (H3 : 0 <= rP * Math_PI) by (apply Qmult_le_0_compat; lra).
  assert (H4 : 0 < (1 - rP) * Math_PI) by (apply Qmult_lt_0_compat; lra).
  assert (E3 : 2 * Math_PI - rP * Math_PI * 2 == 2 * ((1 - rP) * Math_PI)) by ring.
  repeat split; lra.
Qed.

(** X10.  An accent particle is always brighter than 150.  With random
    values in [0,1): an accent probability of 0 or less gives no accent
    particle at all, and a probability of 1 or more makes every particle
    brighter than 150 an accent. *)
Theorem accent_only_on_bright_particles
    (site : Site) (p : ImageCanvasProps) (data : list Z)
    (width height : Q) (w : World) :
  let generated := fst (generateDots site p data width height w) in
  Forall (fun d => DotData.isAccent d = true -> 150 < DotData.brightness d)
         generated
  /\ ((forall k, 0 <= Math_random_value k < 1) ->
      (accentProbability p <= 0 ->
       Forall (fun d => DotData.isAccent d = false) generated)
      /\ (1 <= accentProbability p ->
          Forall (fun d => DotData.isAccent d = true
                           <-> 150 < DotData.brightness d) generated)).
Proof.
  intros generated. unfold generated. split; [| intros Hrandom; split; intros Hp].
  - apply generateDots_Forall. intros x y w1 d w2 E.
    apply cellDot_inv in E.
    destruct E as (b & rS & rA & rP & rV & _ & _ & _ & _ & _ & _ & ->).
    cbn [DotData.isAccent DotData.brightness]. intros H.
    apply andb_true_iff in H. apply Qgtb_gt, H.
  - apply generateDots_Forall. intros x y w1 d w2 E.
    apply cellDot_inv in E.
    destruct E as (b & rS & rA & rP & rV & _ & _ & _ & [kA ->] & _ & _ & ->).
    cbn [DotData.isAccent].
    assert (Hno : Qltb (Math_random_value kA) (accentProbability p) = false).
    { apply Qltb_ge. pose proof (Hrandom kA). lra. }
    rewrite Hno. reflexivity.
  - apply generateDots_Forall. intros x y w1 d w2 E.
    apply cellDot_inv in E.
    destruct E as (b & rS & rA & rP & rV & _ & _ & _ & [kA ->] & _ & _ & ->).
    cbn [DotData.isAccent DotData.brightness].
    assert (Hyes : Qltb (Math_random_value kA) (accentProbability p) = true).
    { apply Qltb_lt. pose proof (Hrandom kA). lra. }
    rewrite Hyes. cbn [andb]. apply Qgtb_gt.
Qed.

Lemma data_at_defined (data : list Z) (i : Z) :
  (0 <= i < Z.of_nat (List.length data))%Z -> exists v, data_at data i = Some v.
Proof.
  intros [H0 Hlt]. unfold data_at.
  destruct (Z.ltb_spec i 0); [lia |].
  destruct (nth_error data (Z.to_nat i)) as [b |] eqn:E.
  - eexists. reflexivity.
  - apply nth_error_None in E. lia.
Qed.

Lemma floor_below_integer (v : Q) (n : Z) :
  0 <= v -> v < inject_Z n -> (0 <= Qfloor v < n)%Z.
Proof.
  intros H0 Hlt. split.
  - change 0%Z with (Qfloor 0). apply Qfloor_resp_le, H0.
  - rewrite Zlt_Qlt. eapply Qle_lt_trans; [apply Qfloor_le | exact Hlt].
Qed.

(** X11.  When the display width and height times the device pixel ratio
    are whole numbers and the buffer holds four bytes for each pixel of the
    canvas, every cell of the grid samples inside its own row of the buffer:
    the sample column is below [canvas.width], the three bytes read exist,
    and the cell has a brightness. *)
Theorem every_cell_samples_inside_the_buffer
    (p : ImageCanvasProps) (data : list Z) (width height : Q) (nw nh : Z) :
  0 < dpr ->
  width * dpr == inject_Z nw -> height * dpr == inject_Z nh ->
  Z.of_nat (List.length data) = (4 * nw * nh)%Z ->
  let cell := adjustedHalftoneSize p width height in
  let cw := canvas_dimension dpr width in
  cw = nw
  /\ forall x y,
       In (x, y) (gridCells width height cell) ->
       (0 <= Math_floor (x * dpr) < cw)%Z
       /\ (0 <= Math_floor (y * dpr) < canvas_dimension dpr height)%Z
       /\ (0 <= sampleIndex dpr cw x y)%Z
       /\ (sampleIndex dpr cw x y + 3 < Z.of_nat (List.length data))%Z
       /\ exists b, brightnessAt data (sampleIndex dpr cw x y) = Some b.
Proof.
  intros Hdpr Hw Hh Hlen cell cw.
  assert (Hcell : 0 < cell).
  { pose proof (adjustedHalftoneSize_ge_2 p width height). unfold cell. lra. }
  assert (Ecw : cw = nw).
  { unfold cw, canvas_dimension. rewrite (Qfloor_comp _ _ Hw). apply Qfloor_Z. }
  assert (Ech : canvas_dimension dpr height = nh).
  { unfold canvas_dimension. rewrite (Qfloor_comp _ _ Hh). apply Qfloor_Z. }
  split; [exact Ecw |].
  intros x y Hin. unfold gridCells in Hin.
  apply in_flat_map in Hin. destruct Hin as (y' & Hy & Hin).
  apply in_map_iff in Hin. destruct Hin as (x' & E & Hx).
  injection E as -> ->.
  apply (grid_range_In width cell x Hcell) in Hx.
  apply (grid_range_In height cell y Hcell) in Hy.
  assert (Hsx : (0 <= Qfloor (x * dpr) < nw)%Z).
  { apply floor_below_integer.
    - apply Qmult_le_0_compat; lra.
    - rewrite <- Hw. apply Qmult_lt_r; [exact Hdpr | apply Hx]. }
  assert (Hsy : (0 <= Qfloor (y * dpr) < nh)%Z).
  { apply floor_below_integer.
    - apply Qmult_le_0_compat; lra.
    - rewrite <- Hh. apply Qmult_lt_r; [exact Hdpr | apply Hy]. }
  unfold Math_floor. rewrite Ecw, Ech.
  split; [exact Hsx |]. split; [exact Hsy |].
  unfold sampleIndex, Math_floor.
  set (sx := Qfloor (x * dpr)) in *. set (sy := Qfloor (y * dpr)) in *.
  assert (Hi0 : (0 <= (sy * nw + sx) * 4)%Z) by nia.
  assert (Hi1 : ((sy * nw + sx) * 4 + 3 < 4 * nw * nh)%Z) by nia.
  split; [exact Hi0 |]. split; [rewrite Hlen; exact Hi1 |].
  unfold brightnessAt.
  destruct (data_at_defined data ((sy * nw + sx) * 4)) as [r Er]; [lia |].
  destruct (data_at_defined data ((sy * nw + sx) * 4 + 1)) as [g Eg]; [lia |].
  destruct (data_at_defined data ((sy * nw + sx) * 4 + 2)) as [b Eb]; [lia |].
  rewrite Er, Eg, Eb. eexists. reflexivity.
Qed.

(** *** The pointer handlers over whole runs *)

(** X12.  The step count of a move is at least 1 and large enough that
    [speed / steps] is at most 10: consecutive trail points of one move are
    at most 10px of travel apart; and it is the least such count. *)
Theorem trail_steps_cover_the_move (speed : Q) :
  let steps := trailSteps speed in
  (1 <= steps)%Z
  /\ speed / inject_Z steps <= 10
  /\ (steps = 1%Z \/ 10 * (inject_Z steps - 1) < speed).
Proof.
  intros steps. unfold steps, trailSteps, Math_ceil.
  set (c := Qceiling (speed / 10)).
  pose proof (Qle_ceiling (speed / 10)) as Hle. fold c in Hle.
  pose proof (Qceiling_lt (speed / 10)) as Hlt. fold c in Hlt.
  assert (Em : inject_Z (c - 1) == inject_Z c - 1).
  { unfold Z.sub. rewrite inject_Z_plus, inject_Z_opp. reflexivity. }
  rewrite Em in Hlt.
  assert (H1 : (1 <= Z.max 1 c)%Z) by apply Z.le_max_l.
  assert (Hc : inject_Z c <= inject_Z (Z.max 1 c))
    by (rewrite <- Zle_Qle; apply Z.le_max_r).
  assert (Hpos : 0 < inject_Z (Z.max 1 c)).
  { change 0 with (inject_Z 0). rewrite <- Zlt_Qlt. lia. }
  assert (Es : speed / 10 == (1#10) * speed) by field.
  split; [exact H1 |]. split.
  - apply Qle_shift_div_r; [exact Hpos | lra].
  - destruct (Z.max_spec 1 c) as [[_ E] | [_ E]]; rewrite E.
    + right. lra.
    + left. reflexivity.
Qed.

(** X13.  A move after the first leaves the pointer at the new position
    with the old one as previous position, and every point of the new trail
    is either a point of the old trail or lies on the way from the previous
    position (included, at [k = 0]) to the new one (never reached):
    [prev + vel * k/steps] with [0 <= k < steps]. *)
Theorem move_interpolates_from_previous_position
    (rect : DOMRect.t) (e : MouseEvent) (r : Refs) (w : World) :
  isFirstMoveRef r = false ->
  let prevX := Mouse.x (mouseRef r) in
  let prevY := Mouse.y (mouseRef r) in
  let newX := clientX e - DOMRect.left rect in
  let newY := clientY e - DOMRect.top rect in
  let velX := newX - prevX in
  let velY := newY - prevY in
  let steps := trailSteps (Math_sqrt (velX * velX + velY * velY)) in
  let r' := fst (handleMouseMove (Some rect) e r w) in
  mouseRef r' = Mouse.mk newX newY prevX prevY
  /\ lastMoveTimeRef r' = Date_now_value (nowCalls w)
  /\ Forall (fun point =>
               In point (mouseTrailRef r)
               \/ exists k,
                    (0 <= k < steps)%Z
                    /\ 0 <= inject_Z k / inject_Z steps < 1
                    /\ TrailPoint.x point = prevX + velX * (inject_Z k / inject_Z steps)
                    /\ TrailPoint.y point = prevY + velY * (inject_Z k / inject_Z steps))
            (mouseTrailRef r').
Proof.
  intros Hfirst prevX prevY newX newY velX velY steps r'.
  unfold r'. rewrite (handleMouseMove_later rect e r w Hfirst).
  cbn [fst mouseRef lastMoveTimeRef mouseTrailRef].
  split; [reflexivity |]. split; [reflexivity |].
  apply Forall_forall. intros point Hin.
  apply filter_In in Hin. destruct Hin as [Hin _].
  apply in_app_or in Hin. destruct Hin as [Hold | Hnew]; [left; exact Hold |].
  right. unfold interpolatedPoints in Hnew.
  apply in_map_iff in Hnew. destruct Hnew as (k & <- & Hk).
  apply in_seq in Hk. fold prevX prevY newX newY in Hk |- *.
  fold velX velY in Hk |- *. fold steps in Hk |- *.
  assert (Hsteps : (1 <= steps)%Z) by apply Z.le_max_l.
  exists (Z.of_nat k). split; [lia |].
  cbn [TrailPoint.x TrailPoint.y]. split; [| split; reflexivity].
  assert (Hpos : 0 < inject_Z steps).
  { change 0 with (inject_Z 0). rewrite <- Zlt_Qlt. lia. }
  assert (Hk0 : 0 <= inject_Z (Z.of_nat k)).
  { change 0 with (inject_Z 0). rewrite <- Zle_Qle. lia. }
  assert (Hk1 : inject_Z (Z.of_nat k) < inject_Z steps)
    by (rewrite <- Zlt_Qlt; lia).
  split.
  - apply Qle_shift_div_l; [exact Hpos | lra].
  - apply Qlt_shift_div_r; [exact Hpos | lra].
Qed.

Lemma stepRefs_trail_Forall (P : TrailPoint.t -> Prop) ev r w :
  (forall steps prevX prevY velX velY speed first point,
      In point (interpolatedPoints steps prevX prevY velX velY speed first) ->
      speed = Math_sqrt (velX * velX + velY * velY) ->
      (nowCalls w < first)%nat -> P point) ->
  Forall P (mouseTrailRef r) ->
  Forall P (mouseTrailRef (fst (stepRefs ev (r, w)))).
Proof.
  intros Hnew Hold. destruct ev as [[rect |] e | | | |]; cbn [stepRefs];
    try exact Hold.
  - destruct (isFirstMoveRef r) eqn:First.
    + unfold handleMouseMove. rewrite First. exact Hold.
    + rewrite (handleMouseMove_later rect e r w First). cbn [fst mouseTrailRef].
      apply Forall_forall. intros point Hin.
      apply filter_In in Hin. destruct Hin as [Hin _].
      apply in_app_or in Hin. destruct Hin as [Hin | Hin].
      * rewrite Forall_forall in Hold. apply Hold, Hin.
      * eapply Hnew; [exact Hin | reflexivity | lia].
  - change (let '(r', _, _, w') := animateTrail r w in (r', w'))
      with (stepRefs FrameTick (r, w)).
    rewrite stepRefs_FrameTick. cbn [fst mouseTrailRef].
    destruct (frameTrail_cases r w) as [[_ E] | [_ E]]; rewrite E;
      [exact Hold | constructor].
Qed.

(** X14.  With a square root that is never negative, every point of the
    trail has a strength in [0,1], over every sequence of events. *)
Theorem trail_strength_in_unit_interval (evs : list Event) (w0 : World) :
  (forall q, 0 <= Math_sqrt q) ->
  Forall (fun point => 0 <= TrailPoint.strength point <= 1)
         (mouseTrailRef (fst (runRefs evs (initialRefs, w0)))).
Proof.
  intros Hsqrt.
  assert (Hrun : forall evs' r w,
             Forall (fun point => 0 <= TrailPoint.strength point <= 1) (mouseTrailRef r) ->
             Forall (fun point => 0 <= TrailPoint.strength point <= 1)
                    (mouseTrailRef (fst (runRefs evs' (r, w))))).
  { induction evs' as [| ev evs' IH]; intros r w Hr; [exact Hr |].
    cbn [runRefs fold_left].
    assert (Hstep : Forall (fun point => 0 <= TrailPoint.strength point <= 1)
                      (mouseTrailRef (fst (stepRefs ev (r, w))))).
    { apply stepRefs_trail_Forall; [| exact Hr].
      intros steps prevX prevY velX velY speed first point Hin -> _.
      unfold interpolatedPoints in Hin. apply in_map_iff in Hin.
      destruct Hin as (k & <- & _). cbn [TrailPoint.strength].
      pose proof (Hsqrt (velX * velX + velY * velY)) as Hs.
      set (speed := Math_sqrt (velX * velX + velY * velY)) in *.
      assert (E : speed / 10 == (1#10) * speed) by field.
      destruct (Math_min_cases (speed / 10) 1) as [[H Em] | [H Em]];
        rewrite Em; split; lra. }
    destruct (stepRefs ev (r, w)) as [r1 w1]. apply IH, Hstep. }
  apply Hrun. constructor.
Qed.

Lemma oldestFirst_filter (f : TrailPoint.t -> bool) trail :
  oldestFirst trail -> oldestFirst (filter f trail).
Proof.
  unfold oldestFirst. induction 1 as [| a l Hl IH Ha]; cbn [filter];
    [constructor |].
  destruct (f a); [| exact IH].
  constructor; [exact IH |].
  apply Forall_forall. intros b Hb. rewrite Forall_forall in Ha.
  apply Ha. apply filter_In in Hb. apply Hb.
Qed.

Lemma oldestFirst_app l1 l2 :
  oldestFirst l1 -> oldestFirst l2 ->
  (forall a b, In a l1 -> In b l2 ->
               (TrailPoint.timestamp a <= TrailPoint.timestamp b)%Z) ->
  oldestFirst (l1 ++ l2).
Proof.
  unfold oldestFirst. intros H1 H2 H12.
  induction H1 as [| a l Hl IH Ha]; cbn [app]; [exact H2 |].
  constructor.
  - apply IH. intros a' b Ha' Hb. apply H12; [now right | exact Hb].
  - apply Forall_app. split; [exact Ha |].
    apply Forall_forall. intros b Hb. apply H12; [now left | exact Hb].
Qed.

Lemma oldestFirst_map_seq (f : nat -> TrailPoint.t) :
  (forall i j, (i <= j)%nat ->
               (TrailPoint.timestamp (f i) <= TrailPoint.timestamp (f j))%Z) ->
  forall n a, oldestFirst (map f (seq a n)).
Proof.
  intros Hf. unfold oldestFirst.
  induction n as [| n IH]; intros a; cbn [seq map]; constructor.
  - apply IH.
  - apply Forall_forall. intros b Hb. apply in_map_iff in Hb.
    destruct Hb as (j & <- & Hj). apply in_seq in Hj. apply Hf. lia.
Qed.

Lemma stepRefs_nowCalls ev r w :
  (nowCalls w <= nowCalls (snd (stepRefs ev (r, w))))%nat.
Proof.
  destruct ev as [[rect |] e | | | |].
  - cbn [stepRefs]. destruct (isFirstMoveRef r) eqn:First.
    + unfold handleMouseMove. rewrite First. cbn. lia.
    + rewrite (handleMouseMove_later rect e r w First). cbn. lia.
  - cbn. lia.
  - cbn. lia.
  - cbn. lia.
  - rewrite stepRefs_FrameTick. cbn. lia.
  - cbn. lia.
Qed.

(** X15.  With a clock that does not run backwards the trail is always in
    order of age, oldest point first, over every sequence of events; so is
    the trail a frame reads.  The age filter of a move therefore only ever
    drops points from the front. *)
Theorem trail_is_oldest_first (evs : list Event) (w0 : World) :
  (forall i j, (i <= j)%nat -> (Date_now_value i <= Date_now_value j)%Z) ->
  let r := fst (runRefs evs (initialRefs, w0)) in
  let w := snd (runRefs evs (initialRefs, w0)) in
  oldestFirst (mouseTrailRef r) /\ oldestFirst (frameTrail r w).
Proof.
  intros Hclock.
  set (inv := fun (s : Refs * World) =>
                oldestFirst (mouseTrailRef (fst s))
                /\ Forall (fun point =>
                             forall j, (nowCalls (snd s) <= j)%nat ->
                                       (TrailPoint.timestamp point <= Date_now_value j)%Z)
                          (mouseTrailRef (fst s))).
  assert (Hstep : forall ev r w, inv (r, w) -> inv (stepRefs ev (r, w))).
  { intros ev r w [Hsorted Hpast]. cbn [fst snd] in Hsorted, Hpast.
    pose proof (stepRefs_nowCalls ev r w) as Hnow.
    assert (Hkeep : forall r',
               mouseTrailRef r' = mouseTrailRef r \/ mouseTrailRef r' = [] ->
               forall w', (nowCalls w <= nowCalls w')%nat -> inv (r', w')).
    { intros r' [E | E] w' Hw'; unfold inv; cbn [fst snd]; rewrite E.
      - split; [exact Hsorted |].
        eapply Forall_impl; [| exact Hpast]. intros point H j Hj. apply H. lia.
      - split; constructor. }
    destruct ev as [[rect |] e | | | |];
      [cbn [stepRefs] in *
      | cbn [stepRefs handleMouseMove handleMouseEnter handleMouseLeave Date_now] in * ..].
    - destruct (isFirstMoveRef r) eqn:First.
      + unfold handleMouseMove in *. rewrite First in *.
        cbn [Date_now] in *.
        apply Hkeep; [left; reflexivity | exact Hnow].
      + rewrite (handleMouseMove_later rect e r w First) in *.
        cbn [fst snd nowCalls mouseTrailRef] in *.
        match goal with
        | |- inv (mkRefs _ _ _ _ (filter _ (_ ++ ?pts)) _, _) => set (new := pts)
        end.
        assert (Hnew : forall point, In point new ->
                   exists k, TrailPoint.timestamp point
                             = Date_now_value (nowCalls w + 1 + k)
                             /\ (k < Z.to_nat (trailSteps
                                      (Math_sqrt
                                         ((clientX e - DOMRect.left rect - Mouse.x (mouseRef r))
                                          * (clientX e - DOMRect.left rect - Mouse.x (mouseRef r))
                                          + (clientY e - DOMRect.top rect - Mouse.y (mouseRef r))
                                            * (clientY e - DOMRect.top rect - Mouse.y (mouseRef r))))))%nat).
        { intros point Hin. unfold new, interpolatedPoints in Hin.
          apply in_map_iff in Hin. destruct Hin as (k & <- & Hk).
          apply in_seq in Hk. exists k. split; [reflexivity | lia]. }
        unfold inv. cbn [fst snd nowCalls mouseTrailRef]. split.
        * apply oldestFirst_filter, oldestFirst_app.
          -- exact Hsorted.
          -- unfold new, interpolatedPoints. apply oldestFirst_map_seq.
             intros i j Hij. cbn [TrailPoint.timestamp]. apply Hclock. lia.
          -- intros a b Ha Hb. destruct (Hnew b Hb) as (k & -> & _).
             rewrite Forall_forall in Hpast. apply (Hpast a Ha). lia.
        * apply Forall_forall. intros point Hin j Hj.
          apply filter_In in Hin. destruct Hin as [Hin _].
          apply in_app_or in Hin. destruct Hin as [Hin | Hin].
          -- rewrite Forall_forall in Hpast. apply (Hpast point Hin). lia.
          -- destruct (Hnew point Hin) as (k & -> & Hk). apply Hclock. lia.
    - apply Hkeep; [left; reflexivity | exact Hnow].
    - apply Hkeep; [left; reflexivity | exact Hnow].
    - apply Hkeep; [left; reflexivity | exact Hnow].
    - change (let '(r', _, _, w') := animateTrail r w in (r', w'))
        with (stepRefs FrameTick (r, w)) in *.
      rewrite stepRefs_FrameTick in *. cbn [snd] in Hnow.
      apply Hkeep; [| exact Hnow]. cbn [mouseTrailRef].
      destruct (frameTrail_cases r w) as [[_ E] | [_ E]]; rewrite E; auto.
    - apply Hkeep; [left; reflexivity | exact Hnow]. }
  assert (Hrun : forall evs' s, inv s -> inv (runRefs evs' s)).
  { induction evs' as [| ev evs' IH]; intros [r w] Hs; [exact Hs |].
    cbn [runRefs fold_left]. apply IH, Hstep, Hs. }
  intros r w.
  assert (Hinv : inv (runRefs evs (initialRefs, w0))).
  { apply Hrun. split; constructor. }
  destruct Hinv as [Hsorted _]. fold r in Hsorted.
  split; [exact Hsorted |].
  destruct (frameTrail_cases r w) as [[_ E] | [_ E]]; rewrite E;
    [exact Hsorted | constructor].
Qed.

(** X16.  A move that does not change the position (speed 0) still
    appends one trail point, at the pointer, of strength 0; and a trail
    point of strength 0 never changes the force on a particle (it may still
    raise the particle's falloff). *)
Theorem still_pointer_adds_a_powerless_point
    (rect : DOMRect.t) (e : MouseEvent) (r : Refs) (w : World) :
  isFirstMoveRef r = false ->
  let prevX := Mouse.x (mouseRef r) in
  let prevY := Mouse.y (mouseRef r) in
  let velX := clientX e - DOMRect.left rect - prevX in
  let velY := clientY e - DOMRect.top rect - prevY in
  Math_sqrt (velX * velX + velY * velY) == 0 ->
  exists point,
    mouseTrailRef (fst (handleMouseMove (Some rect) e r w))
    = filter (isRecent (Date_now_value (nowCalls w + 2)))
        (mouseTrailRef r ++ [point])
    /\ TrailPoint.x point == prevX /\ TrailPoint.y point == prevY
    /\ TrailPoint.timestamp point = Date_now_value (nowCalls w + 1)
    /\ TrailPoint.strength point == 0
    /\ forall p time dot acc acc',
         trailPointStep p time dot acc point = Some acc' ->
         totalForceX acc' == totalForceX acc
         /\ totalForceY acc' == totalForceY acc.
Proof.
  intros Hfirst prevX prevY velX velY Hspeed.
  rewrite (handleMouseMove_later rect e r w Hfirst). cbn [fst mouseTrailRef].
  fold prevX prevY. fold velX velY.
  set (speed := Math_sqrt (velX * velX + velY * velY)) in *.
  assert (Hsteps : trailSteps speed = 1%Z).
  { unfold trailSteps, Math_ceil.
    assert (E : speed / 10 == 0) by (rewrite Hspeed; reflexivity).
    rewrite (Qceiling_comp _ _ E). reflexivity. }
  rewrite Hsteps. unfold interpolatedPoints. cbn [Z.to_nat Pos.to_nat Pos.iter_op seq map].
  eexists. split; [f_equal; [f_equal; f_equal; lia | reflexivity] |].
  cbn [TrailPoint.x TrailPoint.y TrailPoint.timestamp TrailPoint.strength].
  assert (Hstrength : Math_min (speed / 10) 1 == 0).
  { destruct (Math_min_cases (speed / 10) 1) as [[H E] | [H E]]; rewrite E.
    - rewrite Hspeed. reflexivity.
    - rewrite Hspeed in H. exfalso. apply H. reflexivity. }
  split; [change (inject_Z (Z.of_nat 0)) with 0; field |].
  split; [change (inject_Z (Z.of_nat 0)) with 0; field |].
  split; [f_equal; lia |].
  split; [exact Hstrength |].
  intros p time dot acc acc'. unfold trailPointStep.
  cbn [TrailPoint.x TrailPoint.y TrailPoint.strength].
  destruct (Qgtb _ (mouseRadius p * (15#10)));
    [intros E; injection E as <-; split; reflexivity |].
  destruct (Qltb _ (irregularRadius p time dot));
    [| intros E; injection E as <-; split; reflexivity].
  destruct (checked_div _ (irregularRadius p time dot)); [| discriminate].
  destruct (Qgtb _ (1#10));
    [| intros E; injection E as <-; split; reflexivity].
  destruct (checked_div _ _) as [ux |]; [| discriminate].
  destruct (checked_div _ _) as [uy |]; [| discriminate].
  intros E. injection E as <-. cbn [totalForceX totalForceY].
  rewrite Hstrength. split; ring.
Qed.

(** *** The frame on particles out of reach *)

Lemma trailPointStep_out_of_reach p time dot acc trailPoint :
  pointOutOfReach p time dot trailPoint ->
  trailPointStep p time dot acc trailPoint = Some acc.
Proof.
  unfold pointOutOfReach, distanceTo, trailPointStep. cbv zeta.
  intros [Hfar | Hout].
  - apply Qgtb_gt in Hfar. rewrite Hfar. reflexivity.
  - destruct (Qgtb _ (mouseRadius p * (15#10))); [reflexivity |].
    apply Qltb_ge in Hout. rewrite Hout. reflexivity.
Qed.

Lemma accumulateForces_out_of_reach p time r dot :
  Forall (pointOutOfReach p time dot) (mouseTrailRef r) ->
  accumulateForces p time r dot = Some (mkAccum 0 0 0).
Proof.
  intros Hout. unfold accumulateForces.
  destruct ((0 <? List.length (mouseTrailRef r))%nat && Qgtb fadeOutFactor (1#100));
    [| reflexivity].
  generalize (mkAccum 0 0 0).
  induction Hout as [| trailPoint rest Hpoint _ IH]; intros acc; [reflexivity |].
  cbn [forEachTrailPoint].
  rewrite (trailPointStep_out_of_reach p time dot acc trailPoint Hpoint).
  apply IH.
Qed.

Lemma pointerProximity_out_of_reach p time r dot (m : Q) :
  pointerOutOfReach p time r dot ->
  pointerProximity p time r dot m = Some (m, false).
Proof.
  unfold pointerOutOfReach, pointerProximity. intros Hout.
  destruct (Qgtb (Mouse.x (mouseRef r)) 0) eqn:Hx; [| reflexivity].
  apply Qgtb_gt in Hx. destruct Hout as [Hneg | Hfar]; [lra |].
  apply Qltb_ge in Hfar. rewrite Hfar. reflexivity.
Qed.

(** A particle nothing reaches: no force but the spring, full opacity. *)
Lemma animateDot_out_of_reach p time r dot :
  Forall (pointOutOfReach p time dot) (mouseTrailRef r) ->
  pointerOutOfReach p time r dot ->
  exists f,
    animateDot p time r dot = Some f
    /\ opacity f = 1 /\ isTwinkling f = false /\ frame_maxDistanceFactor f = 0
    /\ DotData.twinklePhase (frame_dot f) = DotData.twinklePhase dot
    /\ DotData.vx (frame_dot f)
       = (DotData.vx dot + 0
          + (DotData.baseX dot - DotData.x dot) * returnSpeed p * (1#10)) * (85#100)
    /\ DotData.vy (frame_dot f)
       = (DotData.vy dot + 0
          + (DotData.baseY dot - DotData.y dot) * returnSpeed p * (1#10)) * (85#100)
    /\ DotData.x (frame_dot f) = DotData.x dot + DotData.vx (frame_dot f)
    /\ DotData.y (frame_dot f) = DotData.y dot + DotData.vy (frame_dot f).
Proof.
  intros Htrail Hptr. unfold animateDot.
  rewrite (accumulateForces_out_of_reach p time r dot Htrail).
  cbn [maxDistanceFactor totalForceX totalForceY].
  rewrite (pointerProximity_out_of_reach p time r dot 0 Hptr).
  eexists. split; [reflexivity |]. cbn. repeat split; reflexivity.
Qed.

(** X17.  A particle that no trail point and not the pointer reaches is
    drawn with opacity 1, does not twinkle, keeps its twinkle phase, and
    moves by the spring alone: its velocity becomes
    [0.85 * (v + (base - pos) * returnSpeed * 0.1)] and is added to its
    position.  At rest on its rest position, it stays there. *)
Theorem out_of_reach_particle_follows_its_spring
    (p : ImageCanvasProps) (time : Q) (r : Refs) (dot : DotData.t) :
  Forall (pointOutOfReach p time dot) (mouseTrailRef r) ->
  pointerOutOfReach p time r dot ->
  exists f,
    animateDot p time r dot = Some f
    /\ opacity f = 1 /\ isTwinkling f = false
    /\ DotData.twinklePhase (frame_dot f) = DotData.twinklePhase dot
    /\ DotData.vx (frame_dot f)
       == (85#100) * (DotData.vx dot
                      + (DotData.baseX dot - DotData.x dot) * returnSpeed p / 10)
    /\ DotData.vy (frame_dot f)
       == (85#100) * (DotData.vy dot
                      + (DotData.baseY dot - DotData.y dot) * returnSpeed p / 10)
    /\ DotData.x (frame_dot f) == DotData.x dot + DotData.vx (frame_dot f)
    /\ DotData.y (frame_dot f) == DotData.y dot + DotData.vy (frame_dot f)
    /\ (DotData.x dot == DotData.baseX dot -> DotData.vx dot == 0 ->
        DotData.x (frame_dot f) == DotData.x dot /\ DotData.vx (frame_dot f) == 0)
    /\ (DotData.y dot == DotData.baseY dot -> DotData.vy dot == 0 ->
        DotData.y (frame_dot f) == DotData.y dot /\ DotData.vy (frame_dot f) == 0).
Proof.
  intros Htrail Hptr.
  destruct (animateDot_out_of_reach p time r dot Htrail Hptr)
    as (f & E & Hop & Htw & _ & Hphase & Hvx & Hvy & Hx & Hy).
  exists f. split; [exact E |]. split; [exact Hop |]. split; [exact Htw |].
  split; [exact Hphase |].
  assert (Evx : DotData.vx (frame_dot f)
       == (85#100) * (DotData.vx dot
                      + (DotData.baseX dot - DotData.x dot) * returnSpeed p / 10))
    by (rewrite Hvx; field).
  assert (Evy : DotData.vy (frame_dot f)
       == (85#100) * (DotData.vy dot
                      + (DotData.baseY dot - DotData.y dot) * returnSpeed p / 10))
    by (rewrite Hvy; field).
  split; [exact Evx |]. split; [exact Evy |].
  split; [rewrite Hx; reflexivity |]. split; [rewrite Hy; reflexivity |].
  split.
  - intros Hrest Hstill.
    assert (E0 : DotData.vx (frame_dot f) == 0)
      by (rewrite Evx, Hrest, Hstill; field).
    split; [rewrite Hx, E0; ring | exact E0].
  - intros Hrest Hstill.
    assert (E0 : DotData.vy (frame_dot f) == 0)
      by (rewrite Evy, Hrest, Hstill; field).
    split; [rewrite Hy, E0; ring | exact E0].
Qed.

Lemma animateDot_sameParticle p time r dot f :
  animateDot p time r dot = Some f ->
  sameParticle dot (frame_dot f)
  /\ drawDot p f
     = FillArc (if DotData.isAccent dot then accentColor p else "#ffffff")
         (opacity f) (DotData.x (frame_dot f)) (DotData.y (frame_dot f))
         (DotData.baseSize dot * DotData.sizeMultiplier dot / 2).
Proof.
  unfold animateDot.
  destruct (accumulateForces p time r dot) as [acc |]; [| discriminate].
  destruct (pointerProximity p time r dot (maxDistanceFactor acc))
    as [[m tw] |]; [| discriminate].
  destruct (twinkleOpacity dot m) as [phase alpha].
  intros E. injection E as <-. split; [repeat split | reflexivity].
Qed.

Lemma sameParticle_refl (d : DotData.t) : sameParticle d d.
Proof. repeat split. Qed.

Lemma Forall2_refl {A} (R : A -> A -> Prop) (l : list A) :
  (forall a, R a a) -> Forall2 R l l.
Proof. intros H. induction l; constructor; auto. Qed.

(** *** The circle [ctx.arc] refuses *)

Lemma arc_throws_false (radius : Q) : arc_throws radius = false <-> 0 <= radius.
Proof.
  unfold arc_throws. rewrite negb_false_iff. apply Qle_bool_iff.
Qed.

Lemma arc_throws_true (radius : Q) : arc_throws radius = true <-> radius < 0.
Proof.
  unfold arc_throws. rewrite negb_true_iff, <- not_true_iff_false, Qle_bool_iff.
  split; [apply Qnot_le_lt | apply Qlt_not_le].
Qed.

(** The radius passed to [ctx.arc] is the one of the dot before the frame:
    the callback does not change [baseSize] or [sizeMultiplier]. *)
Lemma animateDot_arc p time r dot f :
  animateDot p time r dot = Some f ->
  drawDot_throws (drawDot p f) = arc_throws (dotRadius dot).
Proof.
  intros E. destruct (animateDot_sameParticle p time r dot f E) as [_ ->].
  reflexivity.
Qed.

Lemma frameCompleted_cons_arc fill alpha cx cy radius ops :
  frameCompleted (FillArc fill alpha cx cy radius :: ops) <-> frameCompleted ops.
Proof.
  unfold frameCompleted. split.
  - intros H Hin. apply H. right. exact Hin.
  - intros H [Hd | Hin]; [discriminate | exact (H Hin)].
Qed.

Lemma frameCompleted_cons_rect fill w h ops :
  frameCompleted (FillRect fill w h :: ops) <-> frameCompleted ops.
Proof.
  unfold frameCompleted. split.
  - intros H Hin. apply H. right. exact Hin.
  - intros H [Hd | Hin]; [discriminate | exact (H Hin)].
Qed.

(** The loop over dots none of which has a negative radius: every dot is
    moved and drawn. *)
Lemma forEachDot_Forall2 (P : DotData.t -> DotFrame -> Prop) p time r ds :
  (forall dot, In dot ds -> exists f, animateDot p time r dot = Some f /\ P dot f) ->
  Forall (fun dot => 0 <= dotRadius dot) ds ->
  exists frames,
    forEachDot p time r ds
    = Some (map frame_dot frames, map (drawDot p) frames)
    /\ Forall2 P ds frames.
Proof.
  induction ds as [| dot rest IH]; intros Hall Hradius.
  - exists []. split; [reflexivity | constructor].
  - destruct (Hall dot (or_introl eq_refl)) as (f & E & Hf).
    inversion Hradius as [| ? ? Hdot Hrest]; subst.
    destruct IH as (frames & Erest & Hframes);
      [intros d Hd; apply Hall; now right | exact Hrest |].
    exists (f :: frames). cbn [forEachDot]. rewrite E.
    apply arc_throws_false in Hdot.
    rewrite (animateDot_arc p time r dot f E), Hdot, Erest.
    split; [reflexivity | constructor; assumption].
Qed.

(** The loop in general: it keeps the particles, and it runs to its end
    exactly when no dot has a negative radius. *)
Lemma forEachDot_sameParticle p time r ds :
  (forall dot, In dot ds -> exists f, animateDot p time r dot = Some f) ->
  exists moved ops,
    forEachDot p time r ds = Some (moved, ops)
    /\ Forall2 sameParticle ds moved
    /\ (frameCompleted ops <-> Forall (fun dot => 0 <= dotRadius dot) ds).
Proof.
  induction ds as [| dot rest IH]; intros Hall.
  - exists [], []. split; [reflexivity |]. split; [constructor |].
    split; [constructor | intros _ []].
  - destruct (Hall dot (or_introl eq_refl)) as (f & E).
    pose proof (animateDot_sameParticle p time r dot f E) as [Hsame Hdraw].
    cbn [forEachDot]. rewrite E, (animateDot_arc p time r dot f E).
    destruct (arc_throws (dotRadius dot)) eqn:Ethrow.
    + exists (frame_dot f :: rest), [IndexSizeError].
      split; [reflexivity |]. split.
      * constructor; [exact Hsame | apply Forall2_refl, sameParticle_refl].
      * apply arc_throws_true in Ethrow. split.
        -- intros H. exfalso. apply H. left. reflexivity.
        -- intros H. inversion H as [| ? ? Hdot _]; subst. lra.
    + destruct IH as (moved & ops & Erest & Hmoved & Hiff);
        [intros d Hd; apply Hall; now right |].
      rewrite Erest. exists (frame_dot f :: moved), (drawDot p f :: ops).
      split; [reflexivity |]. split; [constructor; assumption |].
      apply arc_throws_false in Ethrow.
      rewrite Hdraw, frameCompleted_cons_arc, Hiff. split.
      * intros H. constructor; assumption.
      * intros H. inversion H; assumption.
Qed.

(** The loop over dots the first of which with a negative radius is [bad]:
    the dots before it are moved and drawn, [bad] is moved, and the loop
    ends with the exception; the dots after [bad] are left as they were. *)
Lemma forEachDot_stops (P : DotData.t -> DotFrame -> Prop) p time r
    before bad after :
  (forall dot, In dot (before ++ [bad]) ->
     exists f, animateDot p time r dot = Some f /\ P dot f) ->
  Forall (fun dot => 0 <= dotRadius dot) before ->
  dotRadius bad < 0 ->
  exists frames f,
    forEachDot p time r (before ++ bad :: after)
    = Some (map frame_dot frames ++ frame_dot f :: after,
            map (drawDot p) frames ++ [IndexSizeError])
    /\ Forall2 P before frames /\ P bad f.
Proof.
  induction before as [| dot rest IH]; intros Hall Hradius Hbad.
  - destruct (Hall bad (or_introl eq_refl)) as (f & E & Hf).
    exists [], f. cbn [app map forEachDot]. rewrite E.
    apply arc_throws_true in Hbad.
    rewrite (animateDot_arc p time r bad f E), Hbad.
    split; [reflexivity |]. split; [constructor | exact Hf].
  - destruct (Hall dot (or_introl eq_refl)) as (f & E & Hf).
    inversion Hradius as [| ? ? Hdot Hrest]; subst.
    destruct IH as (frames & fbad & Erest & Hframes & Hfbad);
      [intros d Hd; apply Hall; now right | exact Hrest | exact Hbad |].
    exists (f :: frames), fbad. cbn [app map forEachDot]. rewrite E.
    apply arc_throws_false in Hdot.
    rewrite (animateDot_arc p time r dot f E), Hdot, Erest.
    split; [reflexivity |]. split; [constructor; assumption | exact Hfbad].
Qed.

Lemma animate_frames p r sc w moved ops :
  forEachDot p (snd (fst (animateTrail r w))) (fst (fst (fst (animateTrail r w))))
    (dots sc) = Some (moved, ops) ->
  animate p r sc w
  = Some (mkRefs (mouseRef r) (isHovering r) (isFirstMoveRef r)
            (lastMoveTimeRef r) (frameTrail r w) 1,
          mkScene moved (dotsRef sc)
            (displayWidth sc) (displayHeight sc) (lastWidth sc) (lastHeight sc)
            (canvas_width sc) (canvas_height sc),
          mkWorld (S (S (nowCalls w))) (randomCalls w),
          FillRect "#332D23" (displayWidth sc) (displayHeight sc) :: ops).
Proof.
  unfold animate, frameTrail, animateTrail. cbn [Date_now fst snd nowCalls randomCalls].
  intros E. rewrite E. reflexivity.
Qed.

Lemma animateTrail_refs r w :
  fst (fst (fst (animateTrail r w)))
  = mkRefs (mouseRef r) (isHovering r) (isFirstMoveRef r) (lastMoveTimeRef r)
      (frameTrail r w) 1.
Proof. reflexivity. Qed.

(** X18.  Until the first pointer move reaches the handler, whatever else
    happens (frames, enter, leave, resize), the pointer stays at its
    sentinel (-1000, -1000) and the trail stays empty; every frame over
    particles without a negative radius then draws the background and one
    circle of opacity 1 for each particle. *)
Theorem before_first_move_field_is_opaque (evs : list Event) (w0 : World) :
  noEffectiveMove evs = true ->
  let r := fst (runRefs evs (initialRefs, w0)) in
  mouseTrailRef r = []
  /\ mouseRef r = Mouse.mk (-1000) (-1000) (-1000) (-1000)
  /\ isFirstMoveRef r = true
  /\ forall p sc w,
       Forall (fun dot => 0 <= dotRadius dot) (dots sc) ->
       exists r' sc' w' arcs,
         animate p r sc w
         = Some (r', sc', w',
                 FillRect "#332D23" (displayWidth sc) (displayHeight sc) :: arcs)
         /\ List.length arcs = List.length (dots sc)
         /\ Forall (fun op => exists fill cx cy radius,
                        op = FillArc fill 1 cx cy radius /\ 0 <= radius) arcs.
Proof.
  intros Hevs r.
  set (inv := fun (s : Refs * World) =>
                mouseTrailRef (fst s) = []
                /\ mouseRef (fst s) = Mouse.mk (-1000) (-1000) (-1000) (-1000)
                /\ isFirstMoveRef (fst s) = true).
  assert (Hrun : forall evs' s,
             noEffectiveMove evs' = true -> inv s -> inv (runRefs evs' s)).
  { induction evs' as [| ev evs' IH]; intros [r0 w] Hno Hs; [exact Hs |].
    cbn [noEffectiveMove forallb] in Hno. apply andb_true_iff in Hno.
    destruct Hno as [Hev Hno]. apply negb_true_iff in Hev.
    cbn [runRefs fold_left]. apply IH; [exact Hno |].
    destruct Hs as (Htrail & Hmouse & Hfirst). cbn [fst] in *.
    destruct ev as [[rect |] e | | | |]; try discriminate; unfold inv.
    - cbn. repeat split; assumption.
    - cbn. repeat split; assumption.
    - cbn. repeat split; assumption.
    - rewrite stepRefs_FrameTick. cbn [fst mouseTrailRef mouseRef isFirstMoveRef].
      split; [| split; assumption].
      destruct (frameTrail_cases r0 w) as [[_ E] | [_ E]]; rewrite E;
        [exact Htrail | reflexivity].
    - cbn. repeat split; assumption. }
  destruct (Hrun evs (initialRefs, w0) Hevs) as (Htrail & Hmouse & Hfirst).
  { repeat split. }
  fold r in Htrail, Hmouse, Hfirst.
  split; [exact Htrail |]. split; [exact Hmouse |]. split; [exact Hfirst |].
  intros p sc w Hradius.
  set (time := snd (fst (animateTrail r w))).
  set (r1 := fst (fst (fst (animateTrail r w)))).
  assert (Htrail1 : mouseTrailRef r1 = []).
  { unfold r1. rewrite animateTrail_refs. cbn [mouseTrailRef].
    destruct (frameTrail_cases r w) as [[_ E] | [_ E]]; rewrite E;
      [exact Htrail | reflexivity]. }
  assert (Hmouse1 : mouseRef r1 = Mouse.mk (-1000) (-1000) (-1000) (-1000)).
  { unfold r1. rewrite animateTrail_refs. exact Hmouse. }
  destruct (forEachDot_Forall2
              (fun dot f => opacity f = 1
                            /\ exists fill cx cy,
                                 drawDot p f = FillArc fill (opacity f) cx cy
                                                 (dotRadius dot)
                                 /\ 0 <= dotRadius dot)
              p time r1 (dots sc))
    as (frames & E & Hframes).
  { intros dot Hin.
    destruct (animateDot_out_of_reach p time r1 dot) as (f & Ef & Hop & _).
    - rewrite Htrail1. constructor.
    - left. rewrite Hmouse1. cbn. discriminate.
    - exists f. split; [exact Ef |]. split; [exact Hop |].
      destruct (animateDot_sameParticle p time r1 dot f Ef) as [_ Hdraw].
      rewrite Forall_forall in Hradius.
      do 3 eexists. split; [exact Hdraw | apply Hradius, Hin]. }
  { exact Hradius. }
  rewrite (animate_frames p r sc w _ _ E).
  eexists. eexists. eexists. eexists. split; [reflexivity |].
  split.
  - rewrite length_map. symmetry. eapply Forall2_length, Hframes.
  - apply Forall_map. clear E Hradius.
    induction Hframes as [| d f ds fs Hf _ IH]; [constructor |].
    constructor; [| exact IH].
    destruct Hf as (Hop & fill & cx & cy & Hdraw & Hr).
    rewrite Hdraw, Hop. do 4 eexists. split; [reflexivity | exact Hr].
Qed.

(** *** The frame as a whole *)

(** X19.  With a square root that is never negative a call of [animate]
    keeps the particles, whether it runs to its end or stops at a circle
    that [ctx.arc] refuses: the same number, each with its rest position,
    base size, brightness, accent flag, size multiplier and twinkle speed.
    It reads the clock twice and [Math.random] never; of the refs it
    changes only the trail (kept or emptied) and [fadeFactorRef]; it leaves
    [dotsRef] and the sizes alone.  It runs to its end exactly when no
    particle has a negative radius. *)
Theorem frame_keeps_the_particles
    (p : ImageCanvasProps) (r : Refs) (sc : Scene) (w : World) :
  (forall q, 0 <= Math_sqrt q) ->
  exists r' sc' w' ops,
    animate p r sc w = Some (r', sc', w', ops)
    /\ Forall2 sameParticle (dots sc) (dots sc')
    /\ dotsRef sc' = dotsRef sc
    /\ (displayWidth sc', displayHeight sc', lastWidth sc', lastHeight sc',
        canvas_width sc', canvas_height sc')
       = (displayWidth sc, displayHeight sc, lastWidth sc, lastHeight sc,
          canvas_width sc, canvas_height sc)
    /\ w' = mkWorld (nowCalls w + 2) (randomCalls w)
    /\ (mouseRef r', isHovering r', isFirstMoveRef r', lastMoveTimeRef r')
       = (mouseRef r, isHovering r, isFirstMoveRef r, lastMoveTimeRef r)
    /\ fadeFactorRef r' = 1
    /\ (mouseTrailRef r' = mouseTrailRef r \/ mouseTrailRef r' = [])
    /\ (frameCompleted ops
        <-> Forall (fun dot => 0 <= dotRadius dot) (dots sc)).
Proof.
  intros Hsqrt.
  destruct (forEachDot_sameParticle p
              (snd (fst (animateTrail r w)))
              (fst (fst (fst (animateTrail r w)))) (dots sc))
    as (moved & ops & E & Hmoved & Hiff).
  { intros dot _.
    destruct (animateDot_total Hsqrt p (snd (fst (animateTrail r w)))
                (fst (fst (fst (animateTrail r w)))) dot) as (f & Ef & _).
    exists f. exact Ef. }
  rewrite (animate_frames p r sc w moved ops E).
  eexists. eexists. eexists. eexists. split; [reflexivity |].
  cbn [dots dotsRef displayWidth displayHeight lastWidth lastHeight
       canvas_width canvas_height mouseRef isHovering isFirstMoveRef
       lastMoveTimeRef fadeFactorRef mouseTrailRef].
  split; [exact Hmoved |].
  split; [reflexivity |]. split; [reflexivity |].
  split; [f_equal; lia |]. split; [reflexivity |]. split; [reflexivity |].
  split.
  - destruct (frameTrail_cases r w) as [[_ Et] | [_ Et]]; rewrite Et; auto.
  - rewrite frameCompleted_cons_rect. exact Hiff.
Qed.

(** X20.  With a square root that is never negative and a sine in [-1,1],
    a frame over particles without a negative radius draws the background
    [#332D23] over the display size of the effect and then, in order, one
    circle for each particle: accent colour or white, radius
    [baseSize * sizeMultiplier / 2], opacity in [0.3, 1]. *)
Theorem frame_draws_background_then_particles
    (p : ImageCanvasProps) (r : Refs) (sc : Scene) (w : World) :
  (forall q, 0 <= Math_sqrt q) ->
  (forall a, -1 <= Math_sin a <= 1) ->
  Forall (fun dot => 0 <= dotRadius dot) (dots sc) ->
  exists r' sc' w' arcs,
    animate p r sc w
    = Some (r', sc', w',
            FillRect "#332D23" (displayWidth sc) (displayHeight sc) :: arcs)
    /\ Forall2 (fun dot op =>
                  exists alpha cx cy,
                    op = FillArc (if DotData.isAccent dot then accentColor p
                                  else "#ffffff")
                           alpha cx cy
                           (DotData.baseSize dot * DotData.sizeMultiplier dot / 2)
                    /\ (3#10) <= alpha <= 1
                    /\ 0 <= DotData.baseSize dot * DotData.sizeMultiplier dot / 2)
               (dots sc) arcs.
Proof.
  intros Hsqrt Hsin Hradius.
  destruct (forEachDot_Forall2
              (fun dot f =>
                 drawDot p f
                 = FillArc (if DotData.isAccent dot then accentColor p else "#ffffff")
                     (opacity f) (DotData.x (frame_dot f)) (DotData.y (frame_dot f))
                     (DotData.baseSize dot * DotData.sizeMultiplier dot / 2)
                 /\ (3#10) <= opacity f <= 1
                 /\ 0 <= dotRadius dot)
              p (snd (fst (animateTrail r w)))
              (fst (fst (fst (animateTrail r w)))) (dots sc))
    as (frames & E & Hframes).
  { intros dot Hin.
    destruct (animateDot_total Hsqrt p (snd (fst (animateTrail r w)))
                (fst (fst (fst (animateTrail r w)))) dot) as (f & Ef & Hm & Hop).
    exists f. split; [exact Ef |]. split; [| split].
    - apply (animateDot_sameParticle p _ _ dot f Ef).
    - rewrite Hop. apply (twinkleOpacity_range Hsin), Hm.
    - rewrite Forall_forall in Hradius. apply Hradius, Hin. }
  { exact Hradius. }
  rewrite (animate_frames p r sc w _ _ E).
  eexists. eexists. eexists. eexists. split; [reflexivity |].
  clear E Hradius.
  induction Hframes as [| dot f ds fs (Hdraw & Hrange & Hr) _ IH];
    cbn [map]; [constructor |].
  constructor; [| exact IH].
  rewrite Hdraw. do 3 eexists. split; [reflexivity |].
  split; [exact Hrange | exact Hr].
Qed.

(** X24.  A particle of negative radius stops the frame.  With a square
    root that is never negative and a sine in [-1,1]: if [bad] is the
    first particle whose radius is negative, the frame draws the
    background and the circles of the particles before [bad], moves those
    particles and [bad] itself, and ends with the [IndexSizeError] of
    [ctx.arc]; the particles after [bad] are neither drawn nor moved. *)
Theorem negative_radius_stops_the_frame
    (p : ImageCanvasProps) (r : Refs) (sc : Scene) (w : World)
    (before : list DotData.t) (bad : DotData.t) (after : list DotData.t) :
  (forall q, 0 <= Math_sqrt q) ->
  (forall a, -1 <= Math_sin a <= 1) ->
  dots sc = before ++ bad :: after ->
  Forall (fun dot => 0 <= dotRadius dot) before ->
  dotRadius bad < 0 ->
  exists r' sc' w' arcs moved bad',
    animate p r sc w
    = Some (r', sc', w',
            FillRect "#332D23" (displayWidth sc) (displayHeight sc)
              :: arcs ++ [IndexSizeError])
    /\ Forall2 (fun dot op =>
                  exists alpha cx cy,
                    op = FillArc (if DotData.isAccent dot then accentColor p
                                  else "#ffffff")
                           alpha cx cy (dotRadius dot)
                    /\ (3#10) <= alpha <= 1)
               before arcs
    /\ dots sc' = moved ++ bad' :: after
    /\ Forall2 sameParticle before moved
    /\ sameParticle bad bad'.
Proof.
  intros Hsqrt Hsin Hdots Hradius Hbad.
  destruct (forEachDot_stops
              (fun dot f =>
                 sameParticle dot (frame_dot f)
                 /\ drawDot p f
                    = FillArc (if DotData.isAccent dot then accentColor p
                               else "#ffffff")
                        (opacity f) (DotData.x (frame_dot f))
                        (DotData.y (frame_dot f)) (dotRadius dot)
                 /\ (3#10) <= opacity f <= 1)
              p (snd (fst (animateTrail r w)))
              (fst (fst (fst (animateTrail r w)))) before bad after)
    as (frames & f & E & Hframes & Hf).
  { intros dot _.
    destruct (animateDot_total Hsqrt p (snd (fst (animateTrail r w)))
                (fst (fst (fst (animateTrail r w)))) dot) as (f & Ef & Hm & Hop).
    exists f. split; [exact Ef |].
    destruct (animateDot_sameParticle p _ _ dot f Ef) as [Hsame Hdraw].
    split; [exact Hsame |]. split; [exact Hdraw |].
    rewrite Hop. apply (twinkleOpacity_range Hsin), Hm. }
  { exact Hradius. }
  { exact Hbad. }
  rewrite <- Hdots in E.
  rewrite (animate_frames p r sc w _ _ E).
  exists (mkRefs (mouseRef r) (isHovering r) (isFirstMoveRef r)
            (lastMoveTimeRef r) (frameTrail r w) 1).
  eexists. eexists.
  exists (map (drawDot p) frames), (map frame_dot frames), (frame_dot f).
  split; [reflexivity |]. cbn [dots].
  clear E Hdots Hradius.
  split; [| split; [reflexivity | split; [| apply Hf]]].
  - induction Hframes as [| dot fr ds fs (_ & Hdraw & Hrange) _ IH];
      cbn [map]; [constructor |].
    constructor; [| exact IH].
    rewrite Hdraw. do 3 eexists. split; [reflexivity | exact Hrange].
  - induction Hframes as [| dot fr ds fs (Hsame & _) _ IH];
      cbn [map]; [constructor |].
    constructor; [exact Hsame | exact IH].
Qed.

(** X25.  When [Math.random] returns values in [0,1) and the size variation
    lies in [0,2], no particle of a generation pass has a negative radius:
    the size multiplier is at least [1 - sizeVariation / 2], which is not
    negative, and the base size is above 0.5.  So [ctx.arc] accepts the
    circle of every particle a mount hands to [animate]. *)
Theorem generated_particles_can_be_drawn
    (site : Site) (p : ImageCanvasProps) (data : list Z)
    (width height : Q) (w : World) :
  (forall k, 0 <= Math_random_value k < 1) ->
  0 <= sizeVariation p <= 2 ->
  Forall (fun d => 0 <= DotData.sizeMultiplier d /\ 0 <= dotRadius d)
         (fst (generateDots site p data width height w))
  /\ Forall (fun d => 0 <= dotRadius d)
            (dots (fst (fst (mountEffect p width height w)))).
Proof.
  intros Hrandom [Hvar0 Hvar2].
  assert (Hgen : forall site' data',
             Forall (fun d => 0 <= DotData.sizeMultiplier d /\ 0 <= dotRadius d)
                    (fst (generateDots site' p data' width height w))).
  { intros site' data'. apply generateDots_Forall.
    intros x y w1 d w2 E.
    apply cellDot_inv in E.
    destruct E as (b & rS & rA & rP & rV & _ & Hsize & [kS ->] & _ & _ & _ & ->).
    unfold dotRadius. cbn [DotData.sizeMultiplier DotData.baseSize].
    pose proof (Hrandom kS) as [HS0 HS1].
    set (sv := sizeVariation p) in *.
    set (rS := Math_random_value kS) in *.
    set (size := dotSize _ b) in *.
    assert (H1 : 0 <= rS * sv) by (apply Qmult_le_0_compat; lra).
    assert (E1 : 1 + (rS - (1#2)) * sv == 1 - sv / 2 + rS * sv) by field.
    assert (Hm : 0 <= 1 + (rS - (1#2)) * sv) by lra.
    split; [exact Hm |].
    assert (Hprod : 0 <= size * (1 + (rS - (1#2)) * sv))
      by (apply Qmult_le_0_compat; lra).
    assert (E2 : size * (1 + (rS - (1#2)) * sv) / 2
                 == (1#2) * (size * (1 + (rS - (1#2)) * sv))) by field.
    lra. }
  split; [apply Hgen |].
  unfold mountEffect.
  destruct (getImageData_throws _ _); [constructor |].
  specialize (Hgen AtMount
                (applyContrast (contrast p) (getImageData width height))).
  destruct (generateDots AtMount p _ width height w) as [ds w1].
  cbn [fst dots] in *.
  eapply Forall_impl; [| exact Hgen]. intros d [_ H]. exact H.
Qed.

Lemma generateDots_nowCalls site p data width height w :
  nowCalls (snd (generateDots site p data width height w)) = nowCalls w.
Proof.
  unfold generateDots.
  apply (gridDots_world site p data (canvas_dimension dpr width)
           (adjustedHalftoneSize p width height)
           (grid_range width (adjustedHalftoneSize p width height))
           (grid_range height (adjustedHalftoneSize p width height)) [] w).
Qed.

(** X21.  A resize changes nothing of what the frames draw: the callback
    stores the regenerated particles in [dotsRef.current], while [animate]
    keeps iterating the array and the display size of the effect closure.
    The next frame after any resize has the same refs, moves the same dots
    and draws the same operations as it would have without the resize. *)
Theorem resize_does_not_change_the_next_frame
    (p : ImageCanvasProps) (canvasMounted : bool) (entries : list ContentRect.t)
    (r : Refs) (sc : Scene) (w : World) :
  let sc' := fst (fst (resizeCallback p canvasMounted entries sc w)) in
  let w' := snd (fst (resizeCallback p canvasMounted entries sc w)) in
  dots sc' = dots sc
  /\ (displayWidth sc', displayHeight sc') = (displayWidth sc, displayHeight sc)
  /\ option_map frameOutput (animate p r sc' w')
     = option_map frameOutput (animate p r sc w).
Proof.
  intros sc' w'.
  assert (H : dots sc' = dots sc
              /\ displayWidth sc' = displayWidth sc
              /\ displayHeight sc' = displayHeight sc
              /\ nowCalls w' = nowCalls w).
  { unfold sc', w', resizeCallback.
    destruct canvasMounted; [| repeat split].
    destruct entries as [| entry rest]; [repeat split |].
    match goal with |- context [if ?b then _ else _] => destruct b end;
      [| repeat split].
    destruct (getImageData_throws _ _); [repeat split |].
    pose proof (generateDots_nowCalls AtResize p
                  (getImageData (ContentRect.width entry) (ContentRect.height entry))
                  (ContentRect.width entry) (ContentRect.height entry) w) as Hnow.
    destruct (generateDots AtResize p _ _ _ w) as [newDots w1].
    cbn [fst snd dots displayWidth displayHeight] in *. repeat split. exact Hnow. }
  destruct H as (Hdots & Hdw & Hdh & Hnow).
  split; [exact Hdots |]. split; [rewrite Hdw, Hdh; reflexivity |].
  unfold animate, animateTrail, Date_now. rewrite Hnow. cbn [nowCalls].
  rewrite Hdots, Hdw, Hdh.
  match goal with
  | |- context [forEachDot p ?t ?r1 (dots sc)] =>
      destruct (forEachDot p t r1 (dots sc)) as [[moved ops] |]; reflexivity
  end.
Qed.

(** X22.  The force a trail point adds to a particle never points towards
    the trail point, when repulsion strength and point strength are not
    negative: its scalar product with the direction to the point is at most
    0.  And a trail point never lowers the maximum falloff. *)
Theorem repulsion_points_away_from_the_trail_point
    (p : ImageCanvasProps) (time : Q) (dot : DotData.t) (acc acc' : Accum)
    (trailPoint : TrailPoint.t) :
  0 <= repulsionStrength p -> 0 <= TrailPoint.strength trailPoint ->
  trailPointStep p time dot acc trailPoint = Some acc' ->
  let dx := TrailPoint.x trailPoint - DotData.x dot in
  let dy := TrailPoint.y trailPoint - DotData.y dot in
  (totalForceX acc' - totalForceX acc) * dx
    + (totalForceY acc' - totalForceY acc) * dy <= 0
  /\ maxDistanceFactor acc <= maxDistanceFactor acc'.
Proof.
  intros Hrep Hstr E dx dy. unfold trailPointStep in E. fold dx dy in E.
  set (distance := Math_sqrt (dx * dx + dy * dy)) in *.
  assert (Hsame : (totalForceX acc - totalForceX acc) * dx
                  + (totalForceY acc - totalForceY acc) * dy <= 0).
  { assert (E0 : (totalForceX acc - totalForceX acc) * dx
                 + (totalForceY acc - totalForceY acc) * dy == 0) by ring.
    rewrite E0. discriminate. }
  destruct (Qgtb distance (mouseRadius p * (15#10)));
    [injection E as <-; split; [exact Hsame | lra] |].
  destruct (Qltb distance (irregularRadius p time dot)) eqn:Hin;
    [| injection E as <-; split; [exact Hsame | lra]].
  apply Qltb_lt in Hin.
  destruct (checked_div distance (irregularRadius p time dot)) as [ratio |] eqn:Eratio;
    [| discriminate].
  destruct (Qgtb distance (1#10)) eqn:Hfar.
  2:{ injection E as <-. cbn [totalForceX totalForceY maxDistanceFactor].
      split; [exact Hsame | apply Math_max_ge_l]. }
  apply Qgtb_gt in Hfar.
  rewrite !checked_div_some in E by lra.
  rewrite checked_div_some in Eratio by lra. injection Eratio as <-.
  injection E as <-. cbn [totalForceX totalForceY maxDistanceFactor].
  split; [| apply Math_max_ge_l].
  assert (H0 : 0 <= distance) by lra.
  pose proof (falloff_range distance _ H0 Hin) as [Hs0 _].
  set (smooth := smoothstep (1 - distance / irregularRadius p time dot)) in *.
  clearbody smooth.
  set (force := repulsionStrength p * smooth * TrailPoint.strength trailPoint
                * (5#10) * fadeOutFactor).
  assert (Hforce : 0 <= force).
  { unfold force, fadeOutFactor.
    repeat apply Qmult_le_0_compat; lra. }
  assert (Hsq : 0 <= dx * dx + dy * dy).
  { assert (Hx : 0 <= dx * dx) by (destruct (Qlt_le_dec dx 0);
      [setoid_replace (dx * dx) with ((- dx) * (- dx)) by ring |];
      apply Qmult_le_0_compat; lra).
    assert (Hy : 0 <= dy * dy) by (destruct (Qlt_le_dec dy 0);
      [setoid_replace (dy * dy) with ((- dy) * (- dy)) by ring |];
      apply Qmult_le_0_compat; lra).
    lra. }
  assert (Hinv : 0 <= / distance) by (apply Qlt_le_weak, Qinv_lt_0_compat; lra).
  assert (Hprod : 0 <= force * ((dx * dx + dy * dy) * / distance)).
  { apply Qmult_le_0_compat; [exact Hforce |].
    apply Qmult_le_0_compat; assumption. }
  assert (Eq : (totalForceX acc - dx / distance * force - totalForceX acc) * dx
               + (totalForceY acc - dy / distance * force - totalForceY acc) * dy
               == - (force * ((dx * dx + dy * dy) * / distance)))
    by (field; lra).
  rewrite Eq. lra.
Qed.

(** X23.  A resize to the size the callback has just seen is ignored: once
    a resize entry has been handled, the same entry again changes nothing
    and regenerates nothing. *)
Theorem repeated_resize_is_ignored
    (p : ImageCanvasProps) (canvasMounted : bool) (entry : ContentRect.t)
    (rest rest' : list ContentRect.t) (sc : Scene) (w w2 : World) :
  let sc' := fst (fst (resizeCallback p canvasMounted (entry :: rest) sc w)) in
  resizeCallback p canvasMounted (entry :: rest') sc' w2 = (sc', w2, []).
Proof.
  intros sc'. unfold sc', resizeCallback.
  destruct canvasMounted; [| reflexivity].
  set (newWidth := ContentRect.width entry).
  set (newHeight := ContentRect.height entry).
  destruct (Qgtb newWidth 0 && Qgtb newHeight 0
            && (Qgtb (Math_abs (newWidth - lastWidth sc)) 5
                || Qgtb (Math_abs (newHeight - lastHeight sc)) 5)) eqn:Hcond.
  - assert (Hw : Qgtb (Math_abs (newWidth - newWidth)) 5 = false).
    { apply Qgtb_le. unfold Math_abs. apply Qabs_Qle_condition. split; lra. }
    assert (Hh : Qgtb (Math_abs (newHeight - newHeight)) 5 = false).
    { apply Qgtb_le. unfold Math_abs. apply Qabs_Qle_condition. split; lra. }
    destruct (getImageData_throws _ _);
      [| destruct (generateDots AtResize p _ newWidth newHeight w)
           as [newDots w1]];
      cbn [fst lastWidth lastHeight];
      rewrite Hw, Hh, andb_false_r; reflexivity.
  - cbn [fst]. rewrite Hcond. reflexivity.
Qed.

End Animator.

(** ** The properties at concrete inputs *)

Lemma contrast_is_clamped_witness :
  contrastValue 3 10 == 0 /\ contrastValue 3 250 == 255
  /\ contrastValue (3#2) 100 == 345 # 4.
Proof.
  assert (Hc3 : 0 < 3) by reflexivity.
  assert (Hc : 0 < 3#2) by reflexivity.
  assert (Hp10 : 0 <= 10 <= 255) by (split; discriminate).
  assert (Hp250 : 0 <= 250 <= 255) by (split; discriminate).
  assert (Hp100 : 0 <= 100 <= 255) by (split; discriminate).
  destruct (contrast_is_clamped 3 10 Hc3 Hp10) as (_ & _ & Hlo & _).
  destruct (contrast_is_clamped 3 250 Hc3 Hp250) as (_ & _ & _ & Hhi & _).
  destruct (contrast_is_clamped (3#2) 100 Hc Hp100) as (_ & _ & _ & _ & Hmid & _).
  split; [apply Hlo; reflexivity |].
  split; [apply Hhi; reflexivity |].
  rewrite Hmid; [reflexivity | split; discriminate].
Defined.

(** *** The concrete host functions meet what the theorems ask *)

Lemma HostModel_sqrt_nonneg (q : Q) : 0 <= HostModel.sqrt q.
Proof.
  unfold HostModel.sqrt.
  destruct (Qnum (Qred q)) as [| n | n]; discriminate.
Qed.

Lemma HostModel_sin_bound (a : Q) : -1 <= HostModel.sin a <= 1.
Proof.
  unfold HostModel.sin. split.
  - apply Q.le_max_l.
  - apply Q.max_lub; [discriminate | apply Q.le_min_l].
Qed.

Lemma clock1_monotone (i j : nat) :
  (i <= j)%nat -> (HostModel.clock1 i <= HostModel.clock1 j)%Z.
Proof. unfold HostModel.clock1. lia. Qed.

Lemma clock_of_head (t : Z) (rest : list Z) :
  HostModel.clock_of (t :: rest) 0 = t.
Proof. destruct rest; reflexivity. Qed.

Lemma clock_of_monotone (readings : list Z) :
  HostModel.nondecreasing readings = true ->
  forall i j, (i <= j)%nat ->
    (HostModel.clock_of readings i <= HostModel.clock_of readings j)%Z.
Proof.
  induction readings as [| t rest IH]; intros Hsorted i j Hij.
  - cbn. lia.
  - destruct rest as [| t2 rest].
    + cbn. lia.
    + cbn [HostModel.nondecreasing] in Hsorted.
      apply andb_true_iff in Hsorted. destruct Hsorted as [Hle Hsorted].
      apply Z.leb_le in Hle.
      destruct i as [| i], j as [| j]; try lia.
      * change (HostModel.clock_of (t :: t2 :: rest) 0) with t.
        change (HostModel.clock_of (t :: t2 :: rest) (S j))
          with (HostModel.clock_of (t2 :: rest) j).
        pose proof (IH Hsorted 0%nat j ltac:(lia)) as H.
        rewrite clock_of_head in H. lia.
      * change (HostModel.clock_of (t :: t2 :: rest) (S i))
          with (HostModel.clock_of (t2 :: rest) i).
        change (HostModel.clock_of (t :: t2 :: rest) (S j))
          with (HostModel.clock_of (t2 :: rest) j).
        apply IH; [exact Hsorted | lia].
Qed.

Ltac qcompute :=
  vm_compute; first [reflexivity | discriminate | lia].

(** At a cell of size 17/6 a grey of level 50 gives the diameter 0.5 and no
    particle; a grey of level 51 gives 0.51 and a particle. *)
Lemma particle_iff_diameter_above_half_witness :
  let cell := adjustedHalftoneSize Examples.props17 6 6 in
  (50 / 255) * cell * (9#10) == 1#2
  /\ fst (cellDot HostModel.PI HostModel.random 1 AtMount Examples.props17
             Examples.grey50 6 cell 0 0 initialWorld) = None
  /\ (51 / 255) * cell * (9#10) == 51#100
  /\ exists d,
       fst (cellDot HostModel.PI HostModel.random 1 AtMount Examples.props17
              Examples.grey51 6 cell 0 0 initialWorld) = Some d.
Proof.
  intros cell.
  destruct (particle_iff_diameter_above_half HostModel.PI HostModel.random 1
              AtMount Examples.props17 Examples.grey50 6 6 initialWorld)
    as (_ & Hhalf & _ & _).
  destruct (particle_iff_diameter_above_half HostModel.PI HostModel.random 1
              AtMount Examples.props17 Examples.grey51 6 6 initialWorld)
    as (Hiff & _ & _ & _).
  split; [qcompute |].
  split; [eapply Hhalf; [vm_compute; reflexivity | qcompute] |].
  split; [qcompute |].
  apply Hiff. eexists. split; [vm_compute; reflexivity | qcompute].
Defined.

(** C2 fails as stated: the cell at the origin of the 4x2 example has a
    white pixel at its origin and a black pixel under its centre; the code
    reads the white one and creates a particle of diameter 1.8, where the
    centre pixel would give brightness 0 and no particle. *)
Lemma brightness_not_sampled_at_cell_center :
  let cell := adjustedHalftoneSize Examples.props 4 2 in
  let cw := canvas_dimension (dpr 1) 4 in
  let data := applyContrast (contrast Examples.props) Examples.buffer in
  let sc := fst (fst (mountEffect HostModel.PI HostModel.random 1
                        Examples.getImageData Examples.props 4 2 initialWorld)) in
  In (0, 0) (gridCells 4 2 cell)
  /\ sampleIndex (dpr 1) cw 0 0 = 0%Z
  /\ centerSampleIndex (dpr 1) cw cell 0 0 = 20%Z
  /\ (exists b, brightnessAt data (centerSampleIndex (dpr 1) cw cell 0 0) = Some b
                /\ b == 0 /\ dotSize cell b == 0)
  /\ (exists d, dots sc = [d]
                /\ restPosition d = cellCenter cell (0, 0)
                /\ DotData.brightness d == 255
                /\ DotData.baseSize d == 18#10).
Proof.
  intros cell cw data sc.
  split; [vm_compute; left; reflexivity |].
  split; [reflexivity |].
  split; [reflexivity |].
  split.
  - eexists. split; [vm_compute; reflexivity |]. split; qcompute.
  - eexists. split; [vm_compute; reflexivity |].
    split; [reflexivity |]. split; qcompute.
Qed.



(** C1 fails as stated: moves at 1000, 1010, 1100 and 1159 keep the trail
    alive, and the frame at 1176 still reads the point stamped 1010, which
    is 166ms old. *)
Lemma frame_reads_point_older_than_150ms :
  let clock := HostModel.clock_of Examples.readings in
  let s := runRefs HostModel.sqrt clock Examples.fourMoves (initialRefs, initialWorld) in
  HostModel.nondecreasing Examples.readings = true
  /\ noMouseEnter Examples.fourMoves = true
  /\ frameNow clock (snd s) = 1176%Z
  /\ exists point,
       In point (frameTrail clock (fst s) (snd s))
       /\ TrailPoint.timestamp point = 1010%Z
       /\ (150 < frameNow clock (snd s) - TrailPoint.timestamp point)%Z.
Proof.
  intros clock s.
  split; [reflexivity |]. split; [reflexivity |]. split; [reflexivity |].
  exists (TrailPoint.mk 10 10 1010 (Qmin (HostModel.sqrt ((20 - 10) * (20 - 10) + (10 - 10) * (10 - 10)) / 10) 1)).
  split; [vm_compute; left; reflexivity |].
  split; [reflexivity | vm_compute; reflexivity].
Qed.

(** On the same run every point the frame reads is less than 250ms old. *)
Lemma trail_read_by_frame_is_recent_witness :
  let clock := HostModel.clock_of Examples.readings in
  let s := runRefs HostModel.sqrt clock Examples.fourMoves (initialRefs, initialWorld) in
  List.length (frameTrail clock (fst s) (snd s)) = 3%nat
  /\ Forall (fun point =>
               (lastMoveTimeRef (fst s) - TrailPoint.timestamp point < 150)%Z
               /\ (frameNow clock (snd s) - lastMoveTimeRef (fst s) < 100)%Z
               /\ (frameNow clock (snd s) - TrailPoint.timestamp point < 250)%Z)
            (frameTrail clock (fst s) (snd s)).
Proof.
  intros clock s. split; [vm_compute; reflexivity |].
  apply (trail_read_by_frame_is_recent HostModel.sqrt clock
           (clock_of_monotone Examples.readings eq_refl)
           Examples.fourMoves initialWorld).
  reflexivity.
Defined.

(** C3 fails as stated: with an empty trail and the pointer at (13, 14), 5px
    from the particle at (10, 10) whose radius is 10, the particle is drawn
    with an opacity below 1, whatever the sine returns. *)
Lemma pointer_near_dims_with_empty_trail :
  let r := Examples.refsAt 13 14 [] in
  let dot := Examples.dotAt10 0 in
  mouseTrailRef r = []
  /\ distanceTo HostModel.sqrt dot 13 14 == 5
  /\ irregularRadius HostModel.smoothNoise Examples.props 0 dot == 10
  /\ (exists f,
        animateDot HostModel.sqrt HostModel.sin HostModel.smoothNoise
          Examples.props 0 r dot = Some f
        /\ opacity f == 39854993 # 60000000
        /\ ~ opacity f == 1)
  /\ (forall sine : Q -> Q,
        (forall a, -1 <= sine a <= 1) ->
        exists f,
          animateDot HostModel.sqrt sine HostModel.smoothNoise
            Examples.props 0 r dot = Some f
          /\ opacity f < 1).
Proof.
  intros r dot.
  split; [reflexivity |]. split; [qcompute |]. split; [qcompute |]. split.
  - eexists. split; [vm_compute; reflexivity |]. split; qcompute.
  - intros sine Hsine.
    apply (pointer_alone_dims HostModel.sqrt sine HostModel.smoothNoise
             Examples.props 0 r dot Hsine); qcompute.
Qed.

(** With the pointer at (30, 10), out of reach, the same particle is drawn
    with opacity 1; so it is before any move, the pointer at (-1000, -1000). *)
Lemma empty_trail_full_opacity_witness :
  (exists f,
      animateDot HostModel.sqrt HostModel.sin HostModel.smoothNoise
        Examples.props 0 (Examples.refsAt 30 10 []) (Examples.dotAt10 0) = Some f
      /\ opacity f = 1)
  /\ (exists f,
        animateDot HostModel.sqrt HostModel.sin HostModel.smoothNoise
          Examples.props 0 initialRefs (Examples.dotAt10 0) = Some f
        /\ opacity f = 1).
Proof.
  split.
  - destruct (empty_trail_full_opacity HostModel.sqrt HostModel.sin
                HostModel.smoothNoise Examples.props 0
                (Examples.refsAt 30 10 []) (Examples.dotAt10 0))
      as (f & E & H & _); [reflexivity | right; qcompute |].
    exists f. split; assumption.
  - destruct (empty_trail_full_opacity HostModel.sqrt HostModel.sin
                HostModel.smoothNoise Examples.props 0
                initialRefs (Examples.dotAt10 0))
      as (f & E & H & _); [reflexivity | left; qcompute |].
    exists f. split; assumption.
Defined.

(** The jump from (0, 0) to (100, 0): speed 100, ten points at
    x = 0, 10, ..., 90, each of strength 1. *)
Lemma move_appends_interpolated_points_witness :
  let r := Examples.refsAt 0 0 [] in
  let e := mkMouseEvent 100 0 in
  let trail' :=
    mouseTrailRef (fst (handleMouseMove HostModel.sqrt HostModel.clock1
                          (Some Examples.rect0) e r initialWorld)) in
  HostModel.sqrt ((100 - 0 - 0) * (100 - 0 - 0) + (0 - 0 - 0) * (0 - 0 - 0)) == 100
  /\ List.length trail' = 10%nat
  /\ Forall (fun point => TrailPoint.strength point = 1) trail'
  /\ map (fun point => Qred (TrailPoint.x point)) trail'
     = [0; 10; 20; 30; 40; 50; 60; 70; 80; 90].
Proof.
  intros r e trail'.
  destruct (move_appends_interpolated_points HostModel.sqrt HostModel.clock1
              Examples.rect0 e r initialWorld eq_refl)
    as (appended & Hlen & Hstrength & _ & _ & Hquick).
  assert (E : trail' = appended).
  { apply Hquick. intros k Hk.
    change (k < 10)%nat in Hk.
    change (HostModel.clock1 11 - HostModel.clock1 (1 + k) < 150)%Z.
    unfold HostModel.clock1. lia. }
  split; [qcompute |].
  split; [rewrite E; exact Hlen |].
  split; [rewrite E; exact Hstrength |].
  vm_compute. reflexivity.
Defined.

(** A trail point on the particle itself: the step completes, leaves the
    forces at 0 and raises the maximum falloff to 1. *)
Lemma no_normalisation_at_small_distance_witness :
  let dot := Examples.dotAt10 0 in
  let trailPoint := TrailPoint.mk 10 10 0 1 in
  HostModel.sqrt ((10 - 10) * (10 - 10) + (10 - 10) * (10 - 10)) == 0
  /\ checked_div (10 - 10) 0 = None
  /\ exists acc',
       trailPointStep HostModel.sqrt HostModel.smoothNoise Examples.props 0
         dot (mkAccum 0 0 0) trailPoint = Some acc'
       /\ totalForceX acc' = 0 /\ totalForceY acc' = 0
       /\ maxDistanceFactor acc' == 1.
Proof.
  intros dot trailPoint.
  destruct (no_normalisation_at_small_distance HostModel.sqrt HostModel.smoothNoise
              Examples.props 0 dot (mkAccum 0 0 0) trailPoint)
    as ((acc1 & E1 & Hx & Hy) & _ & Hzero & _); [qcompute | qcompute |].
  destruct Hzero as (_ & acc2 & E2 & Hmax); [qcompute | qcompute | qcompute |].
  split; [qcompute |]. split; [reflexivity |].
  exists acc1. split; [exact E1 |]. split; [exact Hx |]. split; [exact Hy |].
  rewrite E1 in E2. injection E2 as <-. rewrite Hmax. qcompute.
Defined.

(** C9 fails as stated: the pointer at (0, 14), on the left edge of the
    canvas, is 5px from the particle at (3, 10) whose radius is 10, yet the
    particle is not marked as twinkling and its maximum falloff stays 0. *)
Lemma pointer_at_left_edge_does_not_twinkle :
  let r := Examples.refsAt 0 14 [] in
  let dot := Examples.dotAt3 in
  distanceTo HostModel.sqrt dot (Mouse.x (mouseRef r)) (Mouse.y (mouseRef r)) == 5
  /\ irregularRadius HostModel.smoothNoise Examples.props 0 dot == 10
  /\ pointerProximity HostModel.sqrt HostModel.smoothNoise Examples.props 0 r dot 0
     = Some (0, false)
  /\ exists f,
       animateDot HostModel.sqrt HostModel.sin HostModel.smoothNoise
         Examples.props 0 r dot = Some f
       /\ isTwinkling f = false
       /\ frame_maxDistanceFactor f = 0
       /\ opacity f = 1.
Proof.
  intros r dot.
  split; [qcompute |]. split; [qcompute |]. split; [reflexivity |].
  eexists. split; [vm_compute; reflexivity |]. repeat split.
Qed.

(** The pointer at (13, 14), 5px from the particle at (10, 10), over a
    trail that holds a point: the particle twinkles with falloff 1/2. *)
Lemma pointer_within_radius_twinkles_witness :
  let r := Examples.refsAt 13 14 [TrailPoint.mk 40 10 0 1] in
  let dot := Examples.dotAt10 0 in
  exists f,
    animateDot HostModel.sqrt HostModel.sin HostModel.smoothNoise
      Examples.props 0 r dot = Some f
    /\ isTwinkling f = true
    /\ frame_maxDistanceFactor f == 1#2.
Proof.
  intros r dot.
  destruct (pointer_within_radius_twinkles HostModel.sqrt HostModel.sin
              HostModel.smoothNoise HostModel_sqrt_nonneg Examples.props 0 r dot)
    as (_ & acc & f & Eacc & E & Htw & Hmax & _); [qcompute | qcompute |].
  exists f. split; [exact E |]. split; [exact Htw |].
  rewrite Hmax.
  assert (Eacc' : accumulateForces HostModel.sqrt HostModel.smoothNoise
                    Examples.props 0 r dot = Some (mkAccum 0 0 0))
    by (vm_compute; reflexivity).
  rewrite Eacc' in Eacc. injection Eacc as <-. qcompute.
Defined.

(** The pointer on the particle and the sine at its minimum: the maximum
    falloff is 1, the twinkle 0, the opacity exactly 0.3. *)
Lemma opacity_between_03_and_1_witness :
  let r := Examples.refsAt 10 10 [] in
  let dot := Examples.dotAt10 (47#10) in
  HostModel.sin ((47#10) + (2#100)) == -1
  /\ exists f,
       animateDot HostModel.sqrt HostModel.sin HostModel.smoothNoise
         Examples.props 0 r dot = Some f
       /\ frame_maxDistanceFactor f == 1
       /\ opacity f == 3#10
       /\ (3#10) <= opacity f <= 1.
Proof.
  intros r dot.
  destruct (opacity_between_03_and_1 HostModel.sqrt HostModel.sin
              HostModel.smoothNoise HostModel_sqrt_nonneg HostModel_sin_bound
              Examples.props 0 r dot)
    as (f & E & Hrange & _).
  split; [qcompute |].
  exists f. split; [exact E |].
  assert (E' : exists f', animateDot HostModel.sqrt HostModel.sin
                 HostModel.smoothNoise Examples.props 0 r dot = Some f'
               /\ frame_maxDistanceFactor f' == 1 /\ opacity f' == 3#10).
  { eexists. split; [vm_compute; reflexivity |]. split; qcompute. }
  destruct E' as (f' & Ef' & Hm & Ho).
  rewrite E in Ef'. injection Ef' as <-.
  split; [exact Hm |]. split; [exact Ho | exact Hrange].
Defined.

(** The scenario of a 100x100 image in a 200x100 container with
    [halftoneSize = 10]: fill scale 2, cells of size 20, a grid of 10 by 5. *)
Lemma grid_of_10_by_5 :
  let p := mkProps 100 100 10 1 "#ff0000" 100 1 1 (1#2) (1#2) in
  fillScale p 200 100 == 2
  /\ adjustedHalftoneSize p 200 100 == 20
  /\ List.length (grid_range 200 (adjustedHalftoneSize p 200 100)) = 10%nat
  /\ List.length (grid_range 100 (adjustedHalftoneSize p 200 100)) = 5%nat
  /\ List.length (gridCells 200 100 (adjustedHalftoneSize p 200 100)) = 50%nat.
Proof.
  intros p. repeat split; vm_compute; reflexivity.
Qed.

(** Why the bound of 250ms is stated without [mouseenter]: entering the
    canvas stores the time as a move does, but drops nothing from the trail.
    If no frame ran in between, the next frame reads a point of any age. *)
Lemma mouseenter_revives_old_trail :
  let clock := HostModel.clock_of [1000; 1010; 1010; 1010; 5000; 5001]%Z in
  let evs := [MouseMove (Some Examples.rect0) (mkMouseEvent 10 10);
              MouseMove (Some Examples.rect0) (mkMouseEvent 20 10);
              MouseEnter] in
  let s := runRefs HostModel.sqrt clock evs (initialRefs, initialWorld) in
  frameNow clock (snd s) = 5001%Z
  /\ map TrailPoint.timestamp (frameTrail clock (fst s) (snd s)) = [1010%Z].
Proof.
  intros clock evs s. split; vm_compute; reflexivity.
Qed.

(** *** Further properties at concrete inputs *)

Lemma HostModel_random_range (k : nat) : 0 <= HostModel.random k < 1.
Proof.
  unfold HostModel.random, Qle, Qlt. cbn [Qnum Qden].
  pose proof (Nat.mod_upper_bound k 10). lia.
Qed.

Lemma example_buffer_is_bytes :
  Forall (fun b => (0 <= b <= 255)%Z) Examples.buffer.
Proof. repeat constructor; discriminate. Qed.

Lemma applyContrast_one_identity_witness :
  applyContrast 1 Examples.buffer = Examples.buffer.
Proof.
  apply applyContrast_one_identity, example_buffer_is_bytes.
Defined.

Lemma contrast_keeps_order_witness :
  contrastValue 2 100 <= contrastValue 2 150
  /\ (contrastByte 2 100 <= contrastByte 2 150)%Z
  /\ contrastByte 2 100 = 72%Z /\ contrastByte 2 150 = 172%Z.
Proof.
  destruct (contrast_keeps_order 2 100 150) as [Hv Hb];
    [discriminate | lia |].
  split; [exact Hv |]. split; [exact Hb |]. split; vm_compute; reflexivity.
Defined.

Lemma empty_surface_has_no_particles_witness :
  let mount :=
    mountEffect HostModel.PI HostModel.random 1 Examples.getImageData
      Examples.props 200 0 initialWorld in
  snd mount = [IndexSizeError]
  /\ snd (fst mount) = initialWorld
  /\ dots (fst (fst mount)) = []
  /\ resizeCallback HostModel.PI HostModel.random 1 Examples.getImageData
       Examples.props true [ContentRect.mk 200 0] Examples.scene initialWorld
     = (Examples.scene, initialWorld, []).
Proof.
  intros mount.
  destruct (empty_surface_has_no_particles HostModel.PI HostModel.random 1
              Examples.getImageData Examples.props 200 0 initialWorld)
    as (Hops & Hworld & Hdots & Hresize); [right; reflexivity |].
  split; [exact Hops |]. split; [exact Hworld |]. split; [exact Hdots |].
  apply Hresize.
Defined.

Lemma particle_size_within_cell_witness :
  Forall (fun d =>
            0 <= DotData.brightness d <= 255
            /\ (1#2) < DotData.baseSize d
               <= (9#10) * adjustedHalftoneSize Examples.props 4 2)
         (fst (generateDots HostModel.PI HostModel.random 1 AtMount
                 Examples.props Examples.buffer 4 2 initialWorld))
  /\ List.length
       (fst (generateDots HostModel.PI HostModel.random 1 AtMount
               Examples.props Examples.buffer 4 2 initialWorld)) = 1%nat.
Proof.
  split; [| vm_compute; reflexivity].
  apply (particle_size_within_cell HostModel.PI HostModel.random 1 AtMount
           Examples.props Examples.buffer 4 2 initialWorld
           example_buffer_is_bytes).
Defined.

Lemma particle_jitter_in_range_witness :
  Forall (fun d =>
            1 - sizeVariation Examples.props / 2 <= DotData.sizeMultiplier d
              <= 1 + sizeVariation Examples.props / 2
            /\ (2#100) <= DotData.twinkleSpeed d < (5#100)
            /\ 0 <= DotData.twinklePhase d < 2 * HostModel.PI)
         (fst (generateDots HostModel.PI HostModel.random 1 AtResize
                 Examples.props (Examples.greyImageData 4 2) 4 2 initialWorld))
  /\ List.length
       (fst (generateDots HostModel.PI HostModel.random 1 AtResize
               Examples.props (Examples.greyImageData 4 2) 4 2 initialWorld))
     = 2%nat.
Proof.
  split; [| vm_compute; reflexivity].
  apply (particle_jitter_in_range HostModel.PI HostModel.random 1 AtResize
           Examples.props (Examples.greyImageData 4 2) 4 2 initialWorld
           HostModel_random_range); [discriminate | reflexivity].
Defined.

Lemma accent_only_on_bright_particles_witness :
  Forall (fun d => DotData.isAccent d = false)
         (fst (generateDots HostModel.PI HostModel.random 1 AtMount
                 Examples.propsNoAccent (Examples.greyImageData 4 2) 4 2 initialWorld))
  /\ Forall (fun d => DotData.isAccent d = true <-> 150 < DotData.brightness d)
            (fst (generateDots HostModel.PI HostModel.random 1 AtMount
                    Examples.propsAllAccent (Examples.greyImageData 4 2) 4 2
                    initialWorld))
  /\ map DotData.isAccent
       (fst (generateDots HostModel.PI HostModel.random 1 AtMount
               Examples.propsAllAccent (Examples.greyImageData 4 2) 4 2
               initialWorld)) = [true; true].
Proof.
  destruct (accent_only_on_bright_particles HostModel.PI HostModel.random 1
              AtMount Examples.propsNoAccent (Examples.greyImageData 4 2) 4 2
              initialWorld) as [_ Hnone].
  destruct (accent_only_on_bright_particles HostModel.PI HostModel.random 1
              AtMount Examples.propsAllAccent (Examples.greyImageData 4 2) 4 2
              initialWorld) as [_ Hall].
  split; [apply (Hnone HostModel_random_range); discriminate |].
  split; [apply (Hall HostModel_random_range); discriminate |].
  vm_compute. reflexivity.
Defined.

Lemma every_cell_samples_inside_the_buffer_witness :
  let cell := adjustedHalftoneSize Examples.props 4 2 in
  In (2, 0) (gridCells 4 2 cell)
  /\ (sampleIndex (dpr 1) (canvas_dimension (dpr 1) 4) 2 0 + 3
      < Z.of_nat (List.length Examples.buffer))%Z
  /\ exists b, brightnessAt Examples.buffer
                 (sampleIndex (dpr 1) (canvas_dimension (dpr 1) 4) 2 0) = Some b.
Proof.
  intros cell.
  destruct (every_cell_samples_inside_the_buffer 1 Examples.props
              Examples.buffer 4 2 4 2) as [_ Hcells];
    [reflexivity | reflexivity | reflexivity | reflexivity |].
  assert (Hin : In (2, 0) (gridCells 4 2 cell))
    by (vm_compute; right; left; reflexivity).
  split; [exact Hin |].
  destruct (Hcells 2 0 Hin) as (_ & _ & _ & Hlt & Hb).
  split; [exact Hlt | exact Hb].
Defined.

(** Without the whole-number condition the last column can sample at
    [canvas.width] itself, the first pixel of the next row: a 5px surface at
    a device pixel ratio of 1.5 has a canvas 7 wide, and the column at 4.8
    samples pixel 7. *)
Lemma sample_column_can_reach_canvas_width :
  let cell := adjustedHalftoneSize Examples.props24 5 5 in
  canvas_dimension (dpr (3#2)) 5 = 7%Z
  /\ (exists x, In x (grid_range 5 cell) /\ x == 48#10
                /\ Math_floor (x * dpr (3#2)) = 7%Z).
Proof.
  intros cell. split; [reflexivity |].
  eexists. split; [vm_compute; right; right; left; reflexivity |].
  split; vm_compute; reflexivity.
Qed.

Lemma move_interpolates_from_previous_position_witness :
  let r := Examples.refsAt 0 0 [] in
  let r' := fst (handleMouseMove HostModel.sqrt HostModel.clock1
                   (Some Examples.rect0) (mkMouseEvent 100 0) r initialWorld) in
  mouseRef r' = Mouse.mk (100 - 0) (0 - 0) 0 0
  /\ map (fun point => Qred (TrailPoint.x point)) (mouseTrailRef r')
     = [0; 10; 20; 30; 40; 50; 60; 70; 80; 90].
Proof.
  intros r r'.
  destruct (move_interpolates_from_previous_position HostModel.sqrt
              HostModel.clock1 Examples.rect0 (mkMouseEvent 100 0) r
              initialWorld eq_refl) as (Hmouse & _ & _).
  split; [exact Hmouse | vm_compute; reflexivity].
Defined.

Lemma trail_strength_in_unit_interval_witness :
  Forall (fun point => 0 <= TrailPoint.strength point <= 1)
         (mouseTrailRef
            (fst (runRefs HostModel.sqrt (HostModel.clock_of Examples.readings)
                    Examples.fourMoves (initialRefs, initialWorld))))
  /\ List.length
       (mouseTrailRef
          (fst (runRefs HostModel.sqrt (HostModel.clock_of Examples.readings)
                  Examples.fourMoves (initialRefs, initialWorld)))) = 3%nat.
Proof.
  split; [| vm_compute; reflexivity].
  apply (trail_strength_in_unit_interval HostModel.sqrt
           (HostModel.clock_of Examples.readings) Examples.fourMoves
           initialWorld HostModel_sqrt_nonneg).
Defined.

Lemma trail_is_oldest_first_witness :
  let s := runRefs HostModel.sqrt (HostModel.clock_of Examples.readings)
             Examples.fourMoves (initialRefs, initialWorld) in
  oldestFirst (mouseTrailRef (fst s))
  /\ map TrailPoint.timestamp (mouseTrailRef (fst s)) = [1010; 1100; 1159]%Z.
Proof.
  intros s.
  destruct (trail_is_oldest_first HostModel.sqrt
              (HostModel.clock_of Examples.readings) Examples.fourMoves
              initialWorld (clock_of_monotone Examples.readings eq_refl))
    as [Hsorted _].
  split; [exact Hsorted | vm_compute; reflexivity].
Defined.

Lemma still_pointer_adds_a_powerless_point_witness :
  let r := Examples.refsAt 10 10 [] in
  exists point,
    mouseTrailRef (fst (handleMouseMove HostModel.sqrt HostModel.clock1
                          (Some Examples.rect0) (mkMouseEvent 10 10) r initialWorld))
    = [point]
    /\ TrailPoint.strength point == 0
    /\ TrailPoint.x point == 10 /\ TrailPoint.y point == 10.
Proof.
  intros r.
  destruct (still_pointer_adds_a_powerless_point HostModel.sqrt
              HostModel.smoothNoise HostModel.clock1 Examples.rect0 (mkMouseEvent 10 10) r initialWorld eq_refl)
    as (point & Etrail & Hx & Hy & Hts & Hstrength & _); [reflexivity |].
  exists point. split.
  - rewrite Etrail. unfold r, Examples.refsAt. cbn [mouseTrailRef app filter].
    unfold isRecent. rewrite Hts. reflexivity.
  - split; [exact Hstrength |]. split; [exact Hx | exact Hy].
Defined.

Lemma out_of_reach_particle_follows_its_spring_witness :
  let r := Examples.refsAt 30 10 [TrailPoint.mk 40 10 0 1] in
  let moving := DotData.mk 12 10 10 10 (18#10) 255 false 1 0 (2#100) 1 0 in
  (exists f,
      animateDot HostModel.sqrt HostModel.sin HostModel.smoothNoise
        Examples.props 0 r moving = Some f
      /\ opacity f = 1
      /\ DotData.vx (frame_dot f) == 68#100
      /\ DotData.x (frame_dot f) == 1268#100)
  /\ (exists f,
        animateDot HostModel.sqrt HostModel.sin HostModel.smoothNoise
          Examples.props 0 r (Examples.dotAt10 0) = Some f
        /\ DotData.x (frame_dot f) == 10 /\ DotData.vx (frame_dot f) == 0).
Proof.
  intros r moving.
  split.
  - destruct (out_of_reach_particle_follows_its_spring HostModel.sqrt
                HostModel.sin HostModel.smoothNoise Examples.props 0 r moving)
      as (f & E & Hop & _ & _ & Hvx & _ & Hx & _).
    + constructor; [left; vm_compute; reflexivity | constructor].
    + right. vm_compute. discriminate.
    + exists f. split; [exact E |]. split; [exact Hop |].
      assert (Ev : DotData.vx (frame_dot f) == 68#100)
        by (rewrite Hvx; vm_compute; reflexivity).
      split; [exact Ev |]. rewrite Hx, Ev. vm_compute. reflexivity.
  - destruct (out_of_reach_particle_follows_its_spring HostModel.sqrt
                HostModel.sin HostModel.smoothNoise Examples.props 0 r
                (Examples.dotAt10 0))
      as (f & E & _ & _ & _ & _ & _ & _ & _ & Hrest & _).
    + constructor; [left; vm_compute; reflexivity | constructor].
    + right. vm_compute. discriminate.
    + exists f. split; [exact E |]. apply Hrest; reflexivity.
Defined.

Lemma example_scene_radii :
  Forall (fun dot => 0 <= dotRadius dot) (dots Examples.scene).
Proof. repeat constructor; discriminate. Qed.

Lemma before_first_move_field_is_opaque_witness :
  let r := fst (runRefs HostModel.sqrt HostModel.clock1 Examples.quietEvents
                  (initialRefs, initialWorld)) in
  mouseTrailRef r = []
  /\ exists r' sc' w' arcs,
       animate HostModel.sqrt HostModel.sin HostModel.smoothNoise HostModel.clock1
         Examples.props r Examples.scene (mkWorld 20 0)
       = Some (r', sc', w', FillRect "#332D23" 40 20 :: arcs)
       /\ List.length arcs = 2%nat.
Proof.
  intros r.
  destruct (before_first_move_field_is_opaque HostModel.sqrt HostModel.sin
              HostModel.smoothNoise HostModel.clock1
              Examples.quietEvents initialWorld eq_refl)
    as (Htrail & _ & _ & Hframe).
  split; [exact Htrail |].
  destruct (Hframe Examples.props Examples.scene (mkWorld 20 0)
              example_scene_radii)
    as (r' & sc' & w' & arcs & E & Hlen & _).
  exists r', sc', w', arcs. split; [exact E | exact Hlen].
Defined.

Lemma frame_keeps_the_particles_witness :
  let r := Examples.refsAt 13 14 [TrailPoint.mk 12 11 990 1] in
  exists r' sc' w' ops,
    animate HostModel.sqrt HostModel.sin HostModel.smoothNoise HostModel.clock1
      Examples.props r Examples.scene initialWorld = Some (r', sc', w', ops)
    /\ Forall2 sameParticle (dots Examples.scene) (dots sc')
    /\ w' = mkWorld 2 0
    /\ frameCompleted ops.
Proof.
  intros r.
  destruct (frame_keeps_the_particles HostModel.sqrt HostModel.sin
              HostModel.smoothNoise HostModel.clock1 Examples.props r
              Examples.scene initialWorld HostModel_sqrt_nonneg)
    as (r' & sc' & w' & ops & E & Hsame & _ & _ & Hw & _ & _ & _ & Hiff).
  exists r', sc', w', ops. split; [exact E |]. split; [exact Hsame |].
  split; [exact Hw | apply Hiff, example_scene_radii].
Defined.

Lemma frame_draws_background_then_particles_witness :
  let r := Examples.refsAt 13 14 [TrailPoint.mk 12 11 990 1] in
  exists r' sc' w' arcs,
    animate HostModel.sqrt HostModel.sin HostModel.smoothNoise HostModel.clock1
      Examples.props r Examples.scene initialWorld
    = Some (r', sc', w', FillRect "#332D23" 40 20 :: arcs)
    /\ List.length arcs = 2%nat.
Proof.
  intros r.
  destruct (frame_draws_background_then_particles HostModel.sqrt HostModel.sin
              HostModel.smoothNoise HostModel.clock1 Examples.props r
              Examples.scene initialWorld HostModel_sqrt_nonneg
              HostModel_sin_bound example_scene_radii)
    as (r' & sc' & w' & arcs & E & Harcs).
  exists r', sc', w', arcs. split; [exact E |].
  symmetry. apply (Forall2_length Harcs).
Defined.

Lemma negative_radius_stops_the_frame_witness :
  dotRadius Examples.shrunkDot == - (9#20)
  /\ exists r' sc' w' arcs moved bad',
       animate HostModel.sqrt HostModel.sin HostModel.smoothNoise HostModel.clock1
         Examples.props initialRefs Examples.sceneShrunk initialWorld
       = Some (r', sc', w', FillRect "#332D23" 40 20 :: arcs ++ [IndexSizeError])
       /\ List.length arcs = 1%nat
       /\ dots sc' = moved ++ [bad'; Examples.dotAt3].
Proof.
  split; [reflexivity |].
  destruct (negative_radius_stops_the_frame HostModel.sqrt HostModel.sin
              HostModel.smoothNoise HostModel.clock1 Examples.props initialRefs
              Examples.sceneShrunk initialWorld
              [Examples.dotAt10 0] Examples.shrunkDot [Examples.dotAt3]
              HostModel_sqrt_nonneg HostModel_sin_bound eq_refl)
    as (r' & sc' & w' & arcs & moved & bad' & E & Harcs & Hdots & _).
  - repeat constructor; discriminate.
  - reflexivity.
  - exists r', sc', w', arcs, moved, bad'. split; [exact E |].
    split; [symmetry; apply (Forall2_length Harcs) | exact Hdots].
Defined.

Lemma generated_particles_can_be_drawn_witness :
  let generated :=
    fst (generateDots HostModel.PI HostModel.random 1 AtMount Examples.props
           Examples.buffer 4 2 initialWorld) in
  List.length generated = 1%nat
  /\ Forall (fun d => 0 <= DotData.sizeMultiplier d /\ 0 <= dotRadius d) generated.
Proof.
  intros generated. split; [vm_compute; reflexivity |].
  apply (generated_particles_can_be_drawn HostModel.PI HostModel.random 1
           Examples.getImageData AtMount Examples.props Examples.buffer 4 2
           initialWorld HostModel_random_range).
  split; discriminate.
Defined.

(** The 4x2 example mounted with a size variation of 3: its one particle
    gets the size multiplier -1/2, and the first frame stops at its circle
    of radius -9/20, with only the background drawn. *)
Lemma size_variation_3_stops_the_first_frame :
  let sc := fst (fst (mountEffect HostModel.PI HostModel.random 1
                        Examples.getImageData Examples.props3 4 2 initialWorld)) in
  (exists d, dots sc = [d]
             /\ DotData.sizeMultiplier d == - (1#2)
             /\ dotRadius d == - (9#20))
  /\ option_map (fun result => snd result)
       (animate HostModel.sqrt HostModel.sin HostModel.smoothNoise HostModel.clock1
          Examples.props3 initialRefs sc (mkWorld 0 4))
     = Some [FillRect "#332D23" 4 2; IndexSizeError].
Proof.
  intros sc. split; [| vm_compute; reflexivity].
  eexists. split; [vm_compute; reflexivity |]. split; reflexivity.
Qed.

Lemma repulsion_points_away_from_the_trail_point_witness :
  let trailPoint := TrailPoint.mk 13 14 0 1 in
  match trailPointStep HostModel.sqrt HostModel.smoothNoise Examples.props 0
          (Examples.dotAt10 0) (mkAccum 0 0 0) trailPoint with
  | Some acc' =>
      (totalForceX acc' - 0) * (13 - 10) + (totalForceY acc' - 0) * (14 - 10) <= 0
      /\ totalForceX acc' == - (3#20) /\ totalForceY acc' == - (1#5)
  | None => False
  end.
Proof.
  intros trailPoint.
  destruct (trailPointStep HostModel.sqrt HostModel.smoothNoise Examples.props 0
              (Examples.dotAt10 0) (mkAccum 0 0 0) trailPoint) as [acc' |] eqn:E.
  - destruct (repulsion_points_away_from_the_trail_point HostModel.sqrt
                HostModel.smoothNoise Examples.props 0 (Examples.dotAt10 0)
                (mkAccum 0 0 0) acc' trailPoint) as [Hdir _];
      [discriminate | discriminate | exact E |].
    split; [exact Hdir |].
    vm_compute in E. injection E as <-. split; vm_compute; reflexivity.
  - vm_compute in E. discriminate.
Defined.
